(** * A shallow embedding of [client.go] of the req HTTP client

    The Go file keeps the client's mutable collections (header and query maps,
    cookie and middleware slices) behind pointers, so the embedding threads an
    explicit store of backing arrays and maps through every method. The file
    is present in two revisions; they differ in [Client.Clone], which is
    embedded twice ([Clone] and [Rev2.Clone]). *)

From Stdlib Require Import Ascii String.
From stdpp Require Import gmap strings list fin_maps.

(** ** Values held by slices *)

Abbreviation loc := nat.

(** A [*http.Cookie]: cookies are only ever handled through their pointer. *)
Definition cookie_ptr := nat.

(** Function values of type [RequestMiddleware]: the four built-in stages of
    the package and the functions handed in by callers. *)
Inductive RequestMiddleware : Type :=
| parseRequestURL
| parseRequestHeader
| parseRequestCookie
| parseRequestBody
| UserRequestMiddleware (id : nat).

Inductive ResponseMiddleware : Type :=
| parseResponseBody
| handleDownload
| UserResponseMiddleware (id : nat).

Inductive val : Type :=
| VZero
| VString (s : string)
| VCookie (p : cookie_ptr)
| VRequestMiddleware (m : RequestMiddleware)
| VResponseMiddleware (m : ResponseMiddleware).

(** A slice header: pointer to the backing array, length and capacity. Every
    slice of the file starts at the first cell of its array. *)
Record slice : Type := Slice { data : option loc; len : nat; cap : nat }.

Definition nil_slice : slice := Slice None 0 0.

(** ** The store *)

Inductive object : Type :=
| Array (cells : list val)
| MapValues (m : gmap string slice)      (* http.Header, url.Values *)
| MapString (m : gmap string string).    (* map[string]string *)

Inductive Logger : Type :=
| defaultLogger
| disableLogger
| UserLogger (id : nat).

Inductive level : Type := DebugLevel | WarnLevel | ErrorLevel.

(** Calls that leave [client.go]: logger calls, and the calls into functions
    supplied from outside (redirect policies, middleware, the transport, the
    body reader). They are recorded in order of occurrence. *)
Inductive event : Type :=
| EvLog (lg : Logger) (lv : level) (format : string) (args : list string)
| EvRedirectPolicy (i : nat)
| EvUdBeforeRequest (m : RequestMiddleware)
| EvBeforeRequest (m : RequestMiddleware)
| EvRoundTrip
| EvToBytes
| EvAfterResponse (m : ResponseMiddleware).

Record state : Type := State { heap : list object; events : list event }.

Inductive result (A : Type) : Type :=
| Ok (a : A)
| Panic.
Arguments Ok {A} a.
Arguments Panic {A}.

Definition M (A : Type) : Type := state → result (A * state).

Definition ret {A} (a : A) : M A := λ st, Ok (a, st).

Definition bind {A B} (c : M A) (k : A → M B) : M B :=
  λ st, match c st with
        | Ok (a, st') => k a st'
        | Panic => Panic
        end.

Definition panic {A} : M A := λ _, Panic.

Notation "'let*' x := c 'in' k" := (bind c (λ x, k))
  (at level 10, x pattern, c at level 100, k at level 200).

Fixpoint for_each {A} (l : list A) (body : A → M unit) : M unit :=
  match l with
  | [] => ret tt
  | x :: l' => let* _ := body x in for_each l' body
  end.

Definition emit (e : event) : M unit :=
  λ st, Ok (tt, State (heap st) (events st ++ [e])).

Definition alloc (o : object) : M loc :=
  λ st, Ok (length (heap st), State (heap st ++ [o]) (events st)).

Definition store (l : loc) (o : object) : M unit :=
  λ st, Ok (tt, State (<[l := o]> (heap st)) (events st)).

Definition load_array (l : loc) : M (list val) :=
  λ st, match heap st !! l with
        | Some (Array cells) => Ok (cells, st)
        | _ => Panic
        end.

Definition load_values (l : loc) : M (gmap string slice) :=
  λ st, match heap st !! l with
        | Some (MapValues m) => Ok (m, st)
        | _ => Panic
        end.

Definition load_strings (l : loc) : M (gmap string string) :=
  λ st, match heap st !! l with
        | Some (MapString m) => Ok (m, st)
        | _ => Panic
        end.

(** ** Go built-ins on slices and maps *)

(** The elements [s[0:len(s)]]. *)
Definition slice_view (h : list object) (s : slice) : list val :=
  match data s with
  | None => []
  | Some l => match h !! l with
              | Some (Array cells) => take (len s) cells
              | _ => []
              end
  end.

Definition read_slice (s : slice) : M (list val) :=
  λ st, Ok (slice_view (heap st) s, st).

Definition write_cells (cells : list val) (off : nat) (vs : list val) : list val :=
  take off cells ++ vs ++ drop (off + length vs) cells.

(** ** Types of the standard library, one module per Go package *)

Module urlpkg.
Record URL : Type := { Scheme : string; Host : string; Path : string; RawQuery : string }.
End urlpkg.

Inductive err : Type :=
| errors_New (msg : string)
| ForeignError (id : nat).

(** A Go [error]: [None] is [nil]. *)
Abbreviation error := (option err).

Module tls.
Definition Certificate := nat.
Record Config : Type := { Certificates : list Certificate }.
End tls.

Module http.
Record Request : Type := {
  Method : string;
  URL : option urlpkg.URL;
  Host : string;
  Header : gmap string (list string);
  Cookies : list cookie_ptr;
  (* the request context carries a client trace *)
  traced : bool
}.
Record Response : Type := { StatusCode : nat; Body : string }.
(** [http.Client], over the representation [F] of the function value kept
    in [CheckRedirect]; [Timeout] is in seconds. *)
Record Client (F : Type) : Type := { CheckRedirect : F; Timeout : nat }.
Arguments CheckRedirect {F} _.
Arguments Timeout {F} _.
End http.

(** What [client.go] takes from the Go runtime and standard library. *)
Class GoLib : Type := {
  (** capacity picked by [append] when [newLen] elements no longer fit *)
  growslice_cap : nat → nat → nat;
  growslice_cap_fits : ∀ newLen oldCap, newLen ≤ growslice_cap newLen oldCap;
  CanonicalMIMEHeaderKey : string → string;
  strings_TrimSpace : string → string;
  strings_TrimRight : string → string → string;
  url_Parse : string → urlpkg.URL + err;
  URL_String : urlpkg.URL → string;
  (** [url.ParseQuery] returns the pairs parsed so far together with the
      first error *)
  url_ParseQuery : string → gmap string (list string) * error;
  tls_LoadX509KeyPair : string → string → tls.Certificate + err;
  time_Now : nat
}.

Section Builtins.
Context `{GoLib}.

(** [append(s, vs...)] *)
Definition append (s : slice) (vs : list val) : M slice :=
  let n := len s + length vs in
  if decide (n ≤ cap s) then
    match data s with
    | None => ret (Slice None n (cap s))
    | Some l =>
        let* cells := load_array l in
        let* _ := store l (Array (write_cells cells (len s) vs)) in
        ret (Slice (Some l) n (cap s))
    end
  else
    let newcap := growslice_cap n (cap s) in
    let* old := read_slice s in
    let* l := alloc (Array (old ++ vs ++ replicate (newcap - n) VZero)) in
    ret (Slice (Some l) n newcap).

(** [s[i] = v] *)
Definition slice_store (s : slice) (i : nat) (v : val) : M unit :=
  if decide (i < len s) then
    match data s with
    | None => panic
    | Some l =>
        let* cells := load_array l in
        store l (Array (<[i := v]> cells))
    end
  else panic.

(** [make([]T, len(vs))] followed by [copy] of [vs] into it, and the slice
    literal [[]T{vs...}] *)
Definition slice_of (vs : list val) : M slice :=
  let* l := alloc (Array vs) in
  ret (Slice (Some l) (length vs) (length vs)).

(** [make(map[string][]string)] *)
Definition make_values : M loc := alloc (MapValues ∅).

(** [make(map[string]string)] *)
Definition make_strings : M loc := alloc (MapString ∅).

(** [m[k] = s] on a [map[string][]string] *)
Definition values_store (r : loc) (k : string) (s : slice) : M unit :=
  let* m := load_values r in
  store r (MapValues (<[k := s]> m)).

(** [m[k]] on a possibly nil [map[string][]string] *)
Definition values_index (r : loc) (k : string) : M slice :=
  let* m := load_values r in
  ret (default nil_slice (m !! k)).

(** [delete(m, k)] *)
Definition values_delete (r : loc) (k : string) : M unit :=
  let* m := load_values r in
  store r (MapValues (delete k m)).

(** [m[k] = v] on a [map[string]string] *)
Definition strings_store (r : loc) (k v : string) : M unit :=
  let* m := load_strings r in
  store r (MapString (<[k := v]> m)).

Definition strings_delete (r : loc) (k : string) : M unit :=
  let* m := load_strings r in
  store r (MapString (delete k m)).

(** [url.Values.Add]: [v[key] = append(v[key], value)] *)
Definition Values_Add (r : loc) (key : string) (value : val) : M unit :=
  let* s := values_index r key in
  let* s' := append s [value] in
  values_store r key s'.

(** [url.Values.Set]: [v[key] = []string{value}] *)
Definition Values_Set (r : loc) (key : string) (value : val) : M unit :=
  let* s := slice_of [value] in
  values_store r key s.

(** [http.Header.Add] and [http.Header.Set] canonicalise the key first. *)
Definition Header_Add (r : loc) (key : string) (value : val) : M unit :=
  Values_Add r (CanonicalMIMEHeaderKey key) value.

Definition Header_Set (r : loc) (key : string) (value : val) : M unit :=
  Values_Set r (CanonicalMIMEHeaderKey key) value.

End Builtins.

(** ** Types of the package *)

(** Function values for the JSON and XML codecs, and dump options, are only
    copied around by this file. *)
Definition codec := nat.
Definition DumpOptions := nat.

Inductive ProxyFunc : Type :=
| http_ProxyFromEnvironment
| http_ProxyURL (u : urlpkg.URL)
| UserProxy (id : nat).

Record Transport : Type := {
  Proxy : option ProxyFunc;
  TLSClientConfig : option tls.Config
}.

(** A [RedirectPolicy] is a function value and may be nil. *)
Definition RedirectPolicy : Type :=
  option (http.Request → list http.Request → error).

(** The two function values this file assigns to [http.Client.CheckRedirect]:
    the method value [c.defaultCheckRedirect] and the closure built by
    [SetRedirectPolicy]. Both read the client they were made from when they
    are called, and the value does not record which client that is: the
    functions that run one take it as an argument. *)
Inductive CheckRedirectFunc : Type :=
| bound_defaultCheckRedirect
| closure_SetRedirectPolicy (policies : list RedirectPolicy).

(** The struct of the second revision has one more field, [jsonDecoder],
    which no function of the file assigns; [t2] is derived from [t] by
    [http2ConfigureTransports]. Both are left out. *)
Record Client : Type := {
  BaseURL : string;
  PathParams : option loc;
  QueryParams : option loc;
  Headers : option loc;
  Cookies : slice;
  FormData : option loc;
  DebugLog : bool;
  AllowGetMethodPayload : bool;
  jsonMarshal : option codec;
  jsonUnmarshal : option codec;
  xmlMarshal : option codec;
  xmlUnmarshal : option codec;
  trace : bool;
  outputDirectory : string;
  disableAutoReadResponse : bool;
  scheme : string;
  log : option Logger;
  t : Transport;
  dumpOptions : option DumpOptions;
  httpClient : http.Client CheckRedirectFunc;
  beforeRequest : slice;
  udBeforeRequest : slice;
  afterResponse : slice
}.

(** Assignments [c.f = v] to the fields that the methods below write. *)
Definition set_BaseURL (v : string) (c : Client) : Client :=
  {| BaseURL := v; PathParams := PathParams c; QueryParams := QueryParams c;
     Headers := Headers c; Cookies := Cookies c; FormData := FormData c;
     DebugLog := DebugLog c; AllowGetMethodPayload := AllowGetMethodPayload c;
     jsonMarshal := jsonMarshal c; jsonUnmarshal := jsonUnmarshal c;
     xmlMarshal := xmlMarshal c; xmlUnmarshal := xmlUnmarshal c; trace := trace c;
     outputDirectory := outputDirectory c;
     disableAutoReadResponse := disableAutoReadResponse c; scheme := scheme c; log := log c;
     t := t c; dumpOptions := dumpOptions c; httpClient := httpClient c;
     beforeRequest := beforeRequest c; udBeforeRequest := udBeforeRequest c;
     afterResponse := afterResponse c |}.

Definition set_QueryParams (v : option loc) (c : Client) : Client :=
  {| BaseURL := BaseURL c; PathParams := PathParams c; QueryParams := v;
     Headers := Headers c; Cookies := Cookies c; FormData := FormData c;
     DebugLog := DebugLog c; AllowGetMethodPayload := AllowGetMethodPayload c;
     jsonMarshal := jsonMarshal c; jsonUnmarshal := jsonUnmarshal c;
     xmlMarshal := xmlMarshal c; xmlUnmarshal := xmlUnmarshal c; trace := trace c;
     outputDirectory := outputDirectory c;
     disableAutoReadResponse := disableAutoReadResponse c; scheme := scheme c; log := log c;
     t := t c; dumpOptions := dumpOptions c; httpClient := httpClient c;
     beforeRequest := beforeRequest c; udBeforeRequest := udBeforeRequest c;
     afterResponse := afterResponse c |}.

Definition set_Headers (v : option loc) (c : Client) : Client :=
  {| BaseURL := BaseURL c; PathParams := PathParams c; QueryParams := QueryParams c;
     Headers := v; Cookies := Cookies c; FormData := FormData c; DebugLog := DebugLog c;
     AllowGetMethodPayload := AllowGetMethodPayload c; jsonMarshal := jsonMarshal c;
     jsonUnmarshal := jsonUnmarshal c; xmlMarshal := xmlMarshal c;
     xmlUnmarshal := xmlUnmarshal c; trace := trace c; outputDirectory := outputDirectory c;
     disableAutoReadResponse := disableAutoReadResponse c; scheme := scheme c; log := log c;
     t := t c; dumpOptions := dumpOptions c; httpClient := httpClient c;
     beforeRequest := beforeRequest c; udBeforeRequest := udBeforeRequest c;
     afterResponse := afterResponse c |}.

Definition set_Cookies (v : slice) (c : Client) : Client :=
  {| BaseURL := BaseURL c; PathParams := PathParams c; QueryParams := QueryParams c;
     Headers := Headers c; Cookies := v; FormData := FormData c; DebugLog := DebugLog c;
     AllowGetMethodPayload := AllowGetMethodPayload c; jsonMarshal := jsonMarshal c;
     jsonUnmarshal := jsonUnmarshal c; xmlMarshal := xmlMarshal c;
     xmlUnmarshal := xmlUnmarshal c; trace := trace c; outputDirectory := outputDirectory c;
     disableAutoReadResponse := disableAutoReadResponse c; scheme := scheme c; log := log c;
     t := t c; dumpOptions := dumpOptions c; httpClient := httpClient c;
     beforeRequest := beforeRequest c; udBeforeRequest := udBeforeRequest c;
     afterResponse := afterResponse c |}.

Definition set_FormData (v : option loc) (c : Client) : Client :=
  {| BaseURL := BaseURL c; PathParams := PathParams c; QueryParams := QueryParams c;
     Headers := Headers c; Cookies := Cookies c; FormData := v; DebugLog := DebugLog c;
     AllowGetMethodPayload := AllowGetMethodPayload c; jsonMarshal := jsonMarshal c;
     jsonUnmarshal := jsonUnmarshal c; xmlMarshal := xmlMarshal c;
     xmlUnmarshal := xmlUnmarshal c; trace := trace c; outputDirectory := outputDirectory c;
     disableAutoReadResponse := disableAutoReadResponse c; scheme := scheme c; log := log c;
     t := t c; dumpOptions := dumpOptions c; httpClient := httpClient c;
     beforeRequest := beforeRequest c; udBeforeRequest := udBeforeRequest c;
     afterResponse := afterResponse c |}.

Definition set_DebugLog (v : bool) (c : Client) : Client :=
  {| BaseURL := BaseURL c; PathParams := PathParams c; QueryParams := QueryParams c;
     Headers := Headers c; Cookies := Cookies c; FormData := FormData c; DebugLog := v;
     AllowGetMethodPayload := AllowGetMethodPayload c; jsonMarshal := jsonMarshal c;
     jsonUnmarshal := jsonUnmarshal c; xmlMarshal := xmlMarshal c;
     xmlUnmarshal := xmlUnmarshal c; trace := trace c; outputDirectory := outputDirectory c;
     disableAutoReadResponse := disableAutoReadResponse c; scheme := scheme c; log := log c;
     t := t c; dumpOptions := dumpOptions c; httpClient := httpClient c;
     beforeRequest := beforeRequest c; udBeforeRequest := udBeforeRequest c;
     afterResponse := afterResponse c |}.

Definition set_AllowGetMethodPayload (v : bool) (c : Client) : Client :=
  {| BaseURL := BaseURL c; PathParams := PathParams c; QueryParams := QueryParams c;
     Headers := Headers c; Cookies := Cookies c; FormData := FormData c;
     DebugLog := DebugLog c; AllowGetMethodPayload := v; jsonMarshal := jsonMarshal c;
     jsonUnmarshal := jsonUnmarshal c; xmlMarshal := xmlMarshal c;
     xmlUnmarshal := xmlUnmarshal c; trace := trace c; outputDirectory := outputDirectory c;
     disableAutoReadResponse := disableAutoReadResponse c; scheme := scheme c; log := log c;
     t := t c; dumpOptions := dumpOptions c; httpClient := httpClient c;
     beforeRequest := beforeRequest c; udBeforeRequest := udBeforeRequest c;
     afterResponse := afterResponse c |}.

Definition set_trace (v : bool) (c : Client) : Client :=
  {| BaseURL := BaseURL c; PathParams := PathParams c; QueryParams := QueryParams c;
     Headers := Headers c; Cookies := Cookies c; FormData := FormData c;
     DebugLog := DebugLog c; AllowGetMethodPayload := AllowGetMethodPayload c;
     jsonMarshal := jsonMarshal c; jsonUnmarshal := jsonUnmarshal c;
     xmlMarshal := xmlMarshal c; xmlUnmarshal := xmlUnmarshal c; trace := v;
     outputDirectory := outputDirectory c;
     disableAutoReadResponse := disableAutoReadResponse c; scheme := scheme c; log := log c;
     t := t c; dumpOptions := dumpOptions c; httpClient := httpClient c;
     beforeRequest := beforeRequest c; udBeforeRequest := udBeforeRequest c;
     afterResponse := afterResponse c |}.

Definition set_outputDirectory (v : string) (c : Client) : Client :=
  {| BaseURL := BaseURL c; PathParams := PathParams c; QueryParams := QueryParams c;
     Headers := Headers c; Cookies := Cookies c; FormData := FormData c;
     DebugLog := DebugLog c; AllowGetMethodPayload := AllowGetMethodPayload c;
     jsonMarshal := jsonMarshal c; jsonUnmarshal := jsonUnmarshal c;
     xmlMarshal := xmlMarshal c; xmlUnmarshal := xmlUnmarshal c; trace := trace c;
     outputDirectory := v; disableAutoReadResponse := disableAutoReadResponse c;
     scheme := scheme c; log := log c; t := t c; dumpOptions := dumpOptions c;
     httpClient := httpClient c; beforeRequest := beforeRequest c;
     udBeforeRequest := udBeforeRequest c; afterResponse := afterResponse c |}.

Definition set_disableAutoReadResponse (v : bool) (c : Client) : Client :=
  {| BaseURL := BaseURL c; PathParams := PathParams c; QueryParams := QueryParams c;
     Headers := Headers c; Cookies := Cookies c; FormData := FormData c;
     DebugLog := DebugLog c; AllowGetMethodPayload := AllowGetMethodPayload c;
     jsonMarshal := jsonMarshal c; jsonUnmarshal := jsonUnmarshal c;
     xmlMarshal := xmlMarshal c; xmlUnmarshal := xmlUnmarshal c; trace := trace c;
     outputDirectory := outputDirectory c; disableAutoReadResponse := v; scheme := scheme c;
     log := log c; t := t c; dumpOptions := dumpOptions c; httpClient := httpClient c;
     beforeRequest := beforeRequest c; udBeforeRequest := udBeforeRequest c;
     afterResponse := afterResponse c |}.

Definition set_log (v : option Logger) (c : Client) : Client :=
  {| BaseURL := BaseURL c; PathParams := PathParams c; QueryParams := QueryParams c;
     Headers := Headers c; Cookies := Cookies c; FormData := FormData c;
     DebugLog := DebugLog c; AllowGetMethodPayload := AllowGetMethodPayload c;
     jsonMarshal := jsonMarshal c; jsonUnmarshal := jsonUnmarshal c;
     xmlMarshal := xmlMarshal c; xmlUnmarshal := xmlUnmarshal c; trace := trace c;
     outputDirectory := outputDirectory c;
     disableAutoReadResponse := disableAutoReadResponse c; scheme := scheme c; log := v;
     t := t c; dumpOptions := dumpOptions c; httpClient := httpClient c;
     beforeRequest := beforeRequest c; udBeforeRequest := udBeforeRequest c;
     afterResponse := afterResponse c |}.

Definition set_t (v : Transport) (c : Client) : Client :=
  {| BaseURL := BaseURL c; PathParams := PathParams c; QueryParams := QueryParams c;
     Headers := Headers c; Cookies := Cookies c; FormData := FormData c;
     DebugLog := DebugLog c; AllowGetMethodPayload := AllowGetMethodPayload c;
     jsonMarshal := jsonMarshal c; jsonUnmarshal := jsonUnmarshal c;
     xmlMarshal := xmlMarshal c; xmlUnmarshal := xmlUnmarshal c; trace := trace c;
     outputDirectory := outputDirectory c;
     disableAutoReadResponse := disableAutoReadResponse c; scheme := scheme c; log := log c;
     t := v; dumpOptions := dumpOptions c; httpClient := httpClient c;
     beforeRequest := beforeRequest c; udBeforeRequest := udBeforeRequest c;
     afterResponse := afterResponse c |}.

Definition set_httpClient (v : http.Client CheckRedirectFunc) (c : Client) : Client :=
  {| BaseURL := BaseURL c; PathParams := PathParams c; QueryParams := QueryParams c;
     Headers := Headers c; Cookies := Cookies c; FormData := FormData c;
     DebugLog := DebugLog c; AllowGetMethodPayload := AllowGetMethodPayload c;
     jsonMarshal := jsonMarshal c; jsonUnmarshal := jsonUnmarshal c;
     xmlMarshal := xmlMarshal c; xmlUnmarshal := xmlUnmarshal c; trace := trace c;
     outputDirectory := outputDirectory c;
     disableAutoReadResponse := disableAutoReadResponse c; scheme := scheme c; log := log c;
     t := t c; dumpOptions := dumpOptions c; httpClient := v;
     beforeRequest := beforeRequest c; udBeforeRequest := udBeforeRequest c;
     afterResponse := afterResponse c |}.

Definition set_udBeforeRequest (v : slice) (c : Client) : Client :=
  {| BaseURL := BaseURL c; PathParams := PathParams c; QueryParams := QueryParams c;
     Headers := Headers c; Cookies := Cookies c; FormData := FormData c;
     DebugLog := DebugLog c; AllowGetMethodPayload := AllowGetMethodPayload c;
     jsonMarshal := jsonMarshal c; jsonUnmarshal := jsonUnmarshal c;
     xmlMarshal := xmlMarshal c; xmlUnmarshal := xmlUnmarshal c; trace := trace c;
     outputDirectory := outputDirectory c;
     disableAutoReadResponse := disableAutoReadResponse c; scheme := scheme c; log := log c;
     t := t c; dumpOptions := dumpOptions c; httpClient := httpClient c;
     beforeRequest := beforeRequest c; udBeforeRequest := v;
     afterResponse := afterResponse c |}.

Definition set_afterResponse (v : slice) (c : Client) : Client :=
  {| BaseURL := BaseURL c; PathParams := PathParams c; QueryParams := QueryParams c;
     Headers := Headers c; Cookies := Cookies c; FormData := FormData c;
     DebugLog := DebugLog c; AllowGetMethodPayload := AllowGetMethodPayload c;
     jsonMarshal := jsonMarshal c; jsonUnmarshal := jsonUnmarshal c;
     xmlMarshal := xmlMarshal c; xmlUnmarshal := xmlUnmarshal c; trace := trace c;
     outputDirectory := outputDirectory c;
     disableAutoReadResponse := disableAutoReadResponse c; scheme := scheme c; log := log c;
     t := t c; dumpOptions := dumpOptions c; httpClient := httpClient c;
     beforeRequest := beforeRequest c; udBeforeRequest := udBeforeRequest c;
     afterResponse := v |}.

Definition set_Proxy (v : option ProxyFunc) (tr : Transport) : Transport :=
  {| Proxy := v; TLSClientConfig := TLSClientConfig tr |}.

Definition set_TLSClientConfig (v : option tls.Config) (tr : Transport) : Transport :=
  {| Proxy := Proxy tr; TLSClientConfig := v |}.

Definition set_CheckRedirect (v : CheckRedirectFunc) (hc : http.Client CheckRedirectFunc)
  : http.Client CheckRedirectFunc :=
  {| http.CheckRedirect := v; http.Timeout := http.Timeout hc |}.

Inductive clientTrace : Type := new_clientTrace.

(** [Request] and [Response] are declared in other files of the package; the
    fields below are the ones [client.go] reads or writes. *)
Record Request : Type := {
  client : Client;
  RequestURL : string;                          (* r.URL *)
  RequestHeaders : gmap string (list string);   (* r.Headers *)
  RequestCookies : list cookie_ptr;             (* r.Cookies *)
  RawRequest : http.Request;
  isSaveResponse : bool;
  RequestTrace : option clientTrace;            (* r.trace *)
  StartTime : nat
}.

Record Response : Type := {
  ResponseRequest : option Request;             (* resp.Request *)
  RawResponse : option http.Response            (* resp.Response *)
}.

Definition set_RawRequest (v : http.Request) (r : Request) : Request :=
  {| client := client r; RequestURL := RequestURL r; RequestHeaders := RequestHeaders r;
     RequestCookies := RequestCookies r; RawRequest := v; isSaveResponse := isSaveResponse r;
     RequestTrace := RequestTrace r; StartTime := StartTime r |}.

Definition set_RequestTrace (v : option clientTrace) (r : Request) : Request :=
  {| client := client r; RequestURL := RequestURL r; RequestHeaders := RequestHeaders r;
     RequestCookies := RequestCookies r; RawRequest := RawRequest r;
     isSaveResponse := isSaveResponse r; RequestTrace := v; StartTime := StartTime r |}.

Definition set_StartTime (v : nat) (r : Request) : Request :=
  {| client := client r; RequestURL := RequestURL r; RequestHeaders := RequestHeaders r;
     RequestCookies := RequestCookies r; RawRequest := RawRequest r;
     isSaveResponse := isSaveResponse r; RequestTrace := RequestTrace r; StartTime := v |}.

(** The collaborators of [client.go] inside and outside the package: the
    middleware functions, the transport behind [http.Client.Do] and the body
    reader of [Response]. A middleware works on the request or response it is
    handed; the back-reference [r.client] is an unexported field that no
    middleware assigns, and the client is not reconfigured while a call is in
    flight. *)
Class Collaborators : Type := {
  call_RequestMiddleware : RequestMiddleware → Client → Request → Request * error;
  call_ResponseMiddleware : ResponseMiddleware → Client → Response → Response * error;
  call_RequestMiddleware_client :
    ∀ m c r, client (call_RequestMiddleware m c r).1 = client r;
  httpClient_Do : http.Client CheckRedirectFunc → http.Request → http.Response + err;
  Response_ToBytes : Response → Response * error
}.

(** ** Logging *)

(** A call [c.log.Debugf/Warnf/Errorf(format, args...)]; calling a method on
    a nil [Logger] interface panics. *)
Definition logf (lg : option Logger) (lv : level) (format : string)
    (args : list string) : M unit :=
  match lg with
  | None => panic
  | Some l => emit (EvLog l lv format args)
  end.

Definition error_text (e : err) : string :=
  match e with
  | errors_New msg => msg
  | ForeignError _ => "error"
  end.

(** Modelled from the spec: [removeEmptyPort] lives in another file of the
    package; the spec says that resolving a URL normalizes an empty port out
    of the host, so that host "example.com:" becomes a host without the
    trailing colon. A host that does not end in a colon is left as it is. *)
Fixpoint removeEmptyPort (host : string) : string :=
  match host with
  | EmptyString => EmptyString
  | String a rest =>
      match rest with
      | EmptyString => if Ascii.eqb a ":"%char then EmptyString else host
      | String _ _ => String a (removeEmptyPort rest)
      end
  end.

(** Modelled from the spec: [Transport.Clone] and [DumpOptions.Clone] live in
    other files of the package; the spec says the clone gets a structurally
    independent copy of the transport. With transports and dump options held
    by value, that copy is the value itself. *)
Definition Transport_Clone (tr : Transport) : Transport := tr.
Definition DumpOptions_Clone (o : option DumpOptions) : option DumpOptions := o.

(** ** The functions of [client.go] *)

Section ClientGo.
Context `{GoLib} `{Collaborators}.

Definition cloneCookies (cookies : slice) : M slice :=
  if decide (len cookies = 0) then ret nil_slice
  else
    let* vs := read_slice cookies in
    slice_of vs.

Definition cloneHeaders (hdrs : option loc) : M (option loc) :=
  match hdrs with
  | None => ret None
  | Some r =>
      let* m := load_values r in
      let* h := make_values in
      let* _ := for_each (map_to_list m) (λ '(k, vs),
                  let* vals := read_slice vs in
                  for_each vals (λ v, Header_Add h k v)) in
      ret (Some h)
  end.

Definition cloneRequestMiddleware (m : slice) : M slice :=
  if decide (len m = 0) then ret nil_slice
  else
    let* vs := read_slice m in
    slice_of vs.

Definition cloneResponseMiddleware (m : slice) : M slice :=
  if decide (len m = 0) then ret nil_slice
  else
    let* vs := read_slice m in
    slice_of vs.

Definition cloneUrlValues (v : option loc) : M (option loc) :=
  match v with
  | None => ret None
  | Some r =>
      let* m := load_values r in
      let* vv := make_values in
      let* _ := for_each (map_to_list m) (λ '(key, values),
                  let* vals := read_slice values in
                  for_each vals (λ value, Values_Add vv key value)) in
      ret (Some vv)
  end.

Definition cloneMap (h : option loc) : M (option loc) :=
  match h with
  | None => ret None
  | Some r =>
      let* src := load_strings r in
      let* m := make_strings in
      let* _ := for_each (map_to_list src) (λ '(k, v), strings_store m k v) in
      ret (Some m)
  end.

Definition zero_http_Request : http.Request :=
  {| http.Method := ""; http.URL := None; http.Host := ""; http.Header := ∅;
     http.Cookies := []; http.traced := false |}.

(** [(c *Client) R()] *)
Definition R (c : Client) : Request :=
  {| client := c; RequestURL := ""; RequestHeaders := ∅; RequestCookies := [];
     RawRequest := zero_http_Request; isSaveResponse := false; RequestTrace := None;
     StartTime := 0 |}.

(** [if c.f == nil { c.f = make(...) }] *)
Definition init_if_nil (field : option loc) (make : M loc)
    (assign : option loc → Client → Client) (c : Client) : M (Client * loc) :=
  match field with
  | Some r => ret (c, r)
  | None => let* r := make in ret (assign (Some r) c, r)
  end.

Definition SetCommonFormDataFromValues (c : Client) (data : list (string * list string))
    : M Client :=
  let* (c, fd) := init_if_nil (FormData c) make_values set_FormData c in
  let* _ := for_each data (λ '(k, v),
              for_each v (λ kv, Values_Add fd k (VString kv))) in
  ret c.

Definition SetCommonFormData (c : Client) (data : list (string * string)) : M Client :=
  let* (c, fd) := init_if_nil (FormData c) make_values set_FormData c in
  let* _ := for_each data (λ '(k, v), Values_Set fd k (VString v)) in
  ret c.

Definition SetBaseURL (c : Client) (u : string) : Client :=
  set_BaseURL (strings_TrimRight u "/") c.

Definition SetOutputDirectory (c : Client) (dir : string) : Client :=
  set_outputDirectory dir c.

(** [tlsConfig] returns the transport's TLS configuration, creating it when
    absent; the updated client comes back with it. *)
Definition tlsConfig (c : Client) : Client * tls.Config :=
  match TLSClientConfig (t c) with
  | None =>
      let conf := {| tls.Certificates := [] |} in
      (set_t (set_TLSClientConfig (Some conf) (t c)) c, conf)
  | Some conf => (c, conf)
  end.

Definition SetCertFromFile (c : Client) (certFile keyFile : string) : M Client :=
  match tls_LoadX509KeyPair certFile keyFile with
  | inr e =>
      let* _ := logf (log c) ErrorLevel "failed to load client cert: %v" [error_text e] in
      ret c
  | inl cert =>
      let '(c, config) := tlsConfig c in
      let config := {| tls.Certificates := tls.Certificates config ++ [cert] |} in
      ret (set_t (set_TLSClientConfig (Some config) (t c)) c)
  end.

Definition debug_redirect (c : Client) (req : http.Request) : M unit :=
  if DebugLog c then
    match http.URL req with
    | None => panic
    | Some u => logf (log c) DebugLevel "<redirect> %s %s" [http.Method req; URL_String u]
    end
  else ret tt.

Definition defaultCheckRedirect (c : Client) (req : http.Request)
    (via : list http.Request) : M error :=
  if decide (10 ≤ length via) then ret (Some (errors_New "stopped after 10 redirects"))
  else
    let* _ := debug_redirect c req in
    ret None.

Definition SetRedirectPolicy (c : Client) (policies : list RedirectPolicy) : Client :=
  if decide (length policies = 0) then c
  else set_httpClient (set_CheckRedirect (closure_SetRedirectPolicy policies) (httpClient c)) c.

(** The loop [for _, f := range policies] of the closure; [i] is the index of
    the head of [policies] in the list the closure was built from. *)
Fixpoint range_policies (i : nat) (policies : list RedirectPolicy) (req : http.Request)
    (via : list http.Request) : M error :=
  match policies with
  | [] => ret None
  | None :: rest => range_policies (S i) rest req via
  | Some f :: rest =>
      let* _ := emit (EvRedirectPolicy i) in
      match f req via with
      | Some e => ret (Some e)
      | None => range_policies (S i) rest req via
      end
  end.

(** The body of the closure assigned by [SetRedirectPolicy]. *)
Definition redirect_closure (c : Client) (policies : list RedirectPolicy)
    (req : http.Request) (via : list http.Request) : M error :=
  let* e := range_policies 0 policies req via in
  match e with
  | Some e => ret (Some e)
  | None =>
      let* _ := debug_redirect c req in
      ret None
  end.

(** A call of [c.httpClient.CheckRedirect] by the transport, for a client [c]
    whose check was made from [c] itself, as it is for a client made by [C]
    and for one on which [SetRedirectPolicy] was called. [Clone] copies the
    struct [*c.httpClient], so the check of a copy stays bound to the
    original until [SetRedirectPolicy] is called on the copy: for such a copy
    [call_CheckRedirect] gives the decision of the check, and it writes the
    debug line with the debug flag and the logger of the copy where the Go
    code reads those of the original at the time of the call. *)
Definition call_CheckRedirect (c : Client) (req : http.Request)
    (via : list http.Request) : M error :=
  match http.CheckRedirect (httpClient c) with
  | bound_defaultCheckRedirect => defaultCheckRedirect c req via
  | closure_SetRedirectPolicy policies => redirect_closure c policies req via
  end.

Definition SetCommonQueryParam (c : Client) (key value : string) : M Client :=
  let* (c, q) := init_if_nil (QueryParams c) make_values set_QueryParams c in
  let* _ := Values_Set q key (VString value) in
  ret c.

Fixpoint SetCommonQueryParams (c : Client) (params : list (string * string)) : M Client :=
  match params with
  | [] => ret c
  | (k, v) :: rest =>
      let* c := SetCommonQueryParam c k v in
      SetCommonQueryParams c rest
  end.

Definition SetCommonQueryString (c : Client) (query : string) : M Client :=
  let '(params, e) := url_ParseQuery (strings_TrimSpace query) in
  match e with
  | None =>
      let* (c, q) := init_if_nil (QueryParams c) make_values set_QueryParams c in
      let* _ := for_each (map_to_list params) (λ '(p, v),
                  for_each v (λ pv, Values_Add q p (VString pv))) in
      ret c
  | Some e =>
      let* _ := logf (log c) WarnLevel "failed to parse query string (%s): %v"
                  [query; error_text e] in
      ret c
  end.

Definition SetCommonCookies (c : Client) (cookies : list cookie_ptr) : M Client :=
  let* s := append (Cookies c) (VCookie <$> cookies) in
  ret (set_Cookies s c).

Definition EnableDebugLog (c : Client) (enable : bool) : Client := set_DebugLog enable c.

Definition SetLogger (c : Client) (lg : option Logger) : Client :=
  match lg with
  | None => set_log (Some disableLogger) c
  | Some _ => set_log lg c
  end.

Definition DisableAutoReadResponse (c : Client) (disable : bool) : Client :=
  set_disableAutoReadResponse disable c.

Definition SetCommonHeader (c : Client) (key value : string) : M Client :=
  let* (c, h) := init_if_nil (Headers c) make_values set_Headers c in
  let* _ := Header_Set h key (VString value) in
  ret c.

Fixpoint SetCommonHeaders (c : Client) (hdrs : list (string * string)) : M Client :=
  match hdrs with
  | [] => ret c
  | (k, v) :: rest =>
      let* c := SetCommonHeader c k v in
      SetCommonHeaders c rest
  end.


Definition OnBeforeRequest (c : Client) (m : RequestMiddleware) : M Client :=
  let* s := append (udBeforeRequest c) [VRequestMiddleware m] in
  ret (set_udBeforeRequest s c).

Definition OnAfterResponse (c : Client) (m : ResponseMiddleware) : M Client :=
  let* s := append (afterResponse c) [VResponseMiddleware m] in
  ret (set_afterResponse s c).

Definition SetProxyURL (c : Client) (proxyUrl : string) : M Client :=
  match url_Parse proxyUrl with
  | inr e =>
      let* _ := logf (log c) ErrorLevel "failed to parse proxy url %s: %v"
                  [proxyUrl; error_text e] in
      ret c
  | inl u => ret (set_t (set_Proxy (Some (http_ProxyURL u)) (t c)) c)
  end.

Definition EnableTraceAll (c : Client) (enable : bool) : Client := set_trace enable c.

Definition EnableAllowGetMethodPayload (c : Client) (a : bool) : Client :=
  set_AllowGetMethodPayload a c.

Definition http_MethodGet : string := "GET".
Definition http_MethodHead : string := "HEAD".
Definition http_MethodOptions : string := "OPTIONS".

Definition isPayloadForbid (c : Client) (m : string) : bool :=
  (bool_decide (m = http_MethodGet) && negb (AllowGetMethodPayload c))
  || bool_decide (m = http_MethodHead) || bool_decide (m = http_MethodOptions).

(** [Clone] of the first revision (lines 1039-1067). *)
Definition Clone (c : Client) : M Client :=
  let t' := Transport_Clone (t c) in
  let client := httpClient c in
  let* headers := cloneHeaders (Headers c) in
  let* cookies := cloneCookies (Cookies c) in
  let* pathParams := cloneMap (PathParams c) in
  let* queryParams := cloneUrlValues (QueryParams c) in
  let* formData := cloneUrlValues (FormData c) in
  let* before := cloneRequestMiddleware (beforeRequest c) in
  let* udBefore := cloneRequestMiddleware (udBeforeRequest c) in
  let* after := cloneResponseMiddleware (afterResponse c) in
  ret {| BaseURL := BaseURL c; PathParams := pathParams; QueryParams := queryParams;
         Headers := headers; Cookies := cookies; FormData := formData;
         DebugLog := DebugLog c; AllowGetMethodPayload := AllowGetMethodPayload c;
         jsonMarshal := jsonMarshal c; jsonUnmarshal := jsonUnmarshal c;
         xmlMarshal := xmlMarshal c; xmlUnmarshal := xmlUnmarshal c;
         trace := trace c; outputDirectory := outputDirectory c;
         disableAutoReadResponse := disableAutoReadResponse c; scheme := scheme c;
         log := log c; t := t'; dumpOptions := DumpOptions_Clone (dumpOptions c);
         httpClient := client; beforeRequest := before; udBeforeRequest := udBefore;
         afterResponse := after |}.

(** [C] creates a client: the built-in stages are installed by the two slice
    literals. JSON and XML codecs are numbered 1 to 4. *)
Definition C : M Client :=
  let t := {| Proxy := Some http_ProxyFromEnvironment; TLSClientConfig := None |} in
  let httpClient := {| http.CheckRedirect := bound_defaultCheckRedirect;
                       http.Timeout := 120 |} in
  let* beforeRequest := slice_of [VRequestMiddleware parseRequestURL;
                                  VRequestMiddleware parseRequestHeader;
                                  VRequestMiddleware parseRequestCookie;
                                  VRequestMiddleware parseRequestBody] in
  let* afterResponse := slice_of [VResponseMiddleware parseResponseBody;
                                  VResponseMiddleware handleDownload] in
  ret {| BaseURL := ""; PathParams := None; QueryParams := None; Headers := None;
         Cookies := nil_slice; FormData := None; DebugLog := false;
         AllowGetMethodPayload := false; jsonMarshal := Some 1; jsonUnmarshal := Some 2;
         xmlMarshal := Some 3; xmlUnmarshal := Some 4; trace := false;
         outputDirectory := ""; disableAutoReadResponse := false; scheme := "";
         log := Some defaultLogger; t := t; dumpOptions := None; httpClient := httpClient;
         beforeRequest := beforeRequest; udBeforeRequest := nil_slice;
         afterResponse := afterResponse |}.

Definition NewClient : M Client := C.

End ClientGo.

Module Rev2.
Section ClientGo.
Context `{GoLib}.

(** [Clone] of the second revision (lines 2060-2081): a struct literal, so
    every field it does not name is zero in the copy, and the two request
    middleware slices are copied as slice headers. *)
Definition Clone (c : Client) : M Client :=
  let t' := Transport_Clone (t c) in
  let cc := httpClient c in
  let dump := DumpOptions_Clone (dumpOptions c) in
  let* headers := cloneHeaders (Headers c) in
  let* pathParams := cloneMap (PathParams c) in
  let* queryParams := cloneUrlValues (QueryParams c) in
  ret {| BaseURL := BaseURL c; PathParams := pathParams; QueryParams := queryParams;
         Headers := headers; Cookies := nil_slice; FormData := None; DebugLog := false;
         AllowGetMethodPayload := false; jsonMarshal := None; jsonUnmarshal := None;
         xmlMarshal := None; xmlUnmarshal := None; trace := false; outputDirectory := "";
         disableAutoReadResponse := disableAutoReadResponse c; scheme := scheme c;
         log := log c; t := t'; dumpOptions := dump; httpClient := cc;
         beforeRequest := beforeRequest c; udBeforeRequest := udBeforeRequest c;
         afterResponse := nil_slice |}.

End ClientGo.
End Rev2.

(** ** The request pipeline *)

Section Pipeline.
Context `{GoLib} `{Collaborators}.

(** [http.Header.Add] on the header map of a raw request. *)
Definition header_Add (h : gmap string (list string)) (key value : string)
    : gmap string (list string) :=
  let k := CanonicalMIMEHeaderKey key in
  <[k := default [] (h !! k) ++ [value]]> h.

Definition setRequestURL (r : http.Request) (url : string) : http.Request * error :=
  match url_Parse url with
  | inr e => (r, Some e)
  | inl u =>
      let u := {| urlpkg.Scheme := urlpkg.Scheme u;
                  urlpkg.Host := removeEmptyPort (urlpkg.Host u);
                  urlpkg.Path := urlpkg.Path u; urlpkg.RawQuery := urlpkg.RawQuery u |} in
      ({| http.Method := http.Method r; http.URL := Some u; http.Host := urlpkg.Host u;
          http.Header := http.Header r; http.Cookies := http.Cookies r;
          http.traced := http.traced r |}, None)
  end.

Definition setRequestHeaderAndCookie (r : Request) : Request :=
  let raw := RawRequest r in
  let hdr := foldl (λ h '(k, vs), foldl (λ h v, header_Add h k v) h vs)
               (http.Header raw) (map_to_list (RequestHeaders r)) in
  set_RawRequest
    {| http.Method := http.Method raw; http.URL := http.URL raw; http.Host := http.Host raw;
       http.Header := hdr; http.Cookies := http.Cookies raw ++ RequestCookies r;
       http.traced := http.traced raw |} r.

Definition with_trace_context (r : Request) : Request :=
  let raw := RawRequest r in
  set_RawRequest
    {| http.Method := http.Method raw; http.URL := http.URL raw; http.Host := http.Host raw;
       http.Header := http.Header raw; http.Cookies := http.Cookies raw;
       http.traced := true |} r.

Definition setTrace (r : Request) : Request :=
  match RequestTrace r with
  | None =>
      if trace (client r) then with_trace_context (set_RequestTrace (Some new_clientTrace) r)
      else r
  | Some _ => with_trace_context r
  end.

(** The error of [setRequestURL] is dropped by [setupRequest]. *)
Definition setupRequest (r : Request) : Request :=
  let r := set_RawRequest (setRequestURL (RawRequest r) (RequestURL r)).1 r in
  let r := setRequestHeaderAndCookie r in
  setTrace r.

(** [for _, f := range fs { if err = f(r.client, r); err != nil { return } }]
    over request middleware; [ev] tells which of the two loops is running. *)
Fixpoint range_RequestMiddleware (ev : RequestMiddleware → event) (fs : list val)
    (r : Request) : M (Request * error) :=
  match fs with
  | [] => ret (r, None)
  | VRequestMiddleware f :: rest =>
      let* _ := emit (ev f) in
      let '(r', e) := call_RequestMiddleware f (client r) r in
      match e with
      | Some _ => ret (r', e)
      | None => range_RequestMiddleware ev rest r'
      end
  | _ :: _ => panic
  end.

Fixpoint range_ResponseMiddleware (c : Client) (fs : list val) (resp : Response)
    : M (Response * error) :=
  match fs with
  | [] => ret (resp, None)
  | VResponseMiddleware f :: rest =>
      let* _ := emit (EvAfterResponse f) in
      let '(resp', e) := call_ResponseMiddleware f c resp in
      match e with
      | Some _ => ret (resp', e)
      | None => range_ResponseMiddleware c rest resp'
      end
  | _ :: _ => panic
  end.

Definition zero_Response : Response := {| ResponseRequest := None; RawResponse := None |}.

(** [(c *Client) do(r *Request) (resp *Response, err error)]. The request is
    updated through its pointer, so the result carries its final state next
    to [resp] and [err]. *)
Definition do (c : Client) (r : Request) : M (Request * Response * error) :=
  let resp := zero_Response in
  let* ud := read_slice (udBeforeRequest (client r)) in
  let* (r, e) := range_RequestMiddleware EvUdBeforeRequest ud r in
  match e with
  | Some _ => ret (r, resp, e)
  | None =>
  let* before := read_slice (beforeRequest (client r)) in
  let* (r, e) := range_RequestMiddleware EvBeforeRequest before r in
  match e with
  | Some _ => ret (r, resp, e)
  | None =>
  let r := setupRequest r in
  let* _ := (if DebugLog c then
               match http.URL (RawRequest r) with
               | None => panic
               | Some u => logf (log c) DebugLevel "%s %s"
                             [http.Method (RawRequest r); URL_String u]
               end
             else ret tt) in
  let r := set_StartTime time_Now r in
  let* _ := emit EvRoundTrip in
  match httpClient_Do (httpClient c) (RawRequest r) with
  | inr e => ret (r, resp, Some e)
  | inl httpResponse =>
  let resp := {| ResponseRequest := Some r; RawResponse := Some httpResponse |} in
  let* (resp, e) :=
    (if negb (disableAutoReadResponse c) && negb (isSaveResponse r) then
       let* _ := emit EvToBytes in
       ret (Response_ToBytes resp)
     else ret (resp, None)) in
  match e with
  | Some _ => ret (r, resp, e)
  | None =>
  let* after := read_slice (afterResponse (client r)) in
  let* (resp, e) := range_ResponseMiddleware (client r) after resp in
  ret (r, resp, e)
  end end end end.

End Pipeline.

(** ** The package-level default client *)

(** The global [defaultClient] is a [*Client]; [None] is the nil pointer. The
    wrappers take the current value of the global. *)
Module req.
Section Default.
Context `{GoLib} `{Collaborators}.

(** [var defaultClient *Client = C()] *)
Definition defaultClient_init : M (option Client) :=
  let* c := C in
  ret (Some c).

Definition DefaultClient (defaultClient : option Client) : option Client := defaultClient.

Definition SetDefaultClient (c : option Client) (defaultClient : option Client)
    : option Client :=
  match c with
  | Some _ => c
  | None => defaultClient
  end.

(** [defaultClient.method(...)]. A method called on a nil receiver panics as
    soon as it reads a field. [R] only stores its receiver, and the request it
    returns panics at its first use; the embedding counts that as a panic of
    the wrapper as well. *)
Definition forward {A} (defaultClient : option Client) (method : Client → M A) : M A :=
  match defaultClient with
  | None => panic
  | Some c => method c
  end.

Definition NewRequest (defaultClient : option Client) : M Request :=
  forward defaultClient (λ c, ret (R c)).

Definition R (defaultClient : option Client) : M Request :=
  forward defaultClient (λ c, ret (R c)).

Definition SetCommonHeader (defaultClient : option Client) (key value : string) : M Client :=
  forward defaultClient (λ c, SetCommonHeader c key value).

Definition SetCommonCookies (defaultClient : option Client) (cookies : list cookie_ptr)
    : M Client :=
  forward defaultClient (λ c, SetCommonCookies c cookies).

Definition OnBeforeRequest (defaultClient : option Client) (m : RequestMiddleware)
    : M Client :=
  forward defaultClient (λ c, OnBeforeRequest c m).

Definition OnAfterResponse (defaultClient : option Client) (m : ResponseMiddleware)
    : M Client :=
  forward defaultClient (λ c, OnAfterResponse c m).

Definition EnableDebugLog (defaultClient : option Client) (enable : bool) : M Client :=
  forward defaultClient (λ c, ret (EnableDebugLog c enable)).

Definition EnableAllowGetMethodPayload (defaultClient : option Client) (a : bool)
    : M Client :=
  forward defaultClient (λ c, ret (EnableAllowGetMethodPayload c a)).

Definition DisableAutoReadResponse (defaultClient : option Client) (disable : bool)
    : M Client :=
  forward defaultClient (λ c, ret (DisableAutoReadResponse c disable)).

(** A statement of a program that uses the package-level functions. *)
Inductive call : Type :=
| GSetDefaultClient (c : option Client)
| GR
| GSetCommonHeader (key value : string)
| GSetCommonCookies (cookies : list cookie_ptr)
| GOnBeforeRequest (m : RequestMiddleware)
| GOnAfterResponse (m : ResponseMiddleware)
| GEnableDebugLog (enable : bool)
| GEnableAllowGetMethodPayload (a : bool)
| GDisableAutoReadResponse (disable : bool).

(** One statement: the value of [defaultClient] afterwards. A method that
    writes through the pointer leaves the pointer itself in place, now
    pointing at the updated client. *)
Definition exec (k : call) (defaultClient : option Client) : M (option Client) :=
  match k with
  | GSetDefaultClient c => ret (SetDefaultClient c defaultClient)
  | GR => let* _ := R defaultClient in ret defaultClient
  | GSetCommonHeader key value =>
      let* c := SetCommonHeader defaultClient key value in ret (Some c)
  | GSetCommonCookies cookies =>
      let* c := SetCommonCookies defaultClient cookies in ret (Some c)
  | GOnBeforeRequest m => let* c := OnBeforeRequest defaultClient m in ret (Some c)
  | GOnAfterResponse m => let* c := OnAfterResponse defaultClient m in ret (Some c)
  | GEnableDebugLog enable =>
      let* c := EnableDebugLog defaultClient enable in ret (Some c)
  | GEnableAllowGetMethodPayload a =>
      let* c := EnableAllowGetMethodPayload defaultClient a in ret (Some c)
  | GDisableAutoReadResponse disable =>
      let* c := DisableAutoReadResponse defaultClient disable in ret (Some c)
  end.

Fixpoint exec_all (ks : list call) (defaultClient : option Client) : M (option Client) :=
  match ks with
  | [] => ret defaultClient
  | k :: rest =>
      let* d := exec k defaultClient in
      exec_all rest d
  end.

End Default.
End req.

(** ** Mutations of a client's collections *)

(** The ways a program changes the collections of a client: the methods of
    the file that write them, and assignments through the exported fields. *)
Inductive mutation : Type :=
| CallSetCommonHeader (key value : string)
| CallSetCommonCookies (cookies : list cookie_ptr)
| CallSetCommonQueryParam (key value : string)
| CallSetCommonQueryString (query : string)
| CallSetCommonFormData (data : list (string * string))
| CallSetCommonFormDataFromValues (data : list (string * list string))
| CallOnBeforeRequest (m : RequestMiddleware)
| CallOnAfterResponse (m : ResponseMiddleware)
| StoreHeader (key : string) (i : nat) (value : string)  (* c.Headers[key][i] = value *)
| DeleteHeader (key : string)                            (* delete(c.Headers, key) *)
| StoreCookie (i : nat) (p : cookie_ptr)                 (* c.Cookies[i] = p *)
| StorePathParam (key value : string)                    (* c.PathParams[key] = value *)
| DeletePathParam (key : string).                        (* delete(c.PathParams, key) *)

Inductive party : Type := Original | Copy.

Section Mutations.
Context `{GoLib}.

Definition mutate (m : mutation) (c : Client) : M Client :=
  match m with
  | CallSetCommonHeader key value => SetCommonHeader c key value
  | CallSetCommonCookies cookies => SetCommonCookies c cookies
  | CallSetCommonQueryParam key value => SetCommonQueryParam c key value
  | CallSetCommonQueryString query => SetCommonQueryString c query
  | CallSetCommonFormData data => SetCommonFormData c data
  | CallSetCommonFormDataFromValues data => SetCommonFormDataFromValues c data
  | CallOnBeforeRequest f => OnBeforeRequest c f
  | CallOnAfterResponse f => OnAfterResponse c f
  | StoreHeader key i value =>
      match Headers c with
      | None => panic
      | Some r =>
          let* s := values_index r key in
          let* _ := slice_store s i (VString value) in
          ret c
      end
  | DeleteHeader key =>
      match Headers c with
      | None => ret c
      | Some r => let* _ := values_delete r key in ret c
      end
  | StoreCookie i p =>
      let* _ := slice_store (Cookies c) i (VCookie p) in
      ret c
  | StorePathParam key value =>
      match PathParams c with
      | None => panic
      | Some r => let* _ := strings_store r key value in ret c
      end
  | DeletePathParam key =>
      match PathParams c with
      | None => ret c
      | Some r => let* _ := strings_delete r key in ret c
      end
  end.

(** A client and its clone, mutated in any interleaving. *)
Definition mutate_one (who : party) (m : mutation) (cs : Client * Client)
    : M (Client * Client) :=
  match who with
  | Original => let* c := mutate m cs.1 in ret (c, cs.2)
  | Copy => let* cc := mutate m cs.2 in ret (cs.1, cc)
  end.

Fixpoint mutate_all (ops : list (party * mutation)) (cs : Client * Client)
    : M (Client * Client) :=
  match ops with
  | [] => ret cs
  | (who, m) :: rest =>
      let* cs := mutate_one who m cs in
      mutate_all rest cs
  end.

Fixpoint configure (ops : list mutation) (c : Client) : M Client :=
  match ops with
  | [] => ret c
  | m :: rest =>
      let* c := mutate m c in
      configure rest c
  end.

End Mutations.

(** ** What a program can read from a client's collections *)

Definition values_view (h : list object) (r : option loc)
    : option (gmap string (list val)) :=
  match r with
  | None => None
  | Some l => match h !! l with
              | Some (MapValues m) => Some (slice_view h <$> m)
              | _ => None
              end
  end.

Definition strings_view (h : list object) (r : option loc) : option (gmap string string) :=
  match r with
  | None => None
  | Some l => match h !! l with
              | Some (MapString m) => Some m
              | _ => None
              end
  end.

Record Collections : Type := {
  view_Headers : option (gmap string (list val));
  view_Cookies : list val;
  view_PathParams : option (gmap string string);
  view_QueryParams : option (gmap string (list val));
  view_FormData : option (gmap string (list val));
  view_beforeRequest : list val;
  view_udBeforeRequest : list val;
  view_afterResponse : list val
}.

Definition collections (h : list object) (c : Client) : Collections :=
  {| view_Headers := values_view h (Headers c);
     view_Cookies := slice_view h (Cookies c);
     view_PathParams := strings_view h (PathParams c);
     view_QueryParams := values_view h (QueryParams c);
     view_FormData := values_view h (FormData c);
     view_beforeRequest := slice_view h (beforeRequest c);
     view_udBeforeRequest := slice_view h (udBeforeRequest c);
     view_afterResponse := slice_view h (afterResponse c) |}.

(** ** Well-formed stores *)

(** A slice header is backed: nil with no capacity, or pointing at an array
    that holds its capacity. *)
Definition slice_ok (h : list object) (s : slice) : Prop :=
  match data s with
  | None => len s = 0 ∧ cap s = 0
  | Some l => match h !! l with
              | Some (Array cells) => len s ≤ cap s ∧ cap s ≤ length cells
              | _ => False
              end
  end.

Global Instance slice_ok_dec h s : Decision (slice_ok h s).
Proof.
  unfold slice_ok. destruct (data s) as [l|]; [|apply _].
  destruct (h !! l) as [[cells|m|m]|]; apply _.
Defined.

Definition object_ok (h : list object) (o : object) : Prop :=
  match o with
  | MapValues m => map_Forall (λ _ s, slice_ok h s) m
  | _ => True
  end.

Global Instance object_ok_dec h o : Decision (object_ok h o).
Proof. destruct o; simpl; apply _. Defined.

(** Every slice kept in a map of the store is backed. *)
Definition heap_ok (h : list object) : Prop := Forall (object_ok h) h.

Definition values_ok (h : list object) (r : option loc) : Prop :=
  match r with
  | None => True
  | Some l => match h !! l with
              | Some (MapValues _) => True
              | _ => False
              end
  end.

Global Instance values_ok_dec h r : Decision (values_ok h r).
Proof.
  unfold values_ok. destruct r as [l|]; [|apply _].
  destruct (h !! l) as [[cells|m|m]|]; apply _.
Defined.

Definition strings_ok (h : list object) (r : option loc) : Prop :=
  match r with
  | None => True
  | Some l => match h !! l with
              | Some (MapString _) => True
              | _ => False
              end
  end.

Global Instance strings_ok_dec h r : Decision (strings_ok h r).
Proof.
  unfold strings_ok. destruct r as [l|]; [|apply _].
  destruct (h !! l) as [[cells|m|m]|]; apply _.
Defined.

(** The pointers a client holds into the store. *)
Inductive root : Type :=
| RSlice (s : slice)
| RValues (r : option loc)
| RStrings (r : option loc).

Definition roots (c : Client) : list root :=
  [RValues (Headers c); RSlice (Cookies c); RStrings (PathParams c);
   RValues (QueryParams c); RValues (FormData c); RSlice (beforeRequest c);
   RSlice (udBeforeRequest c); RSlice (afterResponse c)].

Definition root_ok (h : list object) (rt : root) : Prop :=
  match rt with
  | RSlice s => slice_ok h s
  | RValues r => values_ok h r
  | RStrings r => strings_ok h r
  end.

Global Instance root_ok_dec h rt : Decision (root_ok h rt).
Proof. destruct rt; simpl; apply _. Defined.

(** The client belongs to the store: its collection fields point at objects
    of the right kind. *)
Definition client_ok (h : list object) (c : Client) : Prop :=
  heap_ok h ∧ Forall (root_ok h) (roots c).

Global Instance client_ok_dec h c : Decision (client_ok h c).
Proof. unfold client_ok, heap_ok. apply _. Defined.

(** ** Footprints and frames *)

(** The locations a root leads to: the object it points at and, for a map of
    slices, the backing arrays of its entries. *)
Definition reach_values (h : list object) (r : option loc) (l : loc) : Prop :=
  r = Some l ∨
  ∃ l0 m k s, r = Some l0 ∧ h !! l0 = Some (MapValues m) ∧ m !! k = Some s ∧ data s = Some l.

Definition reach_root (h : list object) (rt : root) (l : loc) : Prop :=
  match rt with
  | RSlice s => data s = Some l
  | RValues r => reach_values h r l
  | RStrings r => r = Some l
  end.

Definition reach (h : list object) (c : Client) (l : loc) : Prop :=
  ∃ rt, rt ∈ roots c ∧ reach_root h rt l.

(** The root points into the region [R]. *)
Definition root_in (R : loc → Prop) (rt : root) : Prop :=
  match rt with
  | RSlice s => ∀ l, data s = Some l → R l
  | RValues r => ∀ l, r = Some l → R l
  | RStrings r => ∀ l, r = Some l → R l
  end.

Definition object_in (R : loc → Prop) (o : object) : Prop :=
  match o with
  | MapValues m => ∀ k s p, m !! k = Some s → data s = Some p → R p
  | _ => True
  end.

(** A region contains every location not allocated yet, and the maps in it
    only hold slices of it. *)
Definition fresh_in (R : loc → Prop) (h : list object) : Prop :=
  ∀ l, length h ≤ l → R l.

Definition closed (R : loc → Prop) (h : list object) : Prop :=
  ∀ l o, R l → h !! l = Some o → object_in R o.

(** Outside the region nothing is written. *)
Definition frame (R : loc → Prop) (h h' : list object) : Prop :=
  ∀ l, ¬ R l → h' !! l = h !! l.

Definition same_kind (o o' : object) : Prop :=
  match o, o' with
  | Array a, Array a' => length a = length a'
  | MapValues _, MapValues _ => True
  | MapString _, MapString _ => True
  | _, _ => False
  end.

(** Objects stay where they are and keep their kind and size. *)
Definition ext (h h' : list object) : Prop :=
  ∀ l o, h !! l = Some o → ∃ o', h' !! l = Some o' ∧ same_kind o o'.

Definition Inv (R : loc → Prop) (h : list object) : Prop :=
  heap_ok h ∧ fresh_in R h ∧ closed R h.

(** [comp], run in [st], stays inside the region [R] and establishes [Q];
    [pan] says whether a panic is acceptable. *)
Definition wp {A} (pan : Prop) (R : loc → Prop) (comp : M A)
    (Q : A → state → Prop) (st : state) : Prop :=
  match comp st with
  | Ok (a, st') =>
      Inv R (heap st') ∧ frame R (heap st) (heap st') ∧ ext (heap st) (heap st') ∧ Q a st'
  | Panic => pan
  end.

(** A client and its clone share nothing. *)
Definition separated (h : list object) (c cc : Client) : Prop :=
  client_ok h c ∧ client_ok h cc ∧ ∀ l, reach h c l → reach h cc l → False.

(** Distinct collection fields of one client share nothing. *)
Definition isolated (h : list object) (c : Client) : Prop :=
  ∀ i j a b l, i ≠ j → roots c !! i = Some a → roots c !! j = Some b →
    reach_root h a l → reach_root h b l → False.

(** The collection field a mutation works on, as an index into [roots]. *)
Definition target (m : mutation) : nat :=
  match m with
  | CallSetCommonHeader _ _ | StoreHeader _ _ _ | DeleteHeader _ => 0
  | CallSetCommonCookies _ | StoreCookie _ _ => 1
  | StorePathParam _ _ | DeletePathParam _ => 2
  | CallSetCommonQueryParam _ _ | CallSetCommonQueryString _ => 3
  | CallSetCommonFormData _ | CallSetCommonFormDataFromValues _ => 4
  | CallOnBeforeRequest _ => 6
  | CallOnAfterResponse _ => 7
  end.

(** The root reads the same in both stores. *)
Definition same_view (h h' : list object) (rt : root) : Prop :=
  match rt with
  | RSlice s => slice_view h' s = slice_view h s
  | RValues r => values_view h' r = values_view h r
  | RStrings r => strings_view h' r = strings_view h r
  end.

(** What [mutate] guarantees for the field it works on. *)
Definition mutated (R : loc → Prop) (m : mutation) (c : Client) (c' : Client)
    (st' : state) : Prop :=
  (∃ rt', roots c' = <[target m := rt']> (roots c) ∧
          root_ok (heap st') rt' ∧ root_in R rt') ∧
  log c' = log c.

(** The region of a group of roots: what they reach, and whatever is
    allocated later. *)
Definition region (h : list object) (G : list root) (l : loc) : Prop :=
  (∃ rt, rt ∈ G ∧ reach_root h rt l) ∨ length h ≤ l.

(** The middleware a sequence of mutations registers, in order. *)
Definition registered_request (ops : list mutation) : list RequestMiddleware :=
  omap (λ m, match m with CallOnBeforeRequest f => Some f | _ => None end) ops.

Definition registered_response (ops : list mutation) : list ResponseMiddleware :=
  omap (λ m, match m with CallOnAfterResponse f => Some f | _ => None end) ops.

Definition builtin_request : list RequestMiddleware :=
  [parseRequestURL; parseRequestHeader; parseRequestCookie; parseRequestBody].

Definition builtin_response : list ResponseMiddleware :=
  [parseResponseBody; handleDownload].

(** ** The pipeline as a function of its middleware *)

Section PipelineSpec.
Context `{GoLib} `{Collaborators}.

(** The request middleware [fs] applied in order until one returns an error:
    the request they leave, the error, and the middleware that were called. *)
Fixpoint run_RequestMiddleware (fs : list RequestMiddleware) (r : Request)
    : Request * error * list RequestMiddleware :=
  match fs with
  | [] => (r, None, [])
  | f :: rest =>
      let '(r', e) := call_RequestMiddleware f (client r) r in
      match e with
      | Some _ => (r', e, [f])
      | None => let '(r'', e', called) := run_RequestMiddleware rest r' in
                (r'', e', f :: called)
      end
  end.

Fixpoint run_ResponseMiddleware (c : Client) (fs : list ResponseMiddleware)
    (resp : Response) : Response * error * list ResponseMiddleware :=
  match fs with
  | [] => (resp, None, [])
  | f :: rest =>
      let '(resp', e) := call_ResponseMiddleware f c resp in
      match e with
      | Some _ => (resp', e, [f])
      | None => let '(resp'', e', called) := run_ResponseMiddleware c rest resp' in
                (resp'', e', f :: called)
      end
  end.

(** The debug line of [do] and of the redirect check can be written: debug
    logging is off, or there is a logger and the request has a URL. *)
Definition can_debug (c : Client) (req : http.Request) : Prop :=
  DebugLog c = true → is_Some (log c) ∧ is_Some (http.URL req).

Definition debug_events (c : Client) (format : string) (req : http.Request) : list event :=
  if DebugLog c then
    match log c, http.URL req with
    | Some lg, Some u => [EvLog lg DebugLevel format [http.Method req; URL_String u]]
    | _, _ => []
    end
  else [].

(** The request as [do] hands it to the transport, from the request the
    before-request middleware left. *)
Definition dispatched (r : Request) : Request := set_StartTime time_Now (setupRequest r).

(** The policies a redirect check calls, as events: the non-nil ones, with
    their positions counted from [i]. *)
Fixpoint policy_events (i : nat) (policies : list RedirectPolicy) : list event :=
  match policies with
  | [] => []
  | None :: rest => policy_events (S i) rest
  | Some _ :: rest => EvRedirectPolicy i :: policy_events (S i) rest
  end.

(** [do], given what its three middleware slices hold, written out with
    [run_RequestMiddleware] and [run_ResponseMiddleware]. *)
Definition do_outcome (c : Client) (r : Request) (st : state)
    (uds bfs : list RequestMiddleware) (afs : list ResponseMiddleware)
    : result (Request * Response * error * state) :=
  let '(r1, e1, called1) := run_RequestMiddleware uds r in
  let ev1 := EvUdBeforeRequest <$> called1 in
  match e1 with
  | Some _ => Ok (r1, zero_Response, e1, State (heap st) (events st ++ ev1))
  | None =>
  let '(r2, e2, called2) := run_RequestMiddleware bfs r1 in
  let ev2 := ev1 ++ (EvBeforeRequest <$> called2) in
  match e2 with
  | Some _ => Ok (r2, zero_Response, e2, State (heap st) (events st ++ ev2))
  | None =>
  let r3 := dispatched r2 in
  if bool_decide (DebugLog c = true ∧ (log c = None ∨ http.URL (RawRequest r3) = None))
  then Panic
  else
  let ev3 := ev2 ++ debug_events c "%s %s" (RawRequest r3) ++ [EvRoundTrip] in
  match httpClient_Do (httpClient c) (RawRequest r3) with
  | inr e => Ok (r3, zero_Response, Some e, State (heap st) (events st ++ ev3))
  | inl httpResponse =>
  let resp := {| ResponseRequest := Some r3; RawResponse := Some httpResponse |} in
  let auto := negb (disableAutoReadResponse c) && negb (isSaveResponse r3) in
  let '(resp1, e4) := if auto then Response_ToBytes resp else (resp, None) in
  let ev4 := ev3 ++ (if auto then [EvToBytes] else []) in
  match e4 with
  | Some _ => Ok (r3, resp1, e4, State (heap st) (events st ++ ev4))
  | None =>
  let '(resp2, e5, called5) := run_ResponseMiddleware (client r3) afs resp1 in
  Ok (r3, resp2, e5, State (heap st) (events st ++ ev4 ++ (EvAfterResponse <$> called5)))
  end end end end.

End PipelineSpec.

(** ** More of the TLS and redirect configuration *)

Section ClientGoMore.
Context `{GoLib}.

(** [SetCerts] (lines 235-239) *)
Definition SetCerts (c : Client) (certs : list tls.Certificate) : Client :=
  let '(c, config) := tlsConfig c in
  let config := {| tls.Certificates := tls.Certificates config ++ certs |} in
  set_t (set_TLSClientConfig (Some config) (t c)) c.

(** [SetTLSClientConfig] (lines 369-372) *)
Definition SetTLSClientConfig (c : Client) (conf : option tls.Config) : Client :=
  set_t (set_TLSClientConfig conf (t c)) c.

End ClientGoMore.

(** The events a call of [do] adds once the request middleware are through,
    up to the exchange and the reading of the body. *)
Definition exchange_events `{GoLib} (c : Client) (r : Request) : list event :=
  debug_events c "%s %s" (RawRequest r) ++ [EvRoundTrip] ++
  (if negb (disableAutoReadResponse c) && negb (isSaveResponse r) then [EvToBytes] else []).

(** ** Maps of slices as a program reads them *)

(** [Add] on the contents of a [url.Values] or [http.Header]. *)
Definition view_add {A} (view : gmap string (list A)) (k : string) (v : A)
    : gmap string (list A) :=
  <[k := default [] (view !! k) ++ [v]]> view.

(** The loops [for k, vs := range entries { for _, v := range vs { m.Add(k, v) } }],
    with the key [f k] under which [Add] files the value. *)
Definition view_add_all {A} (f : string → string) (view : gmap string (list A))
    (entries : list (string * list A)) : gmap string (list A) :=
  foldl (λ m '(k, vs), foldl (λ m v, view_add m (f k) v) m vs) view entries.

(** The entries of a map of slices have backing arrays of their own. *)
Definition apart (m : gmap string slice) : Prop :=
  ∀ k1 k2 s1 s2 l, m !! k1 = Some s1 → m !! k2 = Some s2 →
    data s1 = Some l → data s2 = Some l → k1 = k2.

(** The map at [r] and the arrays of its entries are not among the locations
    [F], and the entries are apart. *)
Definition owned (F : loc → Prop) (h : list object) (r : loc) : Prop :=
  ¬ F r ∧ ∃ m, h !! r = Some (MapValues m) ∧ apart m ∧
    ∀ k s l, m !! k = Some s → data s = Some l → ¬ F l.

(** The computation logs nothing and calls nothing outside the file. *)
Definition quiet {A} (comp : M A) : Prop :=
  ∀ st a st', comp st = Ok (a, st') → events st' = events st.

(** What a run that builds the map at [r] keeps: it is quiet, the store stays
    well-formed, the map still owns its arrays, and the locations [F] are as
    they were. *)
Definition kept (F : loc → Prop) (r : loc) (st st' : state) : Prop :=
  events st' = events st ∧ heap_ok (heap st') ∧ ext (heap st) (heap st') ∧
  owned F (heap st') r ∧ ∀ l, F l → heap st' !! l = heap st !! l.

(** The contents of a map of slices with the entries that have values. *)
Definition with_values {A} (view : gmap string (list A)) : gmap string (list A) :=
  filter (λ kv, kv.2 ≠ []) view.

(** [m[k] = v] for every pair, first to last. *)
Definition store_all {A} (view : gmap string A) (entries : list (string * A))
    : gmap string A :=
  foldl (λ m '(k, v), <[k := v]> m) view entries.

(** The root was made during the run from [st] to [st']: it belongs to the
    store and leads to nothing that was there before. *)
Definition made_fresh (st st' : state) (rt : root) : Prop :=
  root_ok (heap st') rt ∧ ∀ l, reach_root (heap st') rt l → length (heap st) ≤ l.

(** What a clone helper leaves behind: no event, a well-formed store, and
    every object that was there as it was. *)
Definition untouched (st st' : state) : Prop :=
  events st' = events st ∧ heap_ok (heap st') ∧
  ∀ l, l < length (heap st) → heap st' !! l = heap st !! l.

(** The header map holds canonical keys only, as [Header.Set] and
    [Header.Add] leave it. *)
Definition canonical_keys `{GoLib} (h : list object) (r : option loc) : Prop :=
  ∀ view k, values_view h r = Some view → is_Some (view !! k) →
            CanonicalMIMEHeaderKey k = k.

(** The collections with the entries of the three maps of slices that have
    values. *)
Definition with_values_collections (v : Collections) : Collections :=
  {| view_Headers := with_values <$> view_Headers v;
     view_Cookies := view_Cookies v;
     view_PathParams := view_PathParams v;
     view_QueryParams := with_values <$> view_QueryParams v;
     view_FormData := with_values <$> view_FormData v;
     view_beforeRequest := view_beforeRequest v;
     view_udBeforeRequest := view_udBeforeRequest v;
     view_afterResponse := view_afterResponse v |}.

(** The fields of a client that are not collections: the ones held by value
    or as function values, and with them the transport and the dump options,
    which [Clone] hands to functions of other files. *)
Definition plain_settings (c : Client) :=
  (BaseURL c, DebugLog c, AllowGetMethodPayload c, jsonMarshal c, jsonUnmarshal c,
   xmlMarshal c, xmlUnmarshal c, trace c, outputDirectory c, disableAutoReadResponse c,
   scheme c, log c, httpClient c).

Definition settings (c : Client) := (plain_settings c, t c, dumpOptions c).

(** The mutations that are calls of a method of the client. *)
Definition is_setter (m : mutation) : bool :=
  match m with
  | CallSetCommonHeader _ _ | CallSetCommonCookies _ | CallSetCommonQueryParam _ _
  | CallSetCommonQueryString _ | CallSetCommonFormData _
  | CallSetCommonFormDataFromValues _ | CallOnBeforeRequest _ | CallOnAfterResponse _ => true
  | _ => false
  end.

(** The map behind a field, when there is one, owns its arrays. *)
Definition apart_at (h : list object) (v : option loc) : Prop :=
  ∀ r, v = Some r → owned (λ _, False) h r.

(** ** Programs that make and change clients *)

(** The calls that change a setting of a client and none of its
    collections. *)
Inductive setting : Type :=
| CallSetBaseURL (u : string)
| CallSetOutputDirectory (dir : string)
| CallSetCertFromFile (certFile keyFile : string)
| CallSetCerts (certs : list tls.Certificate)
| CallSetRedirectPolicy (policies : list RedirectPolicy)
| CallSetTLSClientConfig (conf : option tls.Config)
| CallEnableDebugLog (enable : bool)
| CallSetLogger (lg : option Logger)
| CallDisableAutoReadResponse (disable : bool)
| CallSetProxyURL (proxyUrl : string)
| CallEnableTraceAll (enable : bool)
| CallEnableAllowGetMethodPayload (a : bool).

(** What a program does with clients before it sends a request: it makes one
    with [C], clones one it has, changes a collection of one it has, or
    changes a setting of one it has. The clients are numbered in the order
    they are made; an action on a number that is not in use does nothing. *)
Inductive action : Type :=
| MakeClient
| CloneClient (i : nat)
| MutateClient (i : nat) (m : mutation)
| SetClient (i : nat) (s : setting).

Section Programs.
Context `{GoLib}.

Definition apply_setting (s : setting) (c : Client) : M Client :=
  match s with
  | CallSetBaseURL u => ret (SetBaseURL c u)
  | CallSetOutputDirectory dir => ret (SetOutputDirectory c dir)
  | CallSetCertFromFile certFile keyFile => SetCertFromFile c certFile keyFile
  | CallSetCerts certs => ret (SetCerts c certs)
  | CallSetRedirectPolicy policies => ret (SetRedirectPolicy c policies)
  | CallSetTLSClientConfig conf => ret (SetTLSClientConfig c conf)
  | CallEnableDebugLog enable => ret (EnableDebugLog c enable)
  | CallSetLogger lg => ret (SetLogger c lg)
  | CallDisableAutoReadResponse disable => ret (DisableAutoReadResponse c disable)
  | CallSetProxyURL proxyUrl => SetProxyURL c proxyUrl
  | CallEnableTraceAll enable => ret (EnableTraceAll c enable)
  | CallEnableAllowGetMethodPayload a => ret (EnableAllowGetMethodPayload c a)
  end.

Definition perform (a : action) (cs : list Client) : M (list Client) :=
  match a with
  | MakeClient => let* c := C in ret (cs ++ [c])
  | CloneClient i =>
      match cs !! i with
      | Some c => let* cc := Clone c in ret (cs ++ [cc])
      | None => ret cs
      end
  | MutateClient i m =>
      match cs !! i with
      | Some c => let* c := mutate m c in ret (<[i := c]> cs)
      | None => ret cs
      end
  | SetClient i s =>
      match cs !! i with
      | Some c => let* c := apply_setting s c in ret (<[i := c]> cs)
      | None => ret cs
      end
  end.

Fixpoint perform_all (program : list action) (cs : list Client) : M (list Client) :=
  match program with
  | [] => ret cs
  | a :: rest =>
      let* cs := perform a cs in
      perform_all rest cs
  end.

End Programs.

(** The middleware registered on each client, in registration order: a new
    client has none, a clone starts with those of its original at the time of
    the call, [OnBeforeRequest] and [OnAfterResponse] add one at the end, and
    no other call changes them. *)
Definition registered_after (a : action)
    (regs : list (list RequestMiddleware * list ResponseMiddleware))
    : list (list RequestMiddleware * list ResponseMiddleware) :=
  match a with
  | MakeClient => regs ++ [([], [])]
  | CloneClient i =>
      match regs !! i with
      | Some p => regs ++ [p]
      | None => regs
      end
  | MutateClient i m =>
      match regs !! i with
      | Some p => <[i := (p.1 ++ registered_request [m], p.2 ++ registered_response [m])]> regs
      | None => regs
      end
  | SetClient _ _ => regs
  end.

Fixpoint registered_from (program : list action)
    (regs : list (list RequestMiddleware * list ResponseMiddleware))
    : list (list RequestMiddleware * list ResponseMiddleware) :=
  match program with
  | [] => regs
  | a :: rest => registered_from rest (registered_after a regs)
  end.

Definition registered (program : list action)
    : list (list RequestMiddleware * list ResponseMiddleware) :=
  registered_from program [].

(** The three middleware slices of [c] hold the registered request middleware
    [p.1], the built-in request middleware, and the built-in response
    middleware followed by the registered ones [p.2]. *)
Definition holds_stages (h : list object) (c : Client)
    (p : list RequestMiddleware * list ResponseMiddleware) : Prop :=
  slice_view h (udBeforeRequest c) = VRequestMiddleware <$> p.1 ∧
  slice_view h (beforeRequest c) = VRequestMiddleware <$> builtin_request ∧
  slice_view h (afterResponse c) = VResponseMiddleware <$> (builtin_response ++ p.2).

(** The clients of a program: each belongs to the store with its fields
    isolated, no two share an object, and each holds the stages registered on
    it. *)
Definition pool_ok (h : list object) (cs : list Client)
    (regs : list (list RequestMiddleware * list ResponseMiddleware)) : Prop :=
  heap_ok h ∧ length regs = length cs ∧
  (∀ i c, cs !! i = Some c → client_ok h c ∧ isolated h c) ∧
  (∀ i j c d l, i ≠ j → cs !! i = Some c → cs !! j = Some d →
                reach h c l → reach h d l → False) ∧
  (∀ i c p, cs !! i = Some c → regs !! i = Some p → holds_stages h c p).

(** The events of a call of [do] in which nothing fails. *)
Definition schedule `{GoLib} `{Collaborators} (c : Client) (r : Request)
    (uds bfs : list RequestMiddleware) (afs : list ResponseMiddleware) : list event :=
  (EvUdBeforeRequest <$> uds) ++ (EvBeforeRequest <$> bfs) ++
  exchange_events c (dispatched (run_RequestMiddleware (uds ++ bfs) r).1.1) ++
  (EvAfterResponse <$> afs).

(** ** A library and collaborators for worked examples *)

(** The capacity rule of the Go runtime ([nextslicecap]) before the round-up
    to an allocation size class, which leaves the small powers of two met in
    the examples as they are. *)
Fixpoint nextslicecap_loop (fuel newcap newLen : nat) : nat :=
  match fuel with
  | 0 => newLen
  | S fuel =>
      let newcap := newcap + (newcap + 3 * 256) / 4 in
      if decide (newLen ≤ newcap) then newcap else nextslicecap_loop fuel newcap newLen
  end.

Definition nextslicecap (newLen oldCap : nat) : nat :=
  let doublecap := oldCap + oldCap in
  if decide (doublecap < newLen) then newLen
  else if decide (oldCap < 256) then doublecap
  else nextslicecap_loop newLen oldCap newLen.

Definition example_url : urlpkg.URL :=
  {| urlpkg.Scheme := "http"; urlpkg.Host := "example.com:"; urlpkg.Path := "/a";
     urlpkg.RawQuery := "" |}.

Definition example_proxy : urlpkg.URL :=
  {| urlpkg.Scheme := "http"; urlpkg.Host := "127.0.0.1:8080"; urlpkg.Path := "";
     urlpkg.RawQuery := "" |}.

(** The results of the standard library on the strings of the examples; any
    other string is reported as an error. *)
Definition example_url_Parse (s : string) : urlpkg.URL + err :=
  if decide (s = "http://example.com:/a") then inl example_url
  else if decide (s = "http://127.0.0.1:8080") then inl example_proxy
  else inr (ForeignError 1).

Definition example_url_ParseQuery (s : string) : gmap string (list string) * error :=
  if decide (s = "a=1&a=2&b=3") then (<["a" := ["1"; "2"]]> (<["b" := ["3"]]> ∅), None)
  else if decide (s = "a=1&b=%zz") then (<["a" := ["1"]]> ∅, Some (ForeignError 2))
  else (∅, Some (ForeignError 2)).

Definition example_LoadX509KeyPair (certFile keyFile : string) : tls.Certificate + err :=
  if decide (certFile = "client.pem" ∧ keyFile = "client.key") then inl 1
  else inr (ForeignError 3).

(** The standard library of the examples. *)
Definition example_lib : GoLib.
Proof.
  refine {| growslice_cap := nextslicecap;
            CanonicalMIMEHeaderKey := λ s, s;
            strings_TrimSpace := λ s, s;
            strings_TrimRight := λ s _, s;
            url_Parse := example_url_Parse;
            URL_String := λ u, urlpkg.Scheme u +:+ "://" +:+ urlpkg.Host u +:+ urlpkg.Path u;
            url_ParseQuery := example_url_ParseQuery;
            tls_LoadX509KeyPair := example_LoadX509KeyPair;
            time_Now := 0 |}.
  intros newLen oldCap. unfold nextslicecap. repeat case_decide; try lia.
  assert (Hloop : ∀ fuel newcap, newLen ≤ nextslicecap_loop fuel newcap newLen).
  { induction fuel as [|fuel IH]; intros newcap; simpl; [lia|].
    case_decide; [lia|apply IH]. }
  apply Hloop.
Defined.

(** The collaborators of the examples: the user middleware numbered 13
    rejects the request, every other middleware lets it through unchanged;
    the transport answers 200, and reading the body succeeds. *)
Definition example_RequestMiddleware (m : RequestMiddleware) (c : Client) (r : Request)
    : Request * error :=
  match m with
  | UserRequestMiddleware id =>
      if decide (id = 13) then (r, Some (errors_New "rejected")) else (r, None)
  | _ => (r, None)
  end.

Definition example_collaborators : Collaborators.
Proof.
  refine {| call_RequestMiddleware := example_RequestMiddleware;
            call_ResponseMiddleware := λ _ _ resp, (resp, None);
            httpClient_Do := λ _ _, inl {| http.StatusCode := 200; http.Body := "ok" |};
            Response_ToBytes := λ resp, (resp, None) |}.
  intros m c r. unfold example_RequestMiddleware.
  destruct m; try reflexivity. case_decide; reflexivity.
Defined.

Definition example_policy_allow : RedirectPolicy := Some (λ _ _, None).
Definition example_policy_deny : RedirectPolicy :=
  Some (λ _ _, Some (errors_New "redirect is not allowed")).

Definition example_ops : list mutation :=
  [CallOnAfterResponse (UserResponseMiddleware 7);
   CallOnBeforeRequest (UserRequestMiddleware 1);
   CallSetCommonHeader "X-A" "1";
   CallSetCommonCookies [5; 6];
   CallOnBeforeRequest (UserRequestMiddleware 2)].

Definition example_rejecting_ops : list mutation :=
  [CallOnBeforeRequest (UserRequestMiddleware 1);
   CallOnBeforeRequest (UserRequestMiddleware 13);
   CallOnBeforeRequest (UserRequestMiddleware 2)].

Definition example_policies : list RedirectPolicy :=
  [None; example_policy_allow; example_policy_deny; example_policy_allow].

(** Collaborators whose transport fails. *)
Definition example_offline : Collaborators.
Proof.
  refine {| call_RequestMiddleware := example_RequestMiddleware;
            call_ResponseMiddleware := λ _ _ resp, (resp, None);
            httpClient_Do := λ _ _, inr (errors_New "connection refused");
            Response_ToBytes := λ resp, (resp, None) |}.
  intros m c r. unfold example_RequestMiddleware.
  destruct m; try reflexivity. case_decide; reflexivity.
Defined.

(** Collaborators whose response middleware numbered 13 rejects the
    response. *)
Definition example_ResponseMiddleware (m : ResponseMiddleware) (c : Client)
    (resp : Response) : Response * error :=
  match m with
  | UserResponseMiddleware id =>
      if decide (id = 13) then (resp, Some (errors_New "rejected")) else (resp, None)
  | _ => (resp, None)
  end.

Definition example_strict : Collaborators.
Proof.
  refine {| call_RequestMiddleware := example_RequestMiddleware;
            call_ResponseMiddleware := example_ResponseMiddleware;
            httpClient_Do := λ _ _, inl {| http.StatusCode := 200; http.Body := "ok" |};
            Response_ToBytes := λ resp, (resp, None) |}.
  intros m c r. unfold example_RequestMiddleware.
  destruct m; try reflexivity. case_decide; reflexivity.
Defined.

Definition example_strict_ops : list mutation :=
  [CallOnAfterResponse (UserResponseMiddleware 7);
   CallOnAfterResponse (UserResponseMiddleware 13);
   CallOnAfterResponse (UserResponseMiddleware 8)].


(** Two clients: the second is cloned from the first after one registration,
    and both go on registering middleware and changing settings. *)
Definition example_program : list action :=
  [MakeClient;
   MutateClient 0 (CallOnBeforeRequest (UserRequestMiddleware 1));
   MutateClient 0 (CallSetCommonHeader "Accept" "text/html");
   CloneClient 0;
   MutateClient 1 (CallOnAfterResponse (UserResponseMiddleware 1));
   MutateClient 0 (CallOnBeforeRequest (UserRequestMiddleware 2));
   SetClient 0 (CallEnableDebugLog true);
   SetClient 1 (CallSetBaseURL "http://example.com/");
   MutateClient 1 (CallOnBeforeRequest (UserRequestMiddleware 3))].

(** * Proofs *)

Section HeapFacts.

Lemma heap_ok_lookup h l m k s :
  heap_ok h → h !! l = Some (MapValues m) → m !! k = Some s → slice_ok h s.
Proof.
  intros Hh Hl Hk. unfold heap_ok in Hh. rewrite Forall_lookup in Hh.
  specialize (Hh _ _ Hl). simpl in Hh. exact (Hh _ _ Hk).
Qed.

Lemma heap_ok_intro h :
  (∀ l m k s, h !! l = Some (MapValues m) → m !! k = Some s → slice_ok h s) → heap_ok h.
Proof.
  intros Hh. unfold heap_ok. rewrite Forall_lookup. intros l o Hl.
  destruct o as [cells|m|m]; simpl; [done| |done].
  intros k s Hk. eauto.
Qed.

Lemma same_kind_refl o : same_kind o o.
Proof. destruct o; simpl; done. Qed.

Lemma same_kind_trans o1 o2 o3 : same_kind o1 o2 → same_kind o2 o3 → same_kind o1 o3.
Proof. destruct o1, o2, o3; simpl; try done. congruence. Qed.

Lemma ext_refl h : ext h h.
Proof. intros l o Hl. exists o. split; [done | apply same_kind_refl]. Qed.

Lemma ext_trans h1 h2 h3 : ext h1 h2 → ext h2 h3 → ext h1 h3.
Proof.
  intros H12 H23 l o Hl. destruct (H12 _ _ Hl) as (o2 & Hl2 & Hk).
  destruct (H23 _ _ Hl2) as (o3 & Hl3 & Hk'). exists o3. split; [done|].
  eapply same_kind_trans; eauto.
Qed.

Lemma ext_length h h' : ext h h' → length h ≤ length h'.
Proof.
  intros He. destruct (decide (length h ≤ length h')) as [|Hn]; [done|].
  assert (Hlt : length h' < length h) by lia.
  destruct (lookup_lt_is_Some_2 h (length h') Hlt) as [o Ho].
  destruct (He _ _ Ho) as (o' & Ho' & _).
  apply lookup_lt_Some in Ho'. lia.
Qed.

Lemma frame_refl R h : frame R h h.
Proof. intros l _. done. Qed.

Lemma frame_trans R h1 h2 h3 : frame R h1 h2 → frame R h2 h3 → frame R h1 h3.
Proof. intros H12 H23 l Hl. rewrite H23, H12; done. Qed.

Lemma slice_ok_ext h h' s : ext h h' → slice_ok h s → slice_ok h' s.
Proof.
  intros He. unfold slice_ok. destruct (data s) as [l|]; [|done].
  destruct (h !! l) as [o|] eqn:Hl; [|done].
  destruct (He _ _ Hl) as (o' & -> & Hk).
  destruct o as [cells|m|m], o' as [cells'|m'|m']; simpl in *; try done. lia.
Qed.

Lemma values_ok_ext h h' r : ext h h' → values_ok h r → values_ok h' r.
Proof.
  intros He. unfold values_ok. destruct r as [l|]; [|done].
  destruct (h !! l) as [o|] eqn:Hl; [|done].
  destruct (He _ _ Hl) as (o' & -> & Hk).
  destruct o as [cells|m|m], o' as [cells'|m'|m']; simpl in *; done.
Qed.

Lemma strings_ok_ext h h' r : ext h h' → strings_ok h r → strings_ok h' r.
Proof.
  intros He. unfold strings_ok. destruct r as [l|]; [|done].
  destruct (h !! l) as [o|] eqn:Hl; [|done].
  destruct (He _ _ Hl) as (o' & -> & Hk).
  destruct o as [cells|m|m], o' as [cells'|m'|m']; simpl in *; done.
Qed.

Lemma root_ok_ext h h' rt : ext h h' → root_ok h rt → root_ok h' rt.
Proof.
  intros He. destruct rt; simpl;
    eauto using slice_ok_ext, values_ok_ext, strings_ok_ext.
Qed.

Lemma object_ok_ext h h' o : ext h h' → object_ok h o → object_ok h' o.
Proof.
  intros He. destruct o as [cells|m|m]; simpl; try done.
  intros Hm k s Hk. eapply slice_ok_ext; [exact He|]. exact (Hm _ _ Hk).
Qed.

(** ** The rules of [wp] *)

Lemma wp_ret {A} pan R (a : A) (Q : A → state → Prop) st :
  Inv R (heap st) → Q a st → wp pan R (ret a) Q st.
Proof.
  intros HI HQ. unfold wp, ret. split_and!; auto using frame_refl, ext_refl.
Qed.

Lemma wp_bind {A B} pan R (c : M A) (k : A → M B) (Q : B → state → Prop) st :
  wp pan R c (λ a st', wp pan R (k a) Q st') st → wp pan R (bind c k) Q st.
Proof.
  unfold wp, bind. intros Hc.
  destruct (c st) as [[a st1]|]; [|done].
  destruct Hc as (HI & Hf & He & Hk).
  destruct (k a st1) as [[b st2]|]; [|done].
  destruct Hk as (HI2 & Hf2 & He2 & HQ2).
  split_and!; eauto using frame_trans, ext_trans.
Qed.

Lemma wp_mono {A} pan R (c : M A) (Q Q' : A → state → Prop) st :
  wp pan R c Q st →
  (∀ a st', Inv R (heap st') → ext (heap st) (heap st') → Q a st' → Q' a st') →
  wp pan R c Q' st.
Proof.
  unfold wp. intros Hc HQ. destruct (c st) as [[a st1]|]; [|done].
  destruct Hc as (HI & Hf & He & HQ1). split_and!; auto.
Qed.

Lemma wp_panic {A} R (Q : A → state → Prop) st : wp True R panic Q st.
Proof. exact I. Qed.

Lemma wp_emit pan R e (Q : unit → state → Prop) st :
  Inv R (heap st) →
  (∀ st', heap st' = heap st → Q tt st') →
  wp pan R (emit e) Q st.
Proof.
  intros HI HQ. unfold wp, emit. simpl. split_and!; auto using frame_refl, ext_refl.
Qed.

Lemma wp_logf R lg lv format args (Q : unit → state → Prop) st :
  Inv R (heap st) →
  (∀ st', heap st' = heap st → Q tt st') →
  wp True R (logf lg lv format args) Q st.
Proof.
  intros HI HQ. unfold logf. destruct lg; [by apply wp_emit | apply wp_panic].
Qed.

Lemma wp_read_slice pan R s (Q : list val → state → Prop) st :
  Inv R (heap st) → Q (slice_view (heap st) s) st → wp pan R (read_slice s) Q st.
Proof.
  intros HI HQ. unfold wp, read_slice. split_and!; auto using frame_refl, ext_refl.
Qed.

Lemma wp_load_array pan R l cells (Q : list val → state → Prop) st :
  Inv R (heap st) → heap st !! l = Some (Array cells) → Q cells st →
  wp pan R (load_array l) Q st.
Proof.
  intros HI Hl HQ. unfold wp, load_array. rewrite Hl.
  split_and!; auto using frame_refl, ext_refl.
Qed.

Lemma wp_load_values pan R l m (Q : gmap string slice → state → Prop) st :
  Inv R (heap st) → heap st !! l = Some (MapValues m) → Q m st →
  wp pan R (load_values l) Q st.
Proof.
  intros HI Hl HQ. unfold wp, load_values. rewrite Hl.
  split_and!; auto using frame_refl, ext_refl.
Qed.

Lemma wp_load_strings pan R l m (Q : gmap string string → state → Prop) st :
  Inv R (heap st) → heap st !! l = Some (MapString m) → Q m st →
  wp pan R (load_strings l) Q st.
Proof.
  intros HI Hl HQ. unfold wp, load_strings. rewrite Hl.
  split_and!; auto using frame_refl, ext_refl.
Qed.

Lemma ext_alloc h o : ext h (h ++ [o]).
Proof.
  intros l o' Hl. exists o'. split; [|apply same_kind_refl].
  rewrite lookup_app_l; [done | by eapply lookup_lt_Some].
Qed.

Lemma wp_alloc pan R o (Q : loc → state → Prop) st :
  Inv R (heap st) → object_ok (heap st) o → object_in R o →
  (∀ st', Inv R (heap st') → ext (heap st) (heap st') →
          heap st' = heap st ++ [o] → R (length (heap st)) → Q (length (heap st)) st') →
  wp pan R (alloc o) Q st.
Proof.
  intros (Hok & Hfr & Hcl) Ho Hin HQ. unfold wp, alloc. simpl.
  assert (He : ext (heap st) (heap st ++ [o])) by apply ext_alloc.
  assert (Hnew : (heap st ++ [o]) !! length (heap st) = Some o).
  { rewrite lookup_app_r by lia. by rewrite Nat.sub_diag. }
  assert (HI : Inv R (heap st ++ [o])).
  { split_and!.
    - apply heap_ok_intro. intros l m k s Hl Hk.
      eapply slice_ok_ext; [exact He|].
      destruct (decide (l < length (heap st))) as [Hlt|Hge].
      + rewrite lookup_app_l in Hl by done. eapply heap_ok_lookup; eauto.
      + assert (l = length (heap st)) as ->.
        { apply lookup_lt_Some in Hl. rewrite length_app in Hl. simpl in Hl. lia. }
        rewrite Hnew in Hl. injection Hl as ->. exact (Ho _ _ Hk).
    - intros l Hl. apply Hfr. rewrite length_app in Hl. lia.
    - intros l o' HR Hl.
      destruct (decide (l < length (heap st))) as [Hlt|Hge].
      + rewrite lookup_app_l in Hl by done. eapply Hcl; eauto.
      + assert (l = length (heap st)) as ->.
        { apply lookup_lt_Some in Hl. rewrite length_app in Hl. simpl in Hl. lia. }
        rewrite Hnew in Hl. by injection Hl as ->. }
  split_and!; [exact HI| |exact He|].
  - intros l Hl. destruct (decide (l < length (heap st))) as [Hlt|Hge].
    + by rewrite lookup_app_l.
    + exfalso. apply Hl, Hfr. lia.
  - apply HQ; auto.
Qed.

Lemma ext_store h l o0 o :
  h !! l = Some o0 → same_kind o0 o → ext h (<[l := o]> h).
Proof.
  intros Hl Hk l' o' Hl'. destruct (decide (l = l')) as [<-|Hne].
  - exists o. rewrite list_lookup_insert_eq by (by eapply lookup_lt_Some).
    split; [done|]. congruence.
  - exists o'. rewrite list_lookup_insert_ne by done. split; [done|apply same_kind_refl].
Qed.

Lemma wp_store pan R l o0 o (Q : unit → state → Prop) st :
  Inv R (heap st) → R l → heap st !! l = Some o0 → same_kind o0 o →
  object_ok (heap st) o → object_in R o →
  (∀ st', Inv R (heap st') → ext (heap st) (heap st') →
          heap st' = <[l := o]> (heap st) → Q tt st') →
  wp pan R (store l o) Q st.
Proof.
  intros (Hok & Hfr & Hcl) HR Hl Hk Ho Hin HQ. unfold wp, store. simpl.
  assert (He : ext (heap st) (<[l := o]> (heap st))) by (eapply ext_store; eauto).
  assert (Hnew : <[l := o]> (heap st) !! l = Some o).
  { apply list_lookup_insert_eq. by eapply lookup_lt_Some. }
  assert (HI : Inv R (<[l := o]> (heap st))).
  { split_and!.
    - apply heap_ok_intro. intros l' m k s Hl' Hks.
      eapply slice_ok_ext; [exact He|].
      destruct (decide (l = l')) as [<-|Hne].
      + rewrite Hnew in Hl'. injection Hl' as ->. exact (Ho _ _ Hks).
      + rewrite list_lookup_insert_ne in Hl' by done. eapply heap_ok_lookup; eauto.
    - intros l' Hl'. apply Hfr. by rewrite length_insert in Hl'.
    - intros l' o' HR' Hl'. destruct (decide (l = l')) as [<-|Hne].
      + rewrite Hnew in Hl'. by injection Hl' as ->.
      + rewrite list_lookup_insert_ne in Hl' by done. eapply Hcl; eauto. }
  split_and!; [exact HI| |exact He|by apply HQ].
  intros l' Hl'. apply list_lookup_insert_ne. intros ->. done.
Qed.

End HeapFacts.

Section Ops.
Context `{GoLib}.

Lemma length_write_cells cells off vs :
  off + length vs ≤ length cells → length (write_cells cells off vs) = length cells.
Proof.
  intros Hle. unfold write_cells.
  rewrite !length_app, length_take, length_drop. lia.
Qed.

Lemma take_write_cells cells off vs :
  off + length vs ≤ length cells →
  take (off + length vs) (write_cells cells off vs) = take off cells ++ vs.
Proof.
  intros Hle. unfold write_cells. rewrite app_assoc.
  apply take_app_length'. rewrite length_app, length_take. lia.
Qed.

Lemma slice_view_length h s : slice_ok h s → length (slice_view h s) = len s.
Proof.
  unfold slice_ok, slice_view. destruct (data s) as [l|]; [|simpl; lia].
  destruct (h !! l) as [[cells|m|m]|]; try done.
  intros [? ?]. rewrite length_take. lia.
Qed.

Lemma slice_ok_Some h l n c cells :
  h !! l = Some (Array cells) → n ≤ c → c ≤ length cells → slice_ok h (Slice (Some l) n c).
Proof. intros Hl ? ?. unfold slice_ok. simpl. by rewrite Hl. Qed.

Lemma wp_append pan R s vs (Q : slice → state → Prop) st :
  Inv R (heap st) → slice_ok (heap st) s → root_in R (RSlice s) →
  (∀ s' st', Inv R (heap st') → ext (heap st) (heap st') →
             slice_ok (heap st') s' → root_in R (RSlice s') →
             slice_view (heap st') s' = slice_view (heap st) s ++ vs → Q s' st') →
  wp pan R (append s vs) Q st.
Proof.
  intros HI Hs HR HQ. unfold append. case_decide as Hfit.
  - destruct s as [[l|] n c]; simpl in *.
    + assert (∃ cells, heap st !! l = Some (Array cells) ∧ n ≤ c ∧ c ≤ length cells)
        as (cells & Hl & Hnc & Hc).
      { unfold slice_ok in Hs. simpl in Hs.
        destruct (heap st !! l) as [[cells|m|m]|]; try done. eauto. }
      apply wp_bind. eapply wp_load_array; [done|exact Hl|].
      apply wp_bind. eapply wp_store; [done|by apply HR|exact Hl| |done|done|].
      { simpl. symmetry. apply length_write_cells. lia. }
      intros st' HI' He Hh. apply wp_ret; [done|].
      assert (Hl' : heap st' !! l = Some (Array (write_cells cells n vs))).
      { rewrite Hh. apply list_lookup_insert_eq. by eapply lookup_lt_Some. }
      apply HQ; auto.
      * eapply slice_ok_Some; [exact Hl'|lia|]. rewrite length_write_cells; lia.
      * unfold slice_view. simpl. rewrite Hl', Hl. apply take_write_cells. lia.
    + unfold slice_ok in Hs. simpl in Hs. destruct Hs as [-> ->].
      assert (length vs = 0) as Hvs by lia.
      apply nil_length_inv in Hvs as ->. simpl.
      apply wp_ret; [done|]. apply HQ; auto using ext_refl. by split.
  - apply wp_bind. apply wp_read_slice; [done|].
    pose proof (growslice_cap_fits (len s + length vs) (cap s)) as Hgrow.
    pose proof (slice_view_length _ _ Hs) as Hlen.
    apply wp_bind. apply wp_alloc; [done|done|done|].
    intros st' HI' He Hh HRl. apply wp_ret; [done|].
    assert (Hl' : heap st' !! length (heap st) =
                  Some (Array (slice_view (heap st) s ++ vs ++
                         replicate (growslice_cap (len s + length vs) (cap s)
                                    - (len s + length vs)) VZero))).
    { rewrite Hh, lookup_app_r by lia. by rewrite Nat.sub_diag. }
    apply HQ; auto.
    + eapply slice_ok_Some; [exact Hl'|lia|].
      rewrite !length_app, length_replicate. lia.
    + simpl. intros l [= <-]. done.
    + unfold slice_view at 1. simpl. rewrite Hl', app_assoc.
      apply take_app_length'. rewrite length_app. lia.
Qed.

Lemma wp_slice_store R s i v (Q : unit → state → Prop) st :
  Inv R (heap st) → slice_ok (heap st) s → root_in R (RSlice s) →
  (∀ st', Inv R (heap st') → ext (heap st) (heap st') → Q tt st') →
  wp True R (slice_store s i v) Q st.
Proof.
  intros HI Hs HR HQ. unfold slice_store. case_decide; [|apply wp_panic].
  destruct s as [[l|] n c]; simpl in *; [|apply wp_panic].
  assert (∃ cells, heap st !! l = Some (Array cells)) as (cells & Hl).
  { unfold slice_ok in Hs. simpl in Hs.
    destruct (heap st !! l) as [[cells|m|m]|]; try done. eauto. }
  apply wp_bind. eapply wp_load_array; [done|exact Hl|].
  eapply wp_store; [done|by apply HR|exact Hl| |done|done|].
  - simpl. by rewrite length_insert.
  - intros st' HI' He _. by apply HQ.
Qed.

Lemma wp_slice_of pan R vs (Q : slice → state → Prop) st :
  Inv R (heap st) →
  (∀ s' st', Inv R (heap st') → ext (heap st) (heap st') →
             slice_ok (heap st') s' → root_in R (RSlice s') →
             slice_view (heap st') s' = vs → Q s' st') →
  wp pan R (slice_of vs) Q st.
Proof.
  intros HI HQ. unfold slice_of. apply wp_bind. apply wp_alloc; [done|done|done|].
  intros st' HI' He Hh HRl. apply wp_ret; [done|].
  assert (Hl' : heap st' !! length (heap st) = Some (Array vs)).
  { rewrite Hh, lookup_app_r by lia. by rewrite Nat.sub_diag. }
  apply HQ; auto.
  - eapply slice_ok_Some; [exact Hl'|lia|lia].
  - simpl. intros l [= <-]. done.
  - unfold slice_view. simpl. rewrite Hl'. apply firstn_all.
Qed.

Lemma values_ok_Some h r : values_ok h (Some r) ↔ ∃ m, h !! r = Some (MapValues m).
Proof.
  unfold values_ok. destruct (h !! r) as [[cells|m|m]|]; split; try done;
    try (intros [? ?]; done). eauto.
Qed.

Lemma strings_ok_Some h r : strings_ok h (Some r) ↔ ∃ m, h !! r = Some (MapString m).
Proof.
  unfold strings_ok. destruct (h !! r) as [[cells|m|m]|]; split; try done;
    try (intros [? ?]; done). eauto.
Qed.

Lemma wp_make_values pan R (Q : loc → state → Prop) st :
  Inv R (heap st) →
  (∀ r st', Inv R (heap st') → ext (heap st) (heap st') → R r →
            values_ok (heap st') (Some r) → Q r st') →
  wp pan R make_values Q st.
Proof.
  intros HI HQ. unfold make_values. apply wp_alloc; [done|done| |].
  { simpl. intros k s p Hk. by rewrite lookup_empty in Hk. }
  intros st' HI' He Hh HRl. apply HQ; auto.
  apply values_ok_Some. exists ∅. rewrite Hh, lookup_app_r by lia.
  by rewrite Nat.sub_diag.
Qed.

Lemma wp_make_strings pan R (Q : loc → state → Prop) st :
  Inv R (heap st) →
  (∀ r st', Inv R (heap st') → ext (heap st) (heap st') → R r →
            strings_ok (heap st') (Some r) → Q r st') →
  wp pan R make_strings Q st.
Proof.
  intros HI HQ. unfold make_strings. apply wp_alloc; [done|done|done|].
  intros st' HI' He Hh HRl. apply HQ; auto.
  apply strings_ok_Some. exists ∅. rewrite Hh, lookup_app_r by lia.
  by rewrite Nat.sub_diag.
Qed.

Lemma wp_values_index pan R r k (Q : slice → state → Prop) st :
  Inv R (heap st) → R r → values_ok (heap st) (Some r) →
  (∀ s, slice_ok (heap st) s → root_in R (RSlice s) → Q s st) →
  wp pan R (values_index r k) Q st.
Proof.
  intros HI HR Hr HQ. apply values_ok_Some in Hr as [m Hm].
  unfold values_index. apply wp_bind. eapply wp_load_values; [done|exact Hm|].
  apply wp_ret; [done|]. destruct HI as (Hok & Hfr & Hcl).
  destruct (m !! k) as [s|] eqn:Hk; simpl.
  - apply HQ; [by eapply heap_ok_lookup|].
    simpl. intros p Hp. exact (Hcl _ _ HR Hm _ _ _ Hk Hp).
  - apply HQ; [by split|]. simpl. intros p Hp. done.
Qed.

Lemma wp_values_store pan R r k s (Q : unit → state → Prop) st :
  Inv R (heap st) → R r → values_ok (heap st) (Some r) →
  slice_ok (heap st) s → root_in R (RSlice s) →
  (∀ st', Inv R (heap st') → ext (heap st) (heap st') → Q tt st') →
  wp pan R (values_store r k s) Q st.
Proof.
  intros HI HR Hr Hs Hin HQ. apply values_ok_Some in Hr as [m Hm].
  unfold values_store. apply wp_bind. eapply wp_load_values; [done|exact Hm|].
  destruct HI as (Hok & Hfr & Hcl).
  eapply wp_store; [done|done|exact Hm|done| | |].
  - simpl. intros k' s' Hk'. destruct (decide (k = k')) as [<-|Hne].
    + rewrite lookup_insert_eq in Hk'. by injection Hk' as <-.
    + rewrite lookup_insert_ne in Hk' by done. by eapply heap_ok_lookup.
  - simpl. intros k' s' p Hk' Hp. destruct (decide (k = k')) as [<-|Hne].
    + rewrite lookup_insert_eq in Hk'. injection Hk' as <-. by apply Hin.
    + rewrite lookup_insert_ne in Hk' by done. exact (Hcl _ _ HR Hm _ _ _ Hk' Hp).
  - intros st' HI' He _. by apply HQ.
Qed.

Lemma wp_values_delete pan R r k (Q : unit → state → Prop) st :
  Inv R (heap st) → R r → values_ok (heap st) (Some r) →
  (∀ st', Inv R (heap st') → ext (heap st) (heap st') → Q tt st') →
  wp pan R (values_delete r k) Q st.
Proof.
  intros HI HR Hr HQ. apply values_ok_Some in Hr as [m Hm].
  unfold values_delete. apply wp_bind. eapply wp_load_values; [done|exact Hm|].
  destruct HI as (Hok & Hfr & Hcl).
  eapply wp_store; [done|done|exact Hm|done| | |].
  - simpl. intros k' s' Hk'. apply lookup_delete_Some in Hk' as [_ Hk'].
    by eapply heap_ok_lookup.
  - simpl. intros k' s' p Hk' Hp. apply lookup_delete_Some in Hk' as [_ Hk'].
    exact (Hcl _ _ HR Hm _ _ _ Hk' Hp).
  - intros st' HI' He _. by apply HQ.
Qed.

Lemma wp_strings_store pan R r k v (Q : unit → state → Prop) st :
  Inv R (heap st) → R r → strings_ok (heap st) (Some r) →
  (∀ st', Inv R (heap st') → ext (heap st) (heap st') → Q tt st') →
  wp pan R (strings_store r k v) Q st.
Proof.
  intros HI HR Hr HQ. apply strings_ok_Some in Hr as [m Hm].
  unfold strings_store. apply wp_bind. eapply wp_load_strings; [done|exact Hm|].
  eapply wp_store; [done|done|exact Hm|done|done|done|].
  intros st' HI' He _. by apply HQ.
Qed.

Lemma wp_strings_delete pan R r k (Q : unit → state → Prop) st :
  Inv R (heap st) → R r → strings_ok (heap st) (Some r) →
  (∀ st', Inv R (heap st') → ext (heap st) (heap st') → Q tt st') →
  wp pan R (strings_delete r k) Q st.
Proof.
  intros HI HR Hr HQ. apply strings_ok_Some in Hr as [m Hm].
  unfold strings_delete. apply wp_bind. eapply wp_load_strings; [done|exact Hm|].
  eapply wp_store; [done|done|exact Hm|done|done|done|].
  intros st' HI' He _. by apply HQ.
Qed.

Lemma wp_Values_Add pan R r key v (Q : unit → state → Prop) st :
  Inv R (heap st) → R r → values_ok (heap st) (Some r) →
  (∀ st', Inv R (heap st') → ext (heap st) (heap st') → Q tt st') →
  wp pan R (Values_Add r key v) Q st.
Proof.
  intros HI HR Hr HQ. unfold Values_Add.
  apply wp_bind. apply wp_values_index; [done|done|done|].
  intros s Hs Hin. apply wp_bind. apply wp_append; [done|done|done|].
  intros s' st1 HI1 He1 Hs' Hin' _.
  apply wp_values_store; [done|done|by eapply values_ok_ext|done|done|].
  intros st2 HI2 He2. apply HQ; eauto using ext_trans.
Qed.

Lemma wp_Values_Set pan R r key v (Q : unit → state → Prop) st :
  Inv R (heap st) → R r → values_ok (heap st) (Some r) →
  (∀ st', Inv R (heap st') → ext (heap st) (heap st') → Q tt st') →
  wp pan R (Values_Set r key v) Q st.
Proof.
  intros HI HR Hr HQ. unfold Values_Set.
  apply wp_bind. apply wp_slice_of; [done|].
  intros s' st1 HI1 He1 Hs' Hin' _.
  apply wp_values_store; [done|done|by eapply values_ok_ext|done|done|].
  intros st2 HI2 He2. apply HQ; eauto using ext_trans.
Qed.

Lemma wp_for_each {A} pan R (l : list A) (body : A → M unit) (Q : unit → state → Prop) st :
  Inv R (heap st) →
  (∀ x st1 (Q1 : unit → state → Prop),
     Inv R (heap st1) → ext (heap st) (heap st1) →
     (∀ st2, Inv R (heap st2) → ext (heap st1) (heap st2) → Q1 tt st2) →
     wp pan R (body x) Q1 st1) →
  (∀ st', Inv R (heap st') → ext (heap st) (heap st') → Q tt st') →
  wp pan R (for_each l body) Q st.
Proof.
  intros HI Hbody. revert st HI Hbody Q.
  induction l as [|x l IH]; intros st HI Hbody Q HQ; simpl.
  - apply wp_ret; [done|]. apply HQ; auto using ext_refl.
  - apply wp_bind. apply Hbody; [done|apply ext_refl|].
    intros st1 HI1 He1. apply IH; [done| |].
    + intros y st2 Q2 HI2 He2 HQ2. apply Hbody; eauto using ext_trans.
    + intros st2 HI2 He2. apply HQ; eauto using ext_trans.
Qed.

End Ops.

Section ClientOps.
Context `{GoLib}.

Lemma wp_init_if_nil pan R field assign c (Q : Client * loc → state → Prop) st :
  Inv R (heap st) → values_ok (heap st) field → root_in R (RValues field) →
  (∀ c' r st', Inv R (heap st') → ext (heap st) (heap st') → R r →
               values_ok (heap st') (Some r) →
               (field = Some r ∧ c' = c) ∨ (field = None ∧ c' = assign (Some r) c) →
               Q (c', r) st') →
  wp pan R (init_if_nil field make_values assign c) Q st.
Proof.
  intros HI Hf Hin HQ. unfold init_if_nil. destruct field as [r|].
  - apply wp_ret; [done|]. apply HQ; auto using ext_refl.
  - apply wp_bind. apply wp_make_values; [done|].
    intros r st' HI' He HR Hr. apply wp_ret; [done|]. apply HQ; auto.
Qed.

Lemma roots_insert_same c i rt : roots c !! i = Some rt → roots c = <[i := rt]> (roots c).
Proof. intros Hi. symmetry. by apply list_insert_id. Qed.

Lemma mutated_same R m c rt st st' :
  roots c !! target m = Some rt → root_ok (heap st) rt → root_in R rt →
  ext (heap st) (heap st') → mutated R m c c st'.
Proof.
  intros Hi Hok Hin He. split; [|done].
  exists rt. split_and!; [by apply roots_insert_same| |done].
  by eapply root_ok_ext.
Qed.

Lemma wp_values_loop pan R (fd : loc) (add : loc → string → val → M unit)
    (data : list (string * list string)) (Q : unit → state → Prop) st :
  (∀ k v st1 (Q1 : unit → state → Prop),
     Inv R (heap st1) → values_ok (heap st1) (Some fd) →
     (∀ st2, Inv R (heap st2) → ext (heap st1) (heap st2) → Q1 tt st2) →
     wp pan R (add fd k v) Q1 st1) →
  Inv R (heap st) → values_ok (heap st) (Some fd) →
  (∀ st', Inv R (heap st') → ext (heap st) (heap st') → Q tt st') →
  wp pan R (for_each data (λ '(k, v), for_each v (λ kv, add fd k (VString kv)))) Q st.
Proof.
  intros Hadd HI Hfd HQ. apply wp_for_each; [done| |done].
  intros [k v] st1 Q1 HI1 He1 HQ1. apply wp_for_each; [done| |done].
  intros kv st2 Q2 HI2 He2 HQ2. apply Hadd; [done| |done].
  eapply values_ok_ext; [|exact Hfd]. eauto using ext_trans.
Qed.

Ltac finish_values r Hc :=
  split;
  [ exists (RValues (Some r)); split_and!;
    [ let Hf := fresh "Hf" in
      destruct Hc as [[Hf ->]|[Hf ->]]; [unfold roots; by rewrite Hf|done]
    | by eapply (values_ok_ext _ _ (Some r))
    | by intros ? [= <-] ]
  | by destruct Hc as [[_ ->]|[_ ->]] ].

Lemma wp_mutate R m c st :
  Inv R (heap st) →
  (∀ rt, roots c !! target m = Some rt → root_ok (heap st) rt ∧ root_in R rt) →
  wp True R (mutate m c) (mutated R m c) st.
Proof.
  intros HI Hrt.
  destruct m as [key value|cookies|key value|query|data|data|f|f|key i value|key|i p
                |key value|key];
    simpl in *; (edestruct Hrt as [Hok Hin]; [reflexivity|]); simpl in Hok, Hin.
  - (* SetCommonHeader *)
    unfold SetCommonHeader. apply wp_bind. apply wp_init_if_nil; [done|done|done|].
    intros c' r st1 HI1 He1 HR Hr Hc'. unfold Header_Set.
    apply wp_bind. apply wp_Values_Set; [done|done|done|].
    intros st2 HI2 He2. apply wp_ret; [done|].
    finish_values r Hc'.
  - (* SetCommonCookies *)
    unfold SetCommonCookies. apply wp_bind. apply wp_append; [done|done|done|].
    intros s' st1 HI1 He1 Hs' Hin' _. apply wp_ret; [done|].
    split; [by exists (RSlice s')|done].
  - (* SetCommonQueryParam *)
    unfold SetCommonQueryParam. apply wp_bind. apply wp_init_if_nil; [done|done|done|].
    intros c' r st1 HI1 He1 HR Hr Hc'.
    apply wp_bind. apply wp_Values_Set; [done|done|done|].
    intros st2 HI2 He2. apply wp_ret; [done|].
    finish_values r Hc'.
  - (* SetCommonQueryString *)
    unfold SetCommonQueryString.
    destruct (url_ParseQuery (strings_TrimSpace query)) as [params [e|]].
    + apply wp_bind. apply wp_logf; [done|]. intros st1 Hh.
      apply wp_ret; [by rewrite Hh|].
      eapply mutated_same; [reflexivity|exact Hok|exact Hin|].
      rewrite Hh. apply ext_refl.
    + apply wp_bind. apply wp_init_if_nil; [done|done|done|].
      intros c' r st1 HI1 He1 HR Hr Hc'.
      apply wp_bind.
      apply (wp_values_loop True R r Values_Add (map_to_list params)); [|done|done|].
      { intros k v st2 Q2 HI2 Hr2 HQ2. by apply wp_Values_Add. }
      intros st2 HI2 He2. apply wp_ret; [done|].
      finish_values r Hc'.
  - (* SetCommonFormData *)
    unfold SetCommonFormData. apply wp_bind. apply wp_init_if_nil; [done|done|done|].
    intros c' r st1 HI1 He1 HR Hr Hc'.
    apply wp_bind. apply wp_for_each; [done| |].
    { intros [k v] st2 Q2 HI2 He2 HQ2. apply wp_Values_Set; [done|done| |done].
      by eapply values_ok_ext. }
    intros st2 HI2 He2. apply wp_ret; [done|].
    finish_values r Hc'.
  - (* SetCommonFormDataFromValues *)
    unfold SetCommonFormDataFromValues.
    apply wp_bind. apply wp_init_if_nil; [done|done|done|].
    intros c' r st1 HI1 He1 HR Hr Hc'.
    apply wp_bind. apply (wp_values_loop True R r Values_Add data); [|done|done|].
    { intros k v st2 Q2 HI2 Hr2 HQ2. by apply wp_Values_Add. }
    intros st2 HI2 He2. apply wp_ret; [done|].
    finish_values r Hc'.
  - (* OnBeforeRequest *)
    unfold OnBeforeRequest. apply wp_bind. apply wp_append; [done|done|done|].
    intros s' st1 HI1 He1 Hs' Hin' _. apply wp_ret; [done|].
    split; [by exists (RSlice s')|done].
  - (* OnAfterResponse *)
    unfold OnAfterResponse. apply wp_bind. apply wp_append; [done|done|done|].
    intros s' st1 HI1 He1 Hs' Hin' _. apply wp_ret; [done|].
    split; [by exists (RSlice s')|done].
  - (* c.Headers[key][i] = value *)
    destruct (Headers c) as [r|] eqn:Hf; [|apply wp_panic].
    apply wp_bind. apply wp_values_index; [done|by apply Hin|done|].
    intros s Hs Hsin. apply wp_bind. apply wp_slice_store; [done|done|done|].
    intros st1 HI1 He1. apply wp_ret; [done|].
    eapply mutated_same; [simpl; by rewrite Hf|exact Hok|exact Hin|done].
  - (* delete(c.Headers, key) *)
    destruct (Headers c) as [r|] eqn:Hf.
    + apply wp_bind. apply wp_values_delete; [done|by apply Hin|done|].
      intros st1 HI1 He1. apply wp_ret; [done|].
      eapply mutated_same; [simpl; by rewrite Hf|exact Hok|exact Hin|done].
    + apply wp_ret; [done|].
      eapply mutated_same; [simpl; by rewrite Hf|exact Hok|exact Hin|apply ext_refl].
  - (* c.Cookies[i] = p *)
    apply wp_bind. apply wp_slice_store; [done|done|done|].
    intros st1 HI1 He1. apply wp_ret; [done|].
    eapply mutated_same; [reflexivity|exact Hok|exact Hin|done].
  - (* c.PathParams[key] = value *)
    destruct (PathParams c) as [r|] eqn:Hf; [|apply wp_panic].
    apply wp_bind. apply wp_strings_store; [done|by apply Hin|done|].
    intros st1 HI1 He1. apply wp_ret; [done|].
    eapply mutated_same; [simpl; by rewrite Hf|exact Hok|exact Hin|done].
  - (* delete(c.PathParams, key) *)
    destruct (PathParams c) as [r|] eqn:Hf.
    + apply wp_bind. apply wp_strings_delete; [done|by apply Hin|done|].
      intros st1 HI1 He1. apply wp_ret; [done|].
      eapply mutated_same; [simpl; by rewrite Hf|exact Hok|exact Hin|done].
    + apply wp_ret; [done|].
      eapply mutated_same; [simpl; by rewrite Hf|exact Hok|exact Hin|apply ext_refl].
Qed.

End ClientOps.

Section CloneOps.
Context `{GoLib}.

Lemma wp_clone_values_loop pan R (h : loc) (add : loc → string → val → M unit)
    (entries : list (string * slice)) (Q : unit → state → Prop) st :
  (∀ k v st1 (Q1 : unit → state → Prop),
     Inv R (heap st1) → values_ok (heap st1) (Some h) →
     (∀ st2, Inv R (heap st2) → ext (heap st1) (heap st2) → Q1 tt st2) →
     wp pan R (add h k v) Q1 st1) →
  Inv R (heap st) → values_ok (heap st) (Some h) →
  (∀ st', Inv R (heap st') → ext (heap st) (heap st') → Q tt st') →
  wp pan R (for_each entries (λ '(k, vs),
              let* vals := read_slice vs in
              for_each vals (λ v, add h k v))) Q st.
Proof.
  intros Hadd HI Hh HQ. apply wp_for_each; [done| |done].
  intros [k vs] st1 Q1 HI1 He1 HQ1. apply wp_bind. apply wp_read_slice; [done|].
  apply wp_for_each; [done| |done].
  intros v st2 Q2 HI2 He2 HQ2. apply Hadd; [done| |done].
  eapply values_ok_ext; [|exact Hh]. eauto using ext_trans.
Qed.

Lemma wp_cloneHeaders pan R hdrs (Q : option loc → state → Prop) st :
  Inv R (heap st) → values_ok (heap st) hdrs →
  (∀ r' st', Inv R (heap st') → ext (heap st) (heap st') →
             values_ok (heap st') r' → root_in R (RValues r') → Q r' st') →
  wp pan R (cloneHeaders hdrs) Q st.
Proof.
  intros HI Hok HQ. unfold cloneHeaders. destruct hdrs as [r|].
  - apply values_ok_Some in Hok as [m Hm].
    apply wp_bind. eapply wp_load_values; [done|exact Hm|].
    apply wp_bind. apply wp_make_values; [done|].
    intros h st1 HI1 He1 HR Hh. apply wp_bind.
    apply (wp_clone_values_loop pan R h Header_Add); [|done|done|].
    { intros k v st2 Q2 HI2 Hh2 HQ2. unfold Header_Add. by apply wp_Values_Add. }
    intros st2 HI2 He2. apply wp_ret; [done|]. apply HQ; eauto using ext_trans.
    + by eapply (values_ok_ext _ _ (Some h)).
    + by intros ? [= <-].
  - apply wp_ret; [done|]. apply HQ; auto using ext_refl. by intros ?.
Qed.

Lemma wp_cloneUrlValues pan R v (Q : option loc → state → Prop) st :
  Inv R (heap st) → values_ok (heap st) v →
  (∀ r' st', Inv R (heap st') → ext (heap st) (heap st') →
             values_ok (heap st') r' → root_in R (RValues r') → Q r' st') →
  wp pan R (cloneUrlValues v) Q st.
Proof.
  intros HI Hok HQ. unfold cloneUrlValues. destruct v as [r|].
  - apply values_ok_Some in Hok as [m Hm].
    apply wp_bind. eapply wp_load_values; [done|exact Hm|].
    apply wp_bind. apply wp_make_values; [done|].
    intros h st1 HI1 He1 HR Hh. apply wp_bind.
    apply (wp_clone_values_loop pan R h Values_Add); [|done|done|].
    { intros k v st2 Q2 HI2 Hh2 HQ2. by apply wp_Values_Add. }
    intros st2 HI2 He2. apply wp_ret; [done|]. apply HQ; eauto using ext_trans.
    + by eapply (values_ok_ext _ _ (Some h)).
    + by intros ? [= <-].
  - apply wp_ret; [done|]. apply HQ; auto using ext_refl. by intros ?.
Qed.

Lemma wp_cloneMap pan R hm (Q : option loc → state → Prop) st :
  Inv R (heap st) → strings_ok (heap st) hm →
  (∀ r' st', Inv R (heap st') → ext (heap st) (heap st') →
             strings_ok (heap st') r' → root_in R (RStrings r') → Q r' st') →
  wp pan R (cloneMap hm) Q st.
Proof.
  intros HI Hok HQ. unfold cloneMap. destruct hm as [r|].
  - apply strings_ok_Some in Hok as [src Hsrc].
    apply wp_bind. eapply wp_load_strings; [done|exact Hsrc|].
    apply wp_bind. apply wp_make_strings; [done|].
    intros m st1 HI1 He1 HR Hm. apply wp_bind. apply wp_for_each; [done| |].
    { intros [k v] st2 Q2 HI2 He2 HQ2. apply wp_strings_store; [done|done| |done].
      by eapply (strings_ok_ext _ _ (Some m)). }
    intros st2 HI2 He2. apply wp_ret; [done|]. apply HQ; eauto using ext_trans.
    + by eapply (strings_ok_ext _ _ (Some m)).
    + by intros ? [= <-].
  - apply wp_ret; [done|]. apply HQ; auto using ext_refl. by intros ?.
Qed.

Lemma slice_ok_nil h : slice_ok h nil_slice.
Proof. by split. Qed.

Lemma wp_cloneCookies pan R s (Q : slice → state → Prop) st :
  Inv R (heap st) →
  (∀ s' st', Inv R (heap st') → ext (heap st) (heap st') →
             slice_ok (heap st') s' → root_in R (RSlice s') → Q s' st') →
  wp pan R (cloneCookies s) Q st.
Proof.
  intros HI HQ. unfold cloneCookies. case_decide.
  - apply wp_ret; [done|]. apply HQ; auto using ext_refl, slice_ok_nil. by intros ?.
  - apply wp_bind. apply wp_read_slice; [done|]. apply wp_slice_of; [done|].
    intros s' st' HI' He Hs' Hin _. by apply HQ.
Qed.

Lemma wp_cloneRequestMiddleware pan R s (Q : slice → state → Prop) st :
  Inv R (heap st) →
  (∀ s' st', Inv R (heap st') → ext (heap st) (heap st') →
             slice_ok (heap st') s' → root_in R (RSlice s') → Q s' st') →
  wp pan R (cloneRequestMiddleware s) Q st.
Proof. exact (wp_cloneCookies pan R s Q st). Qed.

Lemma wp_cloneResponseMiddleware pan R s (Q : slice → state → Prop) st :
  Inv R (heap st) →
  (∀ s' st', Inv R (heap st') → ext (heap st) (heap st') →
             slice_ok (heap st') s' → root_in R (RSlice s') → Q s' st') →
  wp pan R (cloneResponseMiddleware s) Q st.
Proof. exact (wp_cloneCookies pan R s Q st). Qed.

Ltac chain_ext :=
  repeat match goal with
  | H1 : ext ?a ?b, H2 : ext ?b ?c |- _ =>
      lazymatch goal with
      | _ : ext a c |- _ => fail
      | _ => pose proof (ext_trans _ _ _ H1 H2)
      end
  end.

Lemma roots_ok_fields h c :
  Forall (root_ok h) (roots c) ↔
  values_ok h (Headers c) ∧ slice_ok h (Cookies c) ∧ strings_ok h (PathParams c) ∧
  values_ok h (QueryParams c) ∧ values_ok h (FormData c) ∧ slice_ok h (beforeRequest c) ∧
  slice_ok h (udBeforeRequest c) ∧ slice_ok h (afterResponse c).
Proof.
  unfold roots. rewrite !Forall_cons, Forall_nil. simpl. tauto.
Qed.

(** [Clone] always returns, writes nothing that existed before, and every
    collection of the copy lies in the region it was given to allocate in. *)
Lemma wp_Clone pan R c st :
  Inv R (heap st) → Forall (root_ok (heap st)) (roots c) →
  wp pan R (Clone c)
     (λ cc st', Forall (root_ok (heap st')) (roots cc) ∧ Forall (root_in R) (roots cc)) st.
Proof.
  intros HI Hc. apply roots_ok_fields in Hc as (Hh & Hck & Hpp & Hqp & Hfd & Hb & Hu & Ha).
  unfold Clone.
  apply wp_bind. apply wp_cloneHeaders; [done|done|].
  intros headers st1 HI1 He1 Hok1 Hin1.
  apply wp_bind. apply wp_cloneCookies; [done|].
  intros cookies st2 HI2 He2 Hok2 Hin2. chain_ext.
  apply wp_bind. apply wp_cloneMap; [done|by eapply strings_ok_ext; [|exact Hpp]|].
  intros pathParams st3 HI3 He3 Hok3 Hin3. chain_ext.
  apply wp_bind. apply wp_cloneUrlValues; [done|by eapply values_ok_ext; [|exact Hqp]|].
  intros queryParams st4 HI4 He4 Hok4 Hin4. chain_ext.
  apply wp_bind. apply wp_cloneUrlValues; [done|by eapply values_ok_ext; [|exact Hfd]|].
  intros formData st5 HI5 He5 Hok5 Hin5. chain_ext.
  apply wp_bind. apply wp_cloneRequestMiddleware; [done|].
  intros before st6 HI6 He6 Hok6 Hin6. chain_ext.
  apply wp_bind. apply wp_cloneRequestMiddleware; [done|].
  intros udBefore st7 HI7 He7 Hok7 Hin7. chain_ext.
  apply wp_bind. apply wp_cloneResponseMiddleware; [done|].
  intros after st8 HI8 He8 Hok8 Hin8. chain_ext.
  apply wp_ret; [done|]. split.
  - apply roots_ok_fields. simpl.
    split_and!; eauto using slice_ok_ext, values_ok_ext, strings_ok_ext.
  - unfold roots. simpl. repeat constructor; done.
Qed.

End CloneOps.

Section Separation.
Context `{GoLib}.

Lemma slice_ok_Array h s l :
  slice_ok h s → data s = Some l → ∃ cells, h !! l = Some (Array cells).
Proof.
  unfold slice_ok. intros Hs Hl. rewrite Hl in Hs.
  destruct (h !! l) as [[cells|m|m]|]; try done. eauto.
Qed.

Lemma reach_root_in R h rt l :
  closed R h → root_in R rt → reach_root h rt l → R l.
Proof.
  intros Hcl Hin. destruct rt as [s|r|r]; simpl in *; [by apply Hin| |by apply Hin].
  intros [Hr|(l0 & m & k & s & Hr & Hm & Hk & Hs)]; [by apply Hin|].
  exact (Hcl _ _ (Hin _ Hr) Hm _ _ _ Hk Hs).
Qed.

(** Whatever a root leads to is an object of the store, and the arrays and
    string maps among them lead nowhere further. *)
Lemma reach_root_object h rt l :
  heap_ok h → root_ok h rt → reach_root h rt l →
  ∃ o, h !! l = Some o ∧ object_in (reach_root h rt) o.
Proof.
  intros Hh Hok. destruct rt as [s|r|r]; simpl in *.
  - intros Hl. destruct (slice_ok_Array _ _ _ Hok Hl) as [cells Hc].
    by exists (Array cells).
  - intros [Hr|(l0 & m & k & s & Hr & Hm & Hk & Hs)].
    + subst r. apply values_ok_Some in Hok as [m Hm]. exists (MapValues m).
      split; [done|]. simpl. intros k s p Hk Hp. right. by exists l, m, k, s.
    + pose proof (heap_ok_lookup _ _ _ _ _ Hh Hm Hk) as Hsok.
      destruct (slice_ok_Array _ _ _ Hsok Hs) as [cells Hc]. by exists (Array cells).
  - intros ->. apply strings_ok_Some in Hok as [m Hm]. by exists (MapString m).
Qed.

Lemma reach_root_bound h rt l :
  heap_ok h → root_ok h rt → reach_root h rt l → l < length h.
Proof.
  intros Hh Hok Hl. destruct (reach_root_object _ _ _ Hh Hok Hl) as (o & Ho & _).
  by eapply lookup_lt_Some.
Qed.

Lemma root_in_reach h rt : root_in (reach_root h rt) rt.
Proof. destruct rt as [s|r|r]; simpl; auto. intros l Hl. by left. Qed.

Lemma object_in_mono (P P' : loc → Prop) o :
  (∀ l, P l → P' l) → object_in P o → object_in P' o.
Proof. intros HP. destruct o; simpl; eauto. Qed.

Lemma Inv_region h G :
  heap_ok h → Forall (root_ok h) G → Inv (region h G) h.
Proof.
  intros Hh HG. split_and!; [done|by right|].
  intros l o [(rt & Hrt & Hl)|Hge] Ho.
  - rewrite Forall_forall in HG.
    destruct (reach_root_object _ _ _ Hh (HG _ Hrt) Hl) as (o' & Ho' & Hin).
    assert (o' = o) as -> by congruence.
    eapply object_in_mono; [|exact Hin]. intros p Hp. left. eauto.
  - apply lookup_lt_Some in Ho. lia.
Qed.

Lemma root_in_region h G rt : rt ∈ G → root_in (region h G) rt.
Proof.
  intros Hrt. pose proof (root_in_reach h rt) as Hin.
  destruct rt as [s|r|r]; simpl in *; intros l Hl; left; eexists; (split; [exact Hrt|]);
    simpl; auto.
Qed.

(** A root whose objects are all left alone reads the same and reaches the
    same. *)
Lemma unchanged_root h h' rt :
  heap_ok h → root_ok h rt → (∀ l, reach_root h rt l → h' !! l = h !! l) →
  same_view h h' rt ∧ ∀ l, reach_root h' rt l ↔ reach_root h rt l.
Proof.
  intros Hh Hok Hsame. destruct rt as [s|r|r]; simpl in *.
  - split; [|done]. unfold slice_view. destruct (data s) as [l|] eqn:Hl; [|done].
    by rewrite Hsame.
  - destruct r as [l0|]; [|split; [done|]].
    2: { intros l. unfold reach_values. split; intros [?|(?&?&?&?&?&?)]; done. }
    apply values_ok_Some in Hok as [m Hm].
    assert (Hm' : h' !! l0 = Some (MapValues m)).
    { rewrite Hsame; [done|by left]. }
    split.
    + unfold values_view. rewrite Hm, Hm'. f_equal.
      apply map_fmap_ext. intros k s Hk. unfold slice_view.
      destruct (data s) as [p|] eqn:Hp; [|done].
      rewrite Hsame; [done|]. right. by exists l0, m, k, s.
    + intros l. unfold reach_values.
      split; (intros [Hl|(l1 & m1 & k & s & Hl1 & Hm1 & Hk & Hs)]; [by left|]);
        injection Hl1 as <-; right; exists l0, m, k, s;
        assert (m1 = m) as -> by congruence; done.
  - split; [|done]. unfold strings_view. destruct r as [l|]; [|done].
    by rewrite Hsame.
Qed.

Lemma outside_unchanged R h h' rt :
  heap_ok h → root_ok h rt → frame R h h' → (∀ l, reach_root h rt l → ¬ R l) →
  same_view h h' rt ∧ ∀ l, reach_root h' rt l ↔ reach_root h rt l.
Proof.
  intros Hh Hok Hf Hout. apply unchanged_root; [done|done|].
  intros l Hl. apply Hf. by apply Hout.
Qed.

Lemma target_root c m : ∃ rt, roots c !! target m = Some rt.
Proof. destruct m; simpl; eauto. Qed.

(** One mutation, seen from a group [G] of roots that holds the field it
    works on: nothing outside the region of [G] is written, and the field
    stays inside it. *)
Lemma mutate_frame m c st c' st' G :
  heap_ok (heap st) → Forall (root_ok (heap st)) G →
  (∀ rt, roots c !! target m = Some rt → rt ∈ G) →
  mutate m c st = Ok (c', st') →
  Inv (region (heap st) G) (heap st') ∧
  frame (region (heap st) G) (heap st) (heap st') ∧
  ext (heap st) (heap st') ∧
  mutated (region (heap st) G) m c c' st'.
Proof.
  intros Hh HG Ht Hrun.
  assert (Hwp : wp True (region (heap st) G) (mutate m c)
                  (mutated (region (heap st) G) m c) st).
  { apply wp_mutate; [by apply Inv_region|].
    intros rt Hrt. rewrite Forall_forall in HG.
    split; [apply HG|apply root_in_region]; by apply Ht. }
  unfold wp in Hwp. by rewrite Hrun in Hwp.
Qed.

Lemma collections_same h h' c :
  (∀ rt, rt ∈ roots c → same_view h h' rt) → collections h' c = collections h c.
Proof.
  intros Hsame. unfold collections.
  pose proof (Hsame (RValues (Headers c))) as H0.
  pose proof (Hsame (RSlice (Cookies c))) as H1.
  pose proof (Hsame (RStrings (PathParams c))) as H2.
  pose proof (Hsame (RValues (QueryParams c))) as H3.
  pose proof (Hsame (RValues (FormData c))) as H4.
  pose proof (Hsame (RSlice (beforeRequest c))) as H5.
  pose proof (Hsame (RSlice (udBeforeRequest c))) as H6.
  pose proof (Hsame (RSlice (afterResponse c))) as H7.
  unfold roots in *. simpl in *.
  rewrite H0, H1, H2, H3, H4, H5, H6, H7; [done|set_solver..].
Qed.

Lemma reach_bound h c l : client_ok h c → reach h c l → l < length h.
Proof.
  intros [Hh Hc] (rt & Hrt & Hl). rewrite Forall_forall in Hc.
  eapply reach_root_bound; eauto.
Qed.

Lemma separated_sym h c cc : separated h c cc → separated h cc c.
Proof. intros (?&?&Hd). split_and!; [done|done|]. intros l ? ?. by eapply Hd. Qed.

(** A mutation of one of two separated clients does not show in the other,
    and leaves them separated. *)
Lemma separated_mutate m h c cc cc' st st' :
  heap st = h → separated h c cc → mutate m cc st = Ok (cc', st') →
  separated (heap st') c cc' ∧ collections (heap st') c = collections h c.
Proof.
  intros <- ([Hh Hc] & [_ Hcc] & Hdis) Hrun.
  destruct (mutate_frame m cc st cc' st' (roots cc)) as (HI & Hf & He & Hmut);
    [done|done| |done|].
  { intros rt Hrt. by eapply list_elem_of_lookup_2. }
  destruct HI as (Hh' & Hfr' & Hcl').
  destruct Hmut as [(rt' & Hroots & Hok' & Hin') _].
  assert (Hcc' : ∀ rt, rt ∈ roots cc' → root_ok (heap st') rt ∧
                                        root_in (region (heap st) (roots cc)) rt).
  { intros rt Hrt. rewrite Hroots in Hrt.
    apply list_elem_of_lookup in Hrt as [i Hi].
    destruct (decide (target m = i)) as [<-|Hne].
    - rewrite list_lookup_insert_eq in Hi.
      + by injection Hi as <-.
      + destruct (target_root cc m) as [rt0 Hrt0]. by eapply lookup_lt_Some.
    - rewrite list_lookup_insert_ne in Hi by done.
      apply list_elem_of_lookup_2 in Hi. rewrite Forall_forall in Hcc.
      split; [eapply root_ok_ext; eauto|by apply root_in_region]. }
  assert (Hout : ∀ rt, rt ∈ roots c →
            same_view (heap st) (heap st') rt ∧
            ∀ l, reach_root (heap st') rt l ↔ reach_root (heap st) rt l).
  { intros rt Hrt. rewrite Forall_forall in Hc.
    eapply outside_unchanged; [done|by apply Hc|exact Hf|].
    intros l Hl [(rt2 & Hrt2 & Hl2)|Hge].
    - eapply Hdis; [by exists rt|by exists rt2].
    - pose proof (reach_root_bound _ _ _ Hh (Hc _ Hrt) Hl). lia. }
  split; [split_and!|].
  - split; [done|]. rewrite Forall_forall in *. intros rt Hrt.
    eapply root_ok_ext; eauto.
  - split; [done|]. rewrite Forall_forall. intros rt Hrt. by apply Hcc'.
  - intros l (rt & Hrt & Hl) (rt2 & Hrt2 & Hl2).
    apply (Hout _ Hrt) in Hl.
    assert (HR : region (heap st) (roots cc) l).
    { eapply reach_root_in; [exact Hcl'|by apply Hcc'|exact Hl2]. }
    destruct HR as [(rt3 & Hrt3 & Hl3)|Hge].
    + eapply Hdis; [by exists rt|by exists rt3].
    + rewrite Forall_forall in Hc.
      pose proof (reach_root_bound _ _ _ Hh (Hc _ Hrt) Hl). lia.
  - apply collections_same. intros rt Hrt. by apply Hout.
Qed.

(** [Clone] returns a client separated from its original, which reads as
    before. *)
Lemma Clone_separated c st :
  client_ok (heap st) c →
  ∃ cc st', Clone c st = Ok (cc, st') ∧ separated (heap st') c cc ∧
            collections (heap st') c = collections (heap st) c.
Proof.
  intros [Hh Hc].
  set (R := λ l : loc, length (heap st) ≤ l).
  assert (HI : Inv R (heap st)).
  { split_and!; [done|by intros l|].
    intros l o Hl Ho. apply lookup_lt_Some in Ho. unfold R in Hl. lia. }
  pose proof (wp_Clone False R c st HI Hc) as Hwp. unfold wp in Hwp.
  destruct (Clone c st) as [[cc st']|]; [|done].
  destruct Hwp as ((Hh' & Hfr' & Hcl') & Hf & He & Hok' & Hin').
  exists cc, st'. split; [done|].
  assert (Hout : ∀ rt, rt ∈ roots c →
            same_view (heap st) (heap st') rt ∧
            ∀ l, reach_root (heap st') rt l ↔ reach_root (heap st) rt l).
  { intros rt Hrt. rewrite Forall_forall in Hc.
    eapply outside_unchanged; [done|by apply Hc|exact Hf|].
    intros l Hl Hge. unfold R in Hge.
    pose proof (reach_root_bound _ _ _ Hh (Hc _ Hrt) Hl). lia. }
  split; [split_and!|].
  - split; [done|]. rewrite Forall_forall in *. intros rt Hrt.
    eapply root_ok_ext; eauto.
  - by split.
  - intros l (rt & Hrt & Hl) (rt2 & Hrt2 & Hl2).
    apply (Hout _ Hrt) in Hl. rewrite Forall_forall in Hc, Hin'.
    pose proof (reach_root_bound _ _ _ Hh (Hc _ Hrt) Hl).
    assert (HR : R l) by (eapply reach_root_in; eauto).
    unfold R in HR. lia.
  - apply collections_same. intros rt Hrt. by apply Hout.
Qed.

End Separation.

Section Isolation.
Context `{GoLib}.

Lemma Inv_everywhere h : heap_ok h → Inv (λ _, True) h.
Proof.
  intros Hh. split_and!; [done|done|]. intros l o _ _. destruct o; simpl; done.
Qed.

Lemma append_view s vs st s' st' :
  heap_ok (heap st) → slice_ok (heap st) s → append s vs st = Ok (s', st') →
  slice_view (heap st') s' = slice_view (heap st) s ++ vs.
Proof.
  intros Hh Hs Hrun.
  assert (Hwp : wp True (λ _, True) (append s vs)
            (λ s' st', slice_view (heap st') s' = slice_view (heap st) s ++ vs) st).
  { apply wp_append; [by apply Inv_everywhere|done|by destruct s|]. auto. }
  unfold wp in Hwp. rewrite Hrun in Hwp. tauto.
Qed.

Lemma bind_Ok {A B} (c : M A) (k : A → M B) st b st' :
  bind c k st = Ok (b, st') → ∃ a st1, c st = Ok (a, st1) ∧ k a st1 = Ok (b, st').
Proof.
  unfold bind. destruct (c st) as [[a st1]|]; [|done]. eauto.
Qed.

Lemma OnBeforeRequest_view c f st c' st' :
  client_ok (heap st) c → OnBeforeRequest c f st = Ok (c', st') →
  slice_view (heap st') (udBeforeRequest c') =
    slice_view (heap st) (udBeforeRequest c) ++ [VRequestMiddleware f].
Proof.
  intros [Hh Hc] Hrun. apply roots_ok_fields in Hc.
  unfold OnBeforeRequest in Hrun.
  apply bind_Ok in Hrun as (s & st1 & Happ & Hret). injection Hret as <- <-.
  simpl. eapply append_view; [done| |done]. tauto.
Qed.

Lemma OnAfterResponse_view c f st c' st' :
  client_ok (heap st) c → OnAfterResponse c f st = Ok (c', st') →
  slice_view (heap st') (afterResponse c') =
    slice_view (heap st) (afterResponse c) ++ [VResponseMiddleware f].
Proof.
  intros [Hh Hc] Hrun. apply roots_ok_fields in Hc.
  unfold OnAfterResponse in Hrun.
  apply bind_Ok in Hrun as (s & st1 & Happ & Hret). injection Hret as <- <-.
  simpl. eapply append_view; [done| |done]. tauto.
Qed.

(** A mutation of one field of a client does not show in its other fields,
    and leaves the fields isolated. *)
Lemma isolated_mutate m c st c' st' :
  client_ok (heap st) c → isolated (heap st) c → mutate m c st = Ok (c', st') →
  client_ok (heap st') c' ∧ isolated (heap st') c' ∧ log c' = log c ∧
  ∀ j rt, j ≠ target m → roots c !! j = Some rt →
          roots c' !! j = Some rt ∧ same_view (heap st) (heap st') rt.
Proof.
  intros [Hh Hc] Hiso Hrun.
  destruct (target_root c m) as [rti Hrti].
  assert (Hrti_ok : root_ok (heap st) rti).
  { rewrite Forall_forall in Hc. apply Hc. by eapply list_elem_of_lookup_2. }
  destruct (mutate_frame m c st c' st' [rti]) as (HI & Hf & He & Hmut); [done| | |done|].
  { by constructor. }
  { intros rt Hrt. assert (rt = rti) as -> by congruence. set_solver. }
  destruct HI as (Hh' & Hfr' & Hcl').
  destruct Hmut as [(rt' & Hroots & Hok' & Hin') Hlog].
  assert (Hi_lt : target m < length (roots c)) by (by eapply lookup_lt_Some).
  assert (Hout : ∀ j rt, j ≠ target m → roots c !! j = Some rt →
            same_view (heap st) (heap st') rt ∧
            (∀ l, reach_root (heap st') rt l ↔ reach_root (heap st) rt l) ∧
            ∀ l, reach_root (heap st) rt l → ¬ region (heap st) [rti] l).
  { intros j rt Hj Hrt.
    assert (Hrt_ok : root_ok (heap st) rt).
    { rewrite Forall_forall in Hc. apply Hc. by eapply list_elem_of_lookup_2. }
    assert (Hno : ∀ l, reach_root (heap st) rt l → ¬ region (heap st) [rti] l).
    { intros l Hl [(rt2 & Hrt2 & Hl2)|Hge].
      - apply list_elem_of_singleton in Hrt2 as ->.
        exact (Hiso j (target m) rt rti l Hj Hrt Hrti Hl Hl2).
      - pose proof (reach_root_bound _ _ _ Hh Hrt_ok Hl). lia. }
    destruct (outside_unchanged _ _ _ rt Hh Hrt_ok Hf Hno) as [Hv Hr]. done. }
  split_and!.
  - split; [done|]. rewrite Forall_forall. intros rt Hrt. rewrite Hroots in Hrt.
    apply list_elem_of_lookup in Hrt as [j Hj].
    destruct (decide (target m = j)) as [<-|Hne].
    + rewrite list_lookup_insert_eq in Hj by done. by injection Hj as <-.
    + rewrite list_lookup_insert_ne in Hj by done.
      eapply root_ok_ext; [exact He|]. rewrite Forall_forall in Hc. apply Hc.
      by eapply list_elem_of_lookup_2.
  - intros i j a b l Hij Ha Hb Hla Hlb. rewrite Hroots in Ha, Hb.
    destruct (decide (target m = i)) as [<-|Hi]; destruct (decide (target m = j)) as [<-|Hj];
      [done| | |].
    + rewrite list_lookup_insert_eq in Ha by done. injection Ha as <-.
      rewrite list_lookup_insert_ne in Hb by done.
      destruct (Hout j b) as (_ & Hr & Hno); [done|done|].
      apply Hr in Hlb. apply (Hno _ Hlb). exact (reach_root_in _ _ _ _ Hcl' Hin' Hla).
    + rewrite list_lookup_insert_eq in Hb by done. injection Hb as <-.
      rewrite list_lookup_insert_ne in Ha by done.
      destruct (Hout i a) as (_ & Hr & Hno); [done|done|].
      apply Hr in Hla. apply (Hno _ Hla). exact (reach_root_in _ _ _ _ Hcl' Hin' Hlb).
    + rewrite list_lookup_insert_ne in Ha, Hb by done.
      destruct (Hout i a) as (_ & Hra & _); [done|done|].
      destruct (Hout j b) as (_ & Hrb & _); [done|done|].
      apply Hra in Hla. apply Hrb in Hlb. exact (Hiso i j a b l Hij Ha Hb Hla Hlb).
  - done.
  - intros j rt Hj Hrt. split.
    + rewrite Hroots. by rewrite list_lookup_insert_ne.
    + by destruct (Hout j rt) as (Hv & _).
Qed.

Lemma mutate_stage_lists m c st c' st' :
  client_ok (heap st) c → isolated (heap st) c → mutate m c st = Ok (c', st') →
  client_ok (heap st') c' ∧ isolated (heap st') c' ∧ log c' = log c ∧
  slice_view (heap st') (beforeRequest c') = slice_view (heap st) (beforeRequest c) ∧
  slice_view (heap st') (udBeforeRequest c') =
    slice_view (heap st) (udBeforeRequest c) ++ (VRequestMiddleware <$> registered_request [m]) ∧
  slice_view (heap st') (afterResponse c') =
    slice_view (heap st) (afterResponse c) ++ (VResponseMiddleware <$> registered_response [m]).
Proof.
  intros Hok Hiso Hrun.
  destruct (isolated_mutate m c st c' st' Hok Hiso Hrun) as (Hok' & Hiso' & Hlog & Hother).
  split; [done|]. split; [done|]. split; [done|].
  assert (H5 : target m ≠ 5) by (destruct m; simpl; lia).
  destruct (Hother 5 (RSlice (beforeRequest c)) (not_eq_sym H5) eq_refl) as [Hb Hbv].
  injection Hb as Hb. simpl in Hbv. rewrite Hb. split; [done|].
  destruct (decide (target m = 6)) as [H6|H6]; [|destruct (decide (target m = 7)) as [H7|H7]].
  - destruct m; simpl in H6; try lia. simpl in *.
    destruct (Hother 7 (RSlice (afterResponse c)) ltac:(lia) eq_refl) as [Ha Hav].
    injection Ha as Ha. simpl in Hav. rewrite Ha, app_nil_r. split; [|done].
    by eapply OnBeforeRequest_view.
  - destruct m; simpl in H7; try lia. simpl in *.
    destruct (Hother 6 (RSlice (udBeforeRequest c)) ltac:(lia) eq_refl) as [Hu Huv].
    injection Hu as Hu. simpl in Huv. rewrite Hu, app_nil_r. split; [done|].
    by eapply OnAfterResponse_view.
  - destruct (Hother 6 (RSlice (udBeforeRequest c)) (not_eq_sym H6) eq_refl) as [Hu Huv].
    destruct (Hother 7 (RSlice (afterResponse c)) (not_eq_sym H7) eq_refl) as [Ha Hav].
    injection Hu as Hu. injection Ha as Ha. simpl in Huv, Hav. rewrite Hu, Ha.
    destruct m; simpl in *; try lia; rewrite !app_nil_r; done.
Qed.

Lemma configure_stage_lists ops c st c' st' :
  client_ok (heap st) c → isolated (heap st) c → configure ops c st = Ok (c', st') →
  client_ok (heap st') c' ∧ isolated (heap st') c' ∧ log c' = log c ∧
  slice_view (heap st') (beforeRequest c') = slice_view (heap st) (beforeRequest c) ∧
  slice_view (heap st') (udBeforeRequest c') =
    slice_view (heap st) (udBeforeRequest c) ++ (VRequestMiddleware <$> registered_request ops) ∧
  slice_view (heap st') (afterResponse c') =
    slice_view (heap st) (afterResponse c) ++ (VResponseMiddleware <$> registered_response ops).
Proof.
  revert c st. induction ops as [|m ops IH]; intros c st Hok Hiso Hrun; simpl in Hrun.
  - injection Hrun as <- <-. simpl. rewrite !app_nil_r. done.
  - apply bind_Ok in Hrun as (c1 & st1 & Hm & Hrest).
    destruct (mutate_stage_lists m c st c1 st1 Hok Hiso Hm)
      as (Hok1 & Hiso1 & Hl1 & Hb1 & Hu1 & Ha1).
    destruct (IH c1 st1 Hok1 Hiso1 Hrest) as (Hok' & Hiso' & Hl & Hb & Hu & Ha).
    split; [done|]. split; [done|]. split; [congruence|].
    rewrite Hb, Hu, Ha, Hb1, Hu1, Ha1.
    split; [done|].
    change (m :: ops) with ([m] ++ ops).
    unfold registered_request, registered_response.
    rewrite !omap_app, !fmap_app, !app_assoc. done.
Qed.

(** The client made by [C]: its fields are isolated, and the two slice
    literals hold the built-in stages. *)
Lemma C_spec st :
  heap_ok (heap st) →
  ∃ c st', C st = Ok (c, st') ∧ events st' = events st ∧
    client_ok (heap st') c ∧ isolated (heap st') c ∧
    slice_view (heap st') (beforeRequest c) = VRequestMiddleware <$> builtin_request ∧
    slice_view (heap st') (udBeforeRequest c) = [] ∧
    slice_view (heap st') (afterResponse c) = VResponseMiddleware <$> builtin_response ∧
    log c = Some defaultLogger ∧
    http.CheckRedirect (httpClient c) = bound_defaultCheckRedirect.
Proof.
  intros Hh. eexists _, _. split; [reflexivity|]. simpl.
  set (b := Array _). set (a := Array _).
  assert (Hb : ((heap st ++ [b]) ++ [a]) !! length (heap st) = Some b).
  { rewrite lookup_app_l by (rewrite length_app; simpl; lia).
    rewrite lookup_app_r by lia. by rewrite Nat.sub_diag. }
  assert (Ha : ((heap st ++ [b]) ++ [a]) !! length (heap st ++ [b]) = Some a).
  { rewrite lookup_app_r by lia. by rewrite Nat.sub_diag. }
  assert (He : ext (heap st) ((heap st ++ [b]) ++ [a])).
  { eapply ext_trans; apply ext_alloc. }
  split; [done|]. split_and!.
  - split.
    + apply heap_ok_intro. intros l m k s Hl Hk.
      eapply slice_ok_ext; [exact He|].
      destruct (decide (l < length (heap st))) as [Hlt|Hge].
      * rewrite <- app_assoc, lookup_app_l in Hl by done. eapply heap_ok_lookup; eauto.
      * rewrite <- app_assoc, lookup_app_r in Hl by lia.
        destruct (l - length (heap st)) as [|[|n]]; simpl in Hl; done.
    + apply roots_ok_fields. simpl. unfold slice_ok. simpl. rewrite Ha, Hb.
      subst a b. simpl. split_and!; done || lia.
  - assert (Hwhere : ∀ i x l,
      [RValues None; RSlice nil_slice; RStrings None; RValues None; RValues None;
       RSlice (Slice (Some (length (heap st))) 4 4); RSlice nil_slice;
       RSlice (Slice (Some (length (heap st ++ [b]))) 2 2)] !! i = Some x →
      reach_root ((heap st ++ [b]) ++ [a]) x l →
      (i = 5 ∧ l = length (heap st)) ∨ (i = 7 ∧ l = length (heap st ++ [b]))).
    { intros i x l Hx Hl.
      destruct i as [|[|[|[|[|[|[|[|i]]]]]]]]; simpl in Hx; simplify_eq; simpl in Hl;
        unfold reach_values in *;
        repeat match goal with
               | H : _ ∨ _ |- _ => destruct H
               | H : ∃ _, _ |- _ => destruct H
               | H : _ ∧ _ |- _ => destruct H
               end; simplify_eq; auto. }
    intros i j x y l Hij Hx Hy Hlx Hly.
    destruct (Hwhere i x l Hx Hlx) as [[-> ->]|[-> ->]];
      destruct (Hwhere j y _ Hy Hly) as [[-> Hl]|[-> Hl]]; try done;
      rewrite length_app in Hl; simpl in Hl; lia.
  - unfold slice_view. simpl. by rewrite Hb.
  - done.
  - unfold slice_view. simpl. by rewrite Ha.
  - done.
  - done.
Qed.

End Isolation.

Section PipelineFacts.
Context `{GoLib} `{Collaborators}.

Lemma state_eta st : State (heap st) (events st) = st.
Proof. by destruct st. Qed.

Lemma run_RequestMiddleware_client fs r :
  client (run_RequestMiddleware fs r).1.1 = client r.
Proof.
  revert r. induction fs as [|f fs IH]; intros r; simpl; [done|].
  pose proof (call_RequestMiddleware_client f (client r) r) as Hc.
  destruct (call_RequestMiddleware f (client r) r) as [r' [e|]]; simpl in *; [done|].
  specialize (IH r'). destruct (run_RequestMiddleware fs r') as [[r'' e'] called].
  simpl in *. congruence.
Qed.

Lemma run_RequestMiddleware_called fs r :
  (run_RequestMiddleware fs r).2 `prefix_of` fs ∧
  ((run_RequestMiddleware fs r).1.2 = None → (run_RequestMiddleware fs r).2 = fs).
Proof.
  revert r. induction fs as [|f fs IH]; intros r; simpl; [done|].
  destruct (call_RequestMiddleware f (client r) r) as [r' [e|]]; simpl.
  - split; [|done]. by apply (prefix_app_r [f] [f] fs).
  - specialize (IH r'). destruct (run_RequestMiddleware fs r') as [[r'' e'] called].
    simpl in *. destruct IH as [Hp He]. split.
    + by apply prefix_cons.
    + intros ->. by rewrite He.
Qed.

Lemma run_ResponseMiddleware_called c fs resp :
  (run_ResponseMiddleware c fs resp).2 `prefix_of` fs.
Proof.
  revert resp. induction fs as [|f fs IH]; intros resp; simpl; [done|].
  destruct (call_ResponseMiddleware f c resp) as [resp' [e|]]; simpl.
  - by apply (prefix_app_r [f] [f] fs).
  - specialize (IH resp'). destruct (run_ResponseMiddleware c fs resp') as [[r'' e'] called].
    simpl in *. by apply prefix_cons.
Qed.

Lemma run_RequestMiddleware_app fs1 fs2 r :
  run_RequestMiddleware (fs1 ++ fs2) r =
    match run_RequestMiddleware fs1 r with
    | (r1, Some e, called) => (r1, Some e, called)
    | (r1, None, called) =>
        let '(r2, e2, called2) := run_RequestMiddleware fs2 r1 in (r2, e2, called ++ called2)
    end.
Proof.
  revert r. induction fs1 as [|f fs1 IH]; intros r; simpl.
  - by destruct (run_RequestMiddleware fs2 r) as [[r2 e2] called2].
  - destruct (call_RequestMiddleware f (client r) r) as [r' [e|]]; [done|].
    rewrite IH. destruct (run_RequestMiddleware fs1 r') as [[r1 [e1|]] called]; [done|].
    by destruct (run_RequestMiddleware fs2 r1) as [[r2 e2] called2].
Qed.

Lemma range_RequestMiddleware_run ev fs r st :
  range_RequestMiddleware ev (VRequestMiddleware <$> fs) r st =
    let '(r', e, called) := run_RequestMiddleware fs r in
    Ok ((r', e), State (heap st) (events st ++ (ev <$> called))).
Proof.
  revert r st. induction fs as [|f fs IH]; intros r st; simpl.
  - unfold ret. by rewrite app_nil_r, state_eta.
  - unfold bind, emit. simpl.
    destruct (call_RequestMiddleware f (client r) r) as [r' [e|]]; [done|].
    rewrite IH. destruct (run_RequestMiddleware fs r') as [[r'' e'] called].
    simpl. by rewrite <- app_assoc.
Qed.

Lemma range_ResponseMiddleware_run c fs resp st :
  range_ResponseMiddleware c (VResponseMiddleware <$> fs) resp st =
    let '(resp', e, called) := run_ResponseMiddleware c fs resp in
    Ok ((resp', e), State (heap st) (events st ++ (EvAfterResponse <$> called))).
Proof.
  revert resp st. induction fs as [|f fs IH]; intros resp st; simpl.
  - unfold ret. by rewrite app_nil_r, state_eta.
  - unfold bind, emit. simpl.
    destruct (call_ResponseMiddleware f c resp) as [resp' [e|]]; [done|].
    rewrite IH. destruct (run_ResponseMiddleware c fs resp') as [[r'' e'] called].
    simpl. by rewrite <- app_assoc.
Qed.

Lemma setupRequest_client r : client (setupRequest r) = client r.
Proof.
  unfold setupRequest, setTrace, with_trace_context, setRequestHeaderAndCookie. simpl.
  destruct (RequestTrace r); simpl; [done|]. by destruct (trace (client r)).
Qed.

Lemma setupRequest_isSaveResponse r : isSaveResponse (setupRequest r) = isSaveResponse r.
Proof.
  unfold setupRequest, setTrace, with_trace_context, setRequestHeaderAndCookie. simpl.
  destruct (RequestTrace r); simpl; [done|]. by destruct (trace (client r)).
Qed.

Lemma do_unfold c r st uds bfs afs :
  slice_view (heap st) (udBeforeRequest (client r)) = VRequestMiddleware <$> uds →
  slice_view (heap st) (beforeRequest (client r)) = VRequestMiddleware <$> bfs →
  slice_view (heap st) (afterResponse (client r)) = VResponseMiddleware <$> afs →
  do c r st =
    match do_outcome c r st uds bfs afs with
    | Ok (r', resp, e, st') => Ok ((r', resp, e), st')
    | Panic => Panic
    end.
Proof.
  intros Hud Hbf Haf. unfold do, do_outcome.
  unfold bind at 1. unfold read_slice at 1. rewrite Hud.
  unfold bind at 1. rewrite range_RequestMiddleware_run.
  pose proof (run_RequestMiddleware_client uds r) as Hc1.
  destruct (run_RequestMiddleware uds r) as [[r1 e1] called1]. simpl in Hc1.
  destruct e1 as [e1|]; [done|].
  unfold bind at 1. unfold read_slice at 1. simpl heap. rewrite Hc1, Hbf.
  unfold bind at 1. rewrite range_RequestMiddleware_run.
  pose proof (run_RequestMiddleware_client bfs r1) as Hc2.
  destruct (run_RequestMiddleware bfs r1) as [[r2 e2] called2]. simpl in Hc2.
  destruct e2 as [e2|]; [simpl; by rewrite <- app_assoc|].
  simpl heap. simpl events. unfold dispatched.
  set (r3 := setupRequest r2).
  assert (Hc3 : client r3 = client r).
  { unfold r3. rewrite setupRequest_client. congruence. }
  unfold debug_events. change (RawRequest (set_StartTime time_Now r3)) with (RawRequest r3).
  unfold bind at 1.
  destruct (DebugLog c) eqn:Hdbg.
  - destruct (http.URL (RawRequest r3)) as [u|] eqn:Hu.
    + destruct (log c) as [lg|] eqn:Hlg.
      * rewrite bool_decide_eq_false_2 by (intros [_ [?|?]]; done).
        unfold logf, emit, bind. simpl.
        destruct (httpClient_Do (httpClient c) (RawRequest r3)) as [hr|e].
        2: { unfold ret. by rewrite <- !app_assoc. }
        destruct (negb (disableAutoReadResponse c) && negb (isSaveResponse r3)) eqn:Hauto.
        -- simpl. destruct (Response_ToBytes _) as [resp1 [e4|]].
           ++ unfold ret. simpl. by rewrite <- !app_assoc.
           ++ unfold read_slice. simpl. rewrite Hc3, Haf.
              rewrite range_ResponseMiddleware_run. simpl. rewrite ?Hc3.
              destruct (run_ResponseMiddleware (client r) afs resp1) as [[resp2 e5] called5].
              unfold ret. simpl. by rewrite <- !app_assoc.
        -- simpl. unfold read_slice. simpl. rewrite Hc3, Haf.
           rewrite range_ResponseMiddleware_run. simpl. rewrite ?Hc3.
           destruct (run_ResponseMiddleware (client r) afs _) as [[resp2 e5] called5].
           unfold ret. simpl. by rewrite <- !app_assoc.
      * rewrite bool_decide_eq_true_2 by auto. done.
    + rewrite bool_decide_eq_true_2 by auto. done.
  - rewrite bool_decide_eq_false_2 by (intros [? _]; done).
    unfold logf, emit, bind, ret. simpl.
    destruct (httpClient_Do (httpClient c) (RawRequest r3)) as [hr|e].
    2: { by rewrite <- !app_assoc. }
    destruct (negb (disableAutoReadResponse c) && negb (isSaveResponse r3)) eqn:Hauto.
    + simpl. destruct (Response_ToBytes _) as [resp1 [e4|]].
      * simpl. by rewrite <- !app_assoc.
      * unfold read_slice. simpl. rewrite Hc3, Haf.
        rewrite range_ResponseMiddleware_run. simpl. rewrite ?Hc3.
        destruct (run_ResponseMiddleware (client r) afs resp1) as [[resp2 e5] called5].
        simpl. by rewrite <- !app_assoc.
    + simpl. unfold read_slice. simpl. rewrite Hc3, Haf.
      rewrite range_ResponseMiddleware_run. simpl. rewrite ?Hc3.
      destruct (run_ResponseMiddleware (client r) afs _) as [[resp2 e5] called5].
      simpl. by rewrite <- !app_assoc.
Qed.

End PipelineFacts.

Section PipelineEvents.
Context `{GoLib} `{Collaborators}.

Lemma take_prefix_fmap {A B} (f : A → B) (l1 l : list A) :
  l1 `prefix_of` l → take (length l1) (f <$> l) = f <$> l1.
Proof.
  intros [k ->]. rewrite fmap_app. apply take_app_length'. by rewrite length_fmap.
Qed.

Lemma do_before_error c r st uds bfs r' e called :
  slice_view (heap st) (udBeforeRequest (client r)) = VRequestMiddleware <$> uds →
  slice_view (heap st) (beforeRequest (client r)) = VRequestMiddleware <$> bfs →
  run_RequestMiddleware (uds ++ bfs) r = (r', Some e, called) →
  do c r st = Ok ((r', zero_Response, Some e),
                  State (heap st)
                    (events st ++ take (length called)
                       ((EvUdBeforeRequest <$> uds) ++ (EvBeforeRequest <$> bfs)))).
Proof.
  intros Hud Hbf Hrun. rewrite run_RequestMiddleware_app in Hrun.
  unfold do. unfold bind at 1. unfold read_slice at 1. rewrite Hud.
  unfold bind at 1. rewrite range_RequestMiddleware_run.
  pose proof (run_RequestMiddleware_client uds r) as Hc1.
  pose proof (run_RequestMiddleware_called uds r) as [Hp1 Hall1].
  destruct (run_RequestMiddleware uds r) as [[r1 e1] called1]. simpl in *.
  destruct e1 as [e1|].
  - injection Hrun as -> -> ->. unfold ret.
    rewrite take_app_le by (rewrite length_fmap; by apply prefix_length).
    by rewrite take_prefix_fmap.
  - rewrite (Hall1 eq_refl) in *.
    unfold bind at 1. unfold read_slice at 1. simpl heap. rewrite Hc1, Hbf.
    unfold bind at 1. rewrite range_RequestMiddleware_run.
    pose proof (run_RequestMiddleware_called bfs r1) as [Hp2 _].
    destruct (run_RequestMiddleware bfs r1) as [[r2 e2] called2]. simpl in *.
    injection Hrun as -> -> <-. unfold ret. simpl.
    rewrite length_app, <- (length_fmap EvUdBeforeRequest uds), take_app_add'; [|done].
    by rewrite take_prefix_fmap, app_assoc.
Qed.

Lemma run_RequestMiddleware_first_error fs1 f fs2 r r1 r' e :
  run_RequestMiddleware fs1 r = (r1, None, fs1) →
  call_RequestMiddleware f (client r1) r1 = (r', Some e) →
  run_RequestMiddleware (fs1 ++ f :: fs2) r = (r', Some e, fs1 ++ [f]).
Proof.
  intros H1 Hf. rewrite run_RequestMiddleware_app, H1. simpl. by rewrite Hf.
Qed.

End PipelineEvents.

(** * The properties of the specification *)

Section CloneAndPipeline.
Context `{GoLib} `{Collaborators}.

Lemma mutate_all_separated ops c cc st c2 cc2 st2 :
  separated (heap st) c cc → mutate_all ops (c, cc) st = Ok ((c2, cc2), st2) →
  separated (heap st2) c2 cc2.
Proof.
  revert c cc st. induction ops as [|[who m] ops IH]; intros c cc st Hsep Hrun; simpl in Hrun.
  - by injection Hrun as <- <- <-.
  - apply bind_Ok in Hrun as ([c1 cc1] & st1 & Hone & Hrest).
    eapply IH; [|exact Hrest]. destruct who; simpl in Hone.
    + apply bind_Ok in Hone as (c' & st' & Hm & Hret). injection Hret as <- <- <-.
      apply separated_sym.
      by destruct (separated_mutate m (heap st) cc c c' st st' eq_refl
                     (separated_sym _ _ _ Hsep) Hm).
    + apply bind_Ok in Hone as (cc' & st' & Hm & Hret). injection Hret as <- <- <-.
      by destruct (separated_mutate m (heap st) c cc cc' st st' eq_refl Hsep Hm).
Qed.

(** X1. The first revision of [Clone] (lines 1039-1067): it returns for every
    client of the store, and from then on, whatever mutations the original
    and the copy go through and in whatever order, a mutation of the copy
    changes no collection of the original and a mutation of the original
    changes no collection of the copy. The cookies are read as the list of
    pointers the slice holds: [cloneCookies] copies the pointers, so the two
    lists are separate and the cookies they point at are the same. *)
Theorem Clone_no_aliasing c st :
  client_ok (heap st) c →
  ∃ cc st1, Clone c st = Ok (cc, st1) ∧
    ∀ ops c2 cc2 st2, mutate_all ops (c, cc) st1 = Ok ((c2, cc2), st2) →
    ∀ m,
      (∀ cc3 st3, mutate m cc2 st2 = Ok (cc3, st3) →
                  collections (heap st3) c2 = collections (heap st2) c2) ∧
      (∀ c3 st3, mutate m c2 st2 = Ok (c3, st3) →
                 collections (heap st3) cc2 = collections (heap st2) cc2).
Proof.
  intros Hok. destruct (Clone_separated c st Hok) as (cc & st1 & Hclone & Hsep & _).
  exists cc, st1. split; [done|]. intros ops c2 cc2 st2 Hrun m.
  pose proof (mutate_all_separated ops c cc st1 c2 cc2 st2 Hsep Hrun) as Hsep2.
  split.
  - intros cc3 st3 Hm.
    by destruct (separated_mutate m (heap st2) c2 cc2 cc3 st2 st3 eq_refl Hsep2 Hm).
  - intros c3 st3 Hm.
    by destruct (separated_mutate m (heap st2) cc2 c2 c3 st2 st3 eq_refl
                   (separated_sym _ _ _ Hsep2) Hm).
Qed.

(** C3. A before-request middleware [f], user-registered or built-in, returns
    an error [e] after the middleware [fs1] before it returned nil: [do]
    returns that error with an empty response; the events of the call are the
    calls of [fs1] and of [f] and nothing else, so no later middleware runs
    and the transport is not invoked. *)
Theorem do_fail_fast c r st uds bfs fs1 f fs2 r1 r' e :
  slice_view (heap st) (udBeforeRequest (client r)) = VRequestMiddleware <$> uds →
  slice_view (heap st) (beforeRequest (client r)) = VRequestMiddleware <$> bfs →
  uds ++ bfs = fs1 ++ f :: fs2 →
  run_RequestMiddleware fs1 r = (r1, None, fs1) →
  call_RequestMiddleware f (client r1) r1 = (r', Some e) →
  ∃ evs,
    do c r st = Ok ((r', zero_Response, Some e), State (heap st) (events st ++ evs)) ∧
    evs = take (S (length fs1)) ((EvUdBeforeRequest <$> uds) ++ (EvBeforeRequest <$> bfs)) ∧
    (last evs = Some (EvUdBeforeRequest f) ∨ last evs = Some (EvBeforeRequest f)) ∧
    (EvRoundTrip ∉ evs) ∧ (EvToBytes ∉ evs) ∧ (∀ g, EvAfterResponse g ∉ evs).
Proof.
  intros Hud Hbf Hsplit Hpass Hf.
  pose proof (run_RequestMiddleware_first_error fs1 f fs2 r r1 r' e Hpass Hf) as Hrun.
  rewrite <- Hsplit in Hrun.
  pose proof (do_before_error c r st uds bfs r' e _ Hud Hbf Hrun) as Hdo.
  rewrite length_app in Hdo. simpl in Hdo. rewrite Nat.add_1_r in Hdo.
  eexists. split; [exact Hdo|]. split; [done|].
  set (tagged := (EvUdBeforeRequest <$> uds) ++ (EvBeforeRequest <$> bfs)).
  assert (Hlen : length tagged = length (fs1 ++ f :: fs2)).
  { unfold tagged. by rewrite length_app, !length_fmap, <- length_app, Hsplit. }
  assert (Hstage : ∀ i ev, tagged !! i = Some ev →
            ∃ g, (uds ++ bfs) !! i = Some g ∧ (ev = EvUdBeforeRequest g ∨ ev = EvBeforeRequest g)).
  { intros i ev Hi. unfold tagged in Hi. apply lookup_app_Some in Hi as [Hi|[Hge Hi]].
    - apply list_lookup_fmap_Some in Hi as (g & -> & Hg). exists g.
      split; [|by left]. by apply lookup_app_l_Some.
    - rewrite length_fmap in Hge, Hi.
      apply list_lookup_fmap_Some in Hi as (g & -> & Hg). exists g.
      split; [|by right]. rewrite lookup_app_r by done. done. }
  split_and!.
  - assert (Hn : length (take (S (length fs1)) tagged) = S (length fs1)).
    { rewrite length_take, Hlen, length_app, length_cons. lia. }
    rewrite last_lookup, Hn, Nat.pred_succ, lookup_take_lt by lia.
    destruct (lookup_lt_is_Some_2 tagged (length fs1)) as [ev Hev].
    { rewrite Hlen, length_app, length_cons. lia. }
    destruct (Hstage _ _ Hev) as (g & Hg & Hcase). rewrite Hev.
    rewrite Hsplit, lookup_app_r, Nat.sub_diag in Hg by done. injection Hg as <-.
    destruct Hcase as [->| ->]; auto.
  - intros Hin. apply list_elem_of_lookup in Hin as [i Hi].
    apply lookup_take_Some in Hi as [Hi _].
    destruct (Hstage _ _ Hi) as (g & _ & [?|?]); done.
  - intros Hin. apply list_elem_of_lookup in Hin as [i Hi].
    apply lookup_take_Some in Hi as [Hi _].
    destruct (Hstage _ _ Hi) as (g & _ & [?|?]); done.
  - intros g0 Hin. apply list_elem_of_lookup in Hin as [i Hi].
    apply lookup_take_Some in Hi as [Hi _].
    destruct (Hstage _ _ Hi) as (g & _ & [?|?]); done.
Qed.

End CloneAndPipeline.

Section Policies.
Context `{GoLib} `{Collaborators}.

Lemma can_debug_decide c req :
  can_debug c req →
  bool_decide (DebugLog c = true ∧ (log c = None ∨ http.URL req = None)) = false.
Proof.
  intros Hd. apply bool_decide_eq_false_2. intros [Hdbg Hno].
  destruct (Hd Hdbg) as [[lg Hlg] [u Hu]]. destruct Hno; congruence.
Qed.

(** C4. The before-request middleware have all returned nil and the exchange
    succeeds with [httpResponse]. When auto-read is enabled on the client and
    the request is not marked save-to-file, [do] calls [ToBytes] on the
    response straight after the exchange: the response middleware run
    afterwards, on what [ToBytes] returned, and an error of [ToBytes] ends
    the call before any of them. When auto-read is disabled or the request is
    marked save-to-file, [do] does not call [ToBytes]: the response
    middleware get the response as the transport returned it. *)
Theorem do_auto_read c r st uds bfs afs r1 called httpResponse :
  slice_view (heap st) (udBeforeRequest (client r)) = VRequestMiddleware <$> uds →
  slice_view (heap st) (beforeRequest (client r)) = VRequestMiddleware <$> bfs →
  slice_view (heap st) (afterResponse (client r)) = VResponseMiddleware <$> afs →
  run_RequestMiddleware (uds ++ bfs) r = (r1, None, called) →
  can_debug c (RawRequest (dispatched r1)) →
  httpClient_Do (httpClient c) (RawRequest (dispatched r1)) = inl httpResponse →
  let r2 := dispatched r1 in
  let resp := {| ResponseRequest := Some r2; RawResponse := Some httpResponse |} in
  let pre := events st ++ (EvUdBeforeRequest <$> uds) ++ (EvBeforeRequest <$> bfs) ++
             debug_events c "%s %s" (RawRequest r2) ++ [EvRoundTrip] in
  (disableAutoReadResponse c = false ∧ isSaveResponse r2 = false →
     match Response_ToBytes resp with
     | (resp1, Some e) =>
         do c r st = Ok ((r2, resp1, Some e), State (heap st) (pre ++ [EvToBytes]))
     | (resp1, None) =>
         let '(resp2, e, ran) := run_ResponseMiddleware (client r2) afs resp1 in
         do c r st = Ok ((r2, resp2, e),
                         State (heap st) (pre ++ [EvToBytes] ++ (EvAfterResponse <$> ran)))
     end) ∧
  (disableAutoReadResponse c = true ∨ isSaveResponse r2 = true →
     let '(resp2, e, ran) := run_ResponseMiddleware (client r2) afs resp in
     do c r st = Ok ((r2, resp2, e), State (heap st) (pre ++ (EvAfterResponse <$> ran)))).
Proof.
  intros Hud Hbf Haf Hrun Hdbg HDo. cbv zeta.
  rewrite (do_unfold c r st uds bfs afs Hud Hbf Haf). unfold do_outcome.
  rewrite run_RequestMiddleware_app in Hrun.
  pose proof (run_RequestMiddleware_called uds r) as [_ Hall1].
  destruct (run_RequestMiddleware uds r) as [[ra [ea|]] calleda]; [done|].
  specialize (Hall1 eq_refl). simpl in Hall1. subst calleda.
  pose proof (run_RequestMiddleware_called bfs ra) as [_ Hall2].
  destruct (run_RequestMiddleware bfs ra) as [[rb eb] calledb].
  injection Hrun as -> -> <-. specialize (Hall2 eq_refl). simpl in Hall2. subst calledb.
  rewrite (can_debug_decide _ _ Hdbg), HDo.
  set (r2 := dispatched r1).
  set (resp := {| ResponseRequest := Some r2; RawResponse := Some httpResponse |}).
  split.
  - intros [Hauto Hsave]. rewrite Hauto, Hsave. simpl.
    destruct (Response_ToBytes resp) as [resp1 [e|]].
    + by rewrite <- !app_assoc.
    + destruct (run_ResponseMiddleware _ afs resp1) as [[resp2 e] ran].
      by rewrite <- !app_assoc.
  - intros Hoff.
    assert (negb (disableAutoReadResponse c) && negb (isSaveResponse r2) = false) as ->.
    { destruct Hoff as [-> | ->]; [done|]. by rewrite andb_false_r. }
    simpl. destruct (run_ResponseMiddleware _ afs resp) as [[resp2 e] ran].
    by rewrite <- !app_assoc.
Qed.

(** C5. [isPayloadForbid] holds exactly for GET without the payload-allow
    flag, for HEAD and for OPTIONS; setting the flag allows a GET body and
    changes nothing for HEAD and OPTIONS. *)
Theorem isPayloadForbid_spec (c : Client) (m : string) :
  (isPayloadForbid c m = true ↔
     (m = "GET" ∧ AllowGetMethodPayload c = false) ∨ m = "HEAD" ∨ m = "OPTIONS") ∧
  isPayloadForbid (EnableAllowGetMethodPayload c true) "GET" = false ∧
  (∀ a, isPayloadForbid (EnableAllowGetMethodPayload c a) "HEAD" = true) ∧
  (∀ a, isPayloadForbid (EnableAllowGetMethodPayload c a) "OPTIONS" = true).
Proof.
  split_and!.
  - unfold isPayloadForbid, http_MethodGet, http_MethodHead, http_MethodOptions.
    rewrite !orb_true_iff, andb_true_iff, !bool_decide_eq_true, negb_true_iff. tauto.
  - done.
  - intros a. reflexivity.
  - intros a. reflexivity.
Qed.

Lemma debug_redirect_run c req st :
  can_debug c req →
  debug_redirect c req st =
    Ok (tt, State (heap st) (events st ++ debug_events c "<redirect> %s %s" req)).
Proof.
  intros Hd. unfold debug_redirect, debug_events, can_debug in *.
  destruct (DebugLog c).
  - destruct (Hd eq_refl) as [[lg ->] [u ->]]. done.
  - unfold ret. by rewrite app_nil_r, state_eta.
Qed.

(** C6. With the default policy installed, the redirect check lets a hop
    through when fewer than 10 requests were made before it, and returns the
    error "stopped after 10 redirects" once the history holds 10 requests. *)
Theorem defaultCheckRedirect_limit c req via st :
  http.CheckRedirect (httpClient c) = bound_defaultCheckRedirect →
  can_debug c req →
  (length via < 10 →
     call_CheckRedirect c req via st =
       Ok (None, State (heap st) (events st ++ debug_events c "<redirect> %s %s" req))) ∧
  (10 ≤ length via →
     call_CheckRedirect c req via st =
       Ok (Some (errors_New "stopped after 10 redirects"), st)).
Proof.
  intros Hdef Hd. unfold call_CheckRedirect. rewrite Hdef. unfold defaultCheckRedirect.
  split; intros Hlen.
  - rewrite decide_False by lia. unfold bind. by rewrite debug_redirect_run.
  - by rewrite decide_True by lia.
Qed.

Lemma range_policies_allow i0 ps req via st :
  (∀ i f, ps !! i = Some (Some f) → f req via = None) →
  range_policies i0 ps req via st =
    Ok (None, State (heap st) (events st ++ policy_events i0 ps)).
Proof.
  revert i0 st. induction ps as [|[f|] ps IH]; intros i0 st Hall; simpl.
  - unfold ret. by rewrite app_nil_r, state_eta.
  - unfold bind, emit. rewrite (Hall 0 f eq_refl). rewrite IH.
    + simpl. by rewrite <- app_assoc.
    + intros i g Hi. exact (Hall (S i) g Hi).
  - apply IH. intros i g Hi. exact (Hall (S i) g Hi).
Qed.

Lemma range_policies_deny i0 ps req via st i f e :
  ps !! i = Some (Some f) → f req via = Some e →
  (∀ j g, j < i → ps !! j = Some (Some g) → g req via = None) →
  range_policies i0 ps req via st =
    Ok (Some e, State (heap st) (events st ++ policy_events i0 (take (S i) ps))).
Proof.
  revert i0 st i. induction ps as [|[g|] ps IH]; intros i0 st i Hi Hf Hbefore; [done| |].
  - destruct i as [|i]; simpl in Hi.
    + injection Hi as ->. simpl. unfold bind, emit. rewrite Hf. simpl.
      by destruct ps.
    + simpl. unfold bind, emit. rewrite (Hbefore 0 g ltac:(lia) eq_refl).
      rewrite (IH (S i0) _ i Hi Hf).
      * simpl. by rewrite <- app_assoc.
      * intros j h Hj Hh. apply (Hbefore (S j) h); [lia|done].
  - destruct i as [|i]; simpl in Hi; [done|]. simpl.
    apply (IH (S i0) st i Hi Hf). intros j h Hj Hh. apply (Hbefore (S j) h); [lia|done].
Qed.

(** C7. After [SetRedirectPolicy] with a non-empty list, the redirect check
    calls the policies in list order, skipping nil entries. The first policy
    to return an error ends the check with that error, and no later policy is
    called; when every policy returns nil the check returns nil. *)
Theorem SetRedirectPolicy_order c policies req via st :
  policies ≠ [] →
  let c' := SetRedirectPolicy c policies in
  (∀ i f e,
     policies !! i = Some (Some f) → f req via = Some e →
     (∀ j g, j < i → policies !! j = Some (Some g) → g req via = None) →
     call_CheckRedirect c' req via st =
       Ok (Some e, State (heap st) (events st ++ policy_events 0 (take (S i) policies)))) ∧
  ((∀ i f, policies !! i = Some (Some f) → f req via = None) →
   can_debug c req →
   call_CheckRedirect c' req via st =
     Ok (None, State (heap st)
                 (events st ++ policy_events 0 policies ++
                  debug_events c "<redirect> %s %s" req))).
Proof.
  intros Hne c'.
  assert (Hc' : http.CheckRedirect (httpClient c') = closure_SetRedirectPolicy policies).
  { unfold c', SetRedirectPolicy. rewrite decide_False; [done|].
    by destruct policies. }
  assert (Hdbg : debug_redirect c' req = debug_redirect c req).
  { unfold c', SetRedirectPolicy. by case_decide. }
  unfold call_CheckRedirect. rewrite Hc'. unfold redirect_closure. split.
  - intros i f e Hi Hf Hbefore. unfold bind.
    by rewrite (range_policies_deny 0 policies req via st i f e Hi Hf Hbefore).
  - intros Hall Hd. unfold bind. rewrite (range_policies_allow 0 policies req via st Hall).
    rewrite Hdbg, debug_redirect_run by done. simpl. by rewrite <- app_assoc.
Qed.

Lemma removeEmptyPort_colon h : removeEmptyPort (h +:+ ":") = h.
Proof.
  induction h as [|a h IH]; [done|].
  change (String a h +:+ ":") with (String a (h +:+ ":")).
  simpl. destruct (h +:+ ":") eqn:Hrest.
  - by destruct h.
  - by rewrite IH.
Qed.

(** C8. When the parsed URL has an empty port, host [h] followed by a colon,
    [setRequestURL] returns nil and sets both the request's host and the host
    of its URL to [h]. *)
Theorem setRequestURL_empty_port r url u h :
  url_Parse url = inl u →
  urlpkg.Host u = h +:+ ":" →
  ∃ r', setRequestURL r url = (r', None) ∧
        http.Host r' = h ∧ urlpkg.Host <$> http.URL r' = Some h.
Proof.
  intros Hparse Hhost. unfold setRequestURL. rewrite Hparse, Hhost.
  eexists. split; [reflexivity|]. simpl. by rewrite removeEmptyPort_colon.
Qed.

(** C9. A setter whose input the standard library rejects returns the client
    it was called on, in the state it was in: the store is as before and the
    only effect is one call of the client's logger. *)
Theorem setters_absorb_errors c lg st :
  log c = Some lg →
  (∀ proxyUrl e, url_Parse proxyUrl = inr e →
     SetProxyURL c proxyUrl st =
       Ok (c, State (heap st)
                (events st ++ [EvLog lg ErrorLevel "failed to parse proxy url %s: %v"
                                 [proxyUrl; error_text e]]))) ∧
  (∀ query params e, url_ParseQuery (strings_TrimSpace query) = (params, Some e) →
     SetCommonQueryString c query st =
       Ok (c, State (heap st)
                (events st ++ [EvLog lg WarnLevel "failed to parse query string (%s): %v"
                                 [query; error_text e]]))) ∧
  (∀ certFile keyFile e, tls_LoadX509KeyPair certFile keyFile = inr e →
     SetCertFromFile c certFile keyFile st =
       Ok (c, State (heap st)
                (events st ++ [EvLog lg ErrorLevel "failed to load client cert: %v"
                                 [error_text e]]))).
Proof.
  intros Hlog. split_and!.
  - intros proxyUrl e Hp. unfold SetProxyURL. rewrite Hp, Hlog. done.
  - intros query params e Hp. unfold SetCommonQueryString. rewrite Hp, Hlog. done.
  - intros certFile keyFile e Hp. unfold SetCertFromFile. rewrite Hp, Hlog. done.
Qed.

(** X5. The logger of C9 is there for every client that [C] made, however it
    was configured afterwards. *)
Lemma configured_client_has_logger st0 ops c st lg :
  heap_ok (heap st0) →
  (let* c := C in configure ops c) st0 = Ok (c, st) →
  is_Some (log (SetLogger c lg)) ∧ is_Some (log c).
Proof.
  intros Hh Hcfg. apply bind_Ok in Hcfg as (c1 & st1 & HC & Hcfg).
  destruct (C_spec st0 Hh) as (c1' & st1' & HC' & _ & Hok & Hiso & _ & _ & _ & Hlog & _).
  rewrite HC in HC'. injection HC' as <- <-.
  destruct (configure_stage_lists ops c1 st1 c st Hok Hiso Hcfg) as (_ & _ & Hlog' & _).
  split; [by destruct lg|]. rewrite Hlog', Hlog. eauto.
Qed.

Lemma exec_is_Some k d st d' st' :
  req.exec k d st = Ok (d', st') → is_Some d → is_Some d'.
Proof.
  intros Hrun Hd. destruct k; simpl in Hrun;
    try (apply bind_Ok in Hrun as (x & st1 & _ & Hret); injection Hret as <- <-; eauto).
  injection Hrun as <- <-. unfold req.SetDefaultClient. destruct c; eauto.
Qed.

(** C10. [SetDefaultClient] replaces the default client by a non-nil argument
    and keeps it on nil; whatever package-level functions a program calls,
    the default client that started as [C()] is never nil; and on a non-nil
    default client each wrapper is the method of that client. *)
Theorem SetDefaultClient_never_nil :
  (∀ c d, req.SetDefaultClient (Some c) d = Some c) ∧
  (∀ d, req.SetDefaultClient None d = d) ∧
  (∀ ks st d st',
     (let* d0 := req.defaultClient_init in req.exec_all ks d0) st = Ok (d, st') →
     is_Some (req.DefaultClient d)) ∧
  (∀ c, req.R (Some c) = ret (R c)) ∧
  (∀ c key value, req.SetCommonHeader (Some c) key value = SetCommonHeader c key value) ∧
  (∀ c cookies, req.SetCommonCookies (Some c) cookies = SetCommonCookies c cookies) ∧
  (∀ c m, req.OnBeforeRequest (Some c) m = OnBeforeRequest c m) ∧
  (∀ c m, req.OnAfterResponse (Some c) m = OnAfterResponse c m) ∧
  (∀ c a, req.EnableAllowGetMethodPayload (Some c) a = ret (EnableAllowGetMethodPayload c a)) ∧
  (∀ c b, req.DisableAutoReadResponse (Some c) b = ret (DisableAutoReadResponse c b)).
Proof.
  split_and!; try done.
  intros ks st d st' Hrun. apply bind_Ok in Hrun as (d0 & st0 & Hinit & Hrun).
  assert (Hd0 : is_Some d0).
  { unfold req.defaultClient_init in Hinit.
    apply bind_Ok in Hinit as (c & st1 & _ & Hret). injection Hret as <- <-. eauto. }
  clear Hinit. revert d0 st0 Hd0 Hrun.
  induction ks as [|k ks IH]; intros d0 st0 Hd0 Hrun; simpl in Hrun.
  - by injection Hrun as <- <-.
  - apply bind_Ok in Hrun as (d1 & st1 & Hk & Hrest).
    eapply IH; [|exact Hrest]. by eapply exec_is_Some.
Qed.

End Policies.

(** * Further properties of the code *)

Section PipelineMore.
Context `{GoLib} `{Collaborators}.

Lemma run_ResponseMiddleware_all c fs resp :
  (run_ResponseMiddleware c fs resp).1.2 = None → (run_ResponseMiddleware c fs resp).2 = fs.
Proof.
  revert resp. induction fs as [|f fs IH]; intros resp; simpl; [done|].
  destruct (call_ResponseMiddleware f c resp) as [resp' [e|]]; [done|].
  specialize (IH resp').
  destruct (run_ResponseMiddleware c fs resp') as [[r'' e'] called]. simpl in *.
  intros He. by rewrite IH.
Qed.

Lemma run_ResponseMiddleware_first_error c fs1 f fs2 resp resp1 resp' e :
  run_ResponseMiddleware c fs1 resp = (resp1, None, fs1) →
  call_ResponseMiddleware f c resp1 = (resp', Some e) →
  run_ResponseMiddleware c (fs1 ++ f :: fs2) resp = (resp', Some e, fs1 ++ [f]).
Proof.
  revert resp. induction fs1 as [|g fs1 IH]; intros resp Hrun Hcall; simpl in *.
  - injection Hrun as ->. by rewrite Hcall.
  - destruct (call_ResponseMiddleware g c resp) as [respg [eg|]]; [done|].
    destruct (run_ResponseMiddleware c fs1 respg) as [[ra ea] calleda] eqn:Hra.
    injection Hrun as -> -> ->.
    by rewrite (IH respg Hra Hcall).
Qed.

Lemma run_RequestMiddleware_nil_error uds bfs r r1 called :
  run_RequestMiddleware (uds ++ bfs) r = (r1, None, called) →
  ∃ ra, run_RequestMiddleware uds r = (ra, None, uds) ∧
        run_RequestMiddleware bfs ra = (r1, None, bfs) ∧ called = uds ++ bfs.
Proof.
  intros Hrun. rewrite run_RequestMiddleware_app in Hrun.
  pose proof (run_RequestMiddleware_called uds r) as [_ Hall1].
  destruct (run_RequestMiddleware uds r) as [[ra [ea|]] calleda]; [done|].
  specialize (Hall1 eq_refl). simpl in Hall1. subst calleda.
  pose proof (run_RequestMiddleware_called bfs ra) as [_ Hall2].
  destruct (run_RequestMiddleware bfs ra) as [[rb eb] calledb] eqn:Hb.
  injection Hrun as -> -> <-. specialize (Hall2 eq_refl). simpl in Hall2. subst calledb.
  exists ra. split_and!; [reflexivity|exact Hb|reflexivity].
Qed.

(** X13. When the exchange fails, [do] returns the transport's error with the
    empty response it started from: the body is not read and no response
    middleware is called. *)
Theorem do_transport_error c r st uds bfs afs r1 called e :
  slice_view (heap st) (udBeforeRequest (client r)) = VRequestMiddleware <$> uds →
  slice_view (heap st) (beforeRequest (client r)) = VRequestMiddleware <$> bfs →
  slice_view (heap st) (afterResponse (client r)) = VResponseMiddleware <$> afs →
  run_RequestMiddleware (uds ++ bfs) r = (r1, None, called) →
  can_debug c (RawRequest (dispatched r1)) →
  httpClient_Do (httpClient c) (RawRequest (dispatched r1)) = inr e →
  do c r st =
    Ok ((dispatched r1, zero_Response, Some e),
        State (heap st)
          (events st ++ (EvUdBeforeRequest <$> uds) ++ (EvBeforeRequest <$> bfs) ++
           debug_events c "%s %s" (RawRequest (dispatched r1)) ++ [EvRoundTrip])).
Proof.
  intros Hud Hbf Haf Hrun Hdbg HDo.
  rewrite (do_unfold c r st uds bfs afs Hud Hbf Haf). unfold do_outcome.
  destruct (run_RequestMiddleware_nil_error _ _ _ _ _ Hrun) as (ra & -> & -> & _).
  rewrite (can_debug_decide _ _ Hdbg), HDo. by rewrite <- !app_assoc.
Qed.

(** X14. The response middleware fail fast as well: when [f] returns an error
    after the response middleware [fs1] before it returned nil, [do] returns
    that error with the response as [f] left it, and the middleware after [f]
    are not called. *)
Theorem do_after_response_fail_fast c r st uds bfs afs r1 called httpResponse
    fs1 f fs2 resp1 resp' resp'' e :
  slice_view (heap st) (udBeforeRequest (client r)) = VRequestMiddleware <$> uds →
  slice_view (heap st) (beforeRequest (client r)) = VRequestMiddleware <$> bfs →
  slice_view (heap st) (afterResponse (client r)) = VResponseMiddleware <$> afs →
  run_RequestMiddleware (uds ++ bfs) r = (r1, None, called) →
  can_debug c (RawRequest (dispatched r1)) →
  httpClient_Do (httpClient c) (RawRequest (dispatched r1)) = inl httpResponse →
  let r2 := dispatched r1 in
  let resp := {| ResponseRequest := Some r2; RawResponse := Some httpResponse |} in
  (if negb (disableAutoReadResponse c) && negb (isSaveResponse r2)
   then Response_ToBytes resp else (resp, None)) = (resp1, None) →
  afs = fs1 ++ f :: fs2 →
  run_ResponseMiddleware (client r2) fs1 resp1 = (resp', None, fs1) →
  call_ResponseMiddleware f (client r2) resp' = (resp'', Some e) →
  do c r st =
    Ok ((r2, resp'', Some e),
        State (heap st)
          (events st ++ (EvUdBeforeRequest <$> uds) ++ (EvBeforeRequest <$> bfs) ++
           exchange_events c r2 ++ (EvAfterResponse <$> fs1 ++ [f]))).
Proof.
  intros Hud Hbf Haf Hrun Hdbg HDo r2 resp Hread -> Hfs1 Hf.
  rewrite (do_unfold c r st uds bfs _ Hud Hbf Haf). unfold do_outcome.
  destruct (run_RequestMiddleware_nil_error _ _ _ _ _ Hrun) as (ra & -> & -> & _).
  rewrite (can_debug_decide _ _ Hdbg), HDo. fold r2. fold resp.
  rewrite Hread.
  rewrite (run_ResponseMiddleware_first_error _ _ _ _ _ _ _ _ Hfs1 Hf).
  unfold exchange_events. by rewrite <- !app_assoc.
Qed.

(** X15. A nil error from [do] means that the whole pipeline ran: every
    registered request middleware, the exchange, the reading of the body
    unless it is switched off, and every response middleware, each once and
    in order. *)
Theorem do_nil_error_complete c r st uds bfs afs r' resp st' :
  slice_view (heap st) (udBeforeRequest (client r)) = VRequestMiddleware <$> uds →
  slice_view (heap st) (beforeRequest (client r)) = VRequestMiddleware <$> bfs →
  slice_view (heap st) (afterResponse (client r)) = VResponseMiddleware <$> afs →
  do c r st = Ok ((r', resp, None), st') →
  heap st' = heap st ∧
  events st' =
    events st ++ (EvUdBeforeRequest <$> uds) ++ (EvBeforeRequest <$> bfs) ++
    exchange_events c r' ++ (EvAfterResponse <$> afs).
Proof.
  intros Hud Hbf Haf. rewrite (do_unfold c r st uds bfs afs Hud Hbf Haf). unfold do_outcome.
  pose proof (run_RequestMiddleware_called uds r) as [_ Hall1].
  destruct (run_RequestMiddleware uds r) as [[ra [ea|]] calleda]; [intros [=]|].
  specialize (Hall1 eq_refl). simpl in Hall1. subst calleda.
  pose proof (run_RequestMiddleware_called bfs ra) as [_ Hall2].
  destruct (run_RequestMiddleware bfs ra) as [[rb [eb|]] calledb]; [intros [=]|].
  specialize (Hall2 eq_refl). simpl in Hall2. subst calledb.
  case_bool_decide; [intros [=]|].
  destruct (httpClient_Do _ _) as [hr|e]; [|intros [=]].
  unfold exchange_events.
  destruct (negb (disableAutoReadResponse c) && negb (isSaveResponse (dispatched rb)))
    eqn:Hauto.
  - destruct (Response_ToBytes _) as [resp1 [e4|]]; [intros [=]|].
    pose proof (run_ResponseMiddleware_all (client (dispatched rb)) afs resp1) as Hall3.
    destruct (run_ResponseMiddleware _ afs resp1) as [[resp2 e5] called5].
    intros [= <- <- -> <-]. specialize (Hall3 eq_refl). simpl in Hall3. subst called5.
    split; [done|]. rewrite Hauto. simpl. by rewrite <- !app_assoc.
  - pose proof (run_ResponseMiddleware_all (client (dispatched rb)) afs
                  {| ResponseRequest := Some (dispatched rb); RawResponse := Some hr |})
      as Hall3.
    destruct (run_ResponseMiddleware _ afs _) as [[resp2 e5] called5].
    intros [= <- <- -> <-]. specialize (Hall3 eq_refl). simpl in Hall3. subst called5.
    split; [done|]. rewrite Hauto. simpl. by rewrite <- !app_assoc.
Qed.

(** X16. A request URL that does not parse: [setRequestURL] returns the error
    and leaves the raw request as it is, and [setupRequest] drops that error,
    so the raw request goes on with the URL and host it had. *)
Theorem setupRequest_unparsable_URL r e :
  url_Parse (RequestURL r) = inr e →
  setRequestURL (RawRequest r) (RequestURL r) = (RawRequest r, Some e) ∧
  http.URL (RawRequest (setupRequest r)) = http.URL (RawRequest r) ∧
  http.Host (RawRequest (setupRequest r)) = http.Host (RawRequest r) ∧
  http.Method (RawRequest (setupRequest r)) = http.Method (RawRequest r).
Proof.
  intros Hp. unfold setupRequest, setRequestURL. rewrite Hp. simpl.
  split; [done|].
  unfold setTrace, with_trace_context, setRequestHeaderAndCookie. simpl.
  destruct (RequestTrace r); simpl; [done|]. by destruct (trace (client r)).
Qed.

(** X17. Which requests are traced: [setupRequest] attaches a trace context to
    the raw request exactly when the request has a trace of its own or
    tracing is enabled on its client ([EnableTraceAll]), in which case the
    request gets a fresh trace; a context that is already there stays. *)
Theorem setupRequest_traced r :
  http.traced (RawRequest (setupRequest r)) =
    http.traced (RawRequest r) || bool_decide (is_Some (RequestTrace r)) || trace (client r) ∧
  (is_Some (RequestTrace (setupRequest r)) ↔
     is_Some (RequestTrace r) ∨ trace (client r) = true) ∧
  (∀ c, http.traced (RawRequest (setupRequest (R (EnableTraceAll c true)))) = true) ∧
  (∀ c, http.traced (RawRequest (setupRequest (R (EnableTraceAll c false)))) = false).
Proof.
  split_and!.
  - unfold setupRequest, setTrace, with_trace_context, setRequestHeaderAndCookie,
      setRequestURL. simpl.
    destruct (url_Parse (RequestURL r)); simpl;
      destruct (RequestTrace r); simpl; rewrite ?orb_true_r; try done;
      destruct (trace (client r)); simpl; by rewrite ?orb_true_r, ?orb_false_r.
  - unfold setupRequest, setTrace, with_trace_context, setRequestHeaderAndCookie.
    destruct r as [cl url hdrs cks raw sv [tr|] started]; simpl.
    + split; [intros _; left; by eexists|intros _; by eexists].
    + destruct (trace cl); simpl.
      * split; [intros _; by right|intros _; by eexists].
      * split; [intros [x Hx]; done|intros [[x Hx]|Hx]; done].
  - intros c. unfold setupRequest, setTrace, setRequestURL. simpl.
    by destruct (url_Parse "").
  - intros c. unfold setupRequest, setTrace, setRequestURL. simpl.
    by destruct (url_Parse "").
Qed.


End PipelineMore.

Section Certificates.
Context `{GoLib}.

(** X19. Client certificates accumulate: [SetCerts] appends to the
    certificates of the TLS configuration, creating the configuration when
    the transport has none; two calls are one call with both lists; and
    [SetCertFromFile] with a pair that loads is [SetCerts] of the loaded
    certificate. The proxy setting is not touched. *)
Theorem SetCerts_accumulate c certs :
  tls.Certificates (tlsConfig (SetCerts c certs)).2 =
    tls.Certificates (tlsConfig c).2 ++ certs ∧
  (∀ more, SetCerts (SetCerts c certs) more = SetCerts c (certs ++ more)) ∧
  (∀ certFile keyFile cert st,
     tls_LoadX509KeyPair certFile keyFile = inl cert →
     SetCertFromFile c certFile keyFile st = Ok (SetCerts c [cert], st)) ∧
  tls.Certificates (tlsConfig (SetCerts (SetTLSClientConfig c None) certs)).2 = certs ∧
  Proxy (t (SetCerts c certs)) = Proxy (t c).
Proof.
  unfold SetCerts, SetTLSClientConfig, tlsConfig. split_and!.
  - by destruct (TLSClientConfig (t c)).
  - intros more. destruct (TLSClientConfig (t c)); simpl; by rewrite <- ?app_assoc.
  - intros certFile keyFile cert st Hload. unfold SetCertFromFile, tlsConfig.
    rewrite Hload. by destruct (TLSClientConfig (t c)).
  - done.
  - by destruct (TLSClientConfig (t c)).
Qed.

End Certificates.

(** ** Maps of slices *)

Section Quiet.
Context `{GoLib}.

Lemma quiet_ret {A} (a : A) : quiet (ret a).
Proof. intros st a' st' [= <- <-]. done. Qed.

Lemma quiet_bind {A B} (c : M A) (k : A → M B) :
  quiet c → (∀ a, quiet (k a)) → quiet (bind c k).
Proof.
  intros Hc Hk st b st' Hrun. apply bind_Ok in Hrun as (a & st1 & H1 & H2).
  rewrite (Hk _ _ _ _ H2). by eapply Hc.
Qed.

Lemma quiet_panic {A} : quiet (@panic A).
Proof. intros st a st' [=]. Qed.

Lemma quiet_alloc o : quiet (alloc o).
Proof. intros st a st' [= <- <-]. done. Qed.

Lemma quiet_store l o : quiet (store l o).
Proof. intros st a st' Hrun. injection Hrun as _ <-. done. Qed.

Lemma quiet_load_array l : quiet (load_array l).
Proof.
  intros st a st'. unfold load_array.
  destruct (heap st !! l) as [[cells|m|m]|]; intros [=]. by subst.
Qed.

Lemma quiet_load_values l : quiet (load_values l).
Proof.
  intros st a st'. unfold load_values.
  destruct (heap st !! l) as [[cells|m|m]|]; intros [=]. by subst.
Qed.

Lemma quiet_load_strings l : quiet (load_strings l).
Proof.
  intros st a st'. unfold load_strings.
  destruct (heap st !! l) as [[cells|m|m]|]; intros [=]. by subst.
Qed.

Lemma quiet_read_slice s : quiet (read_slice s).
Proof. intros st a st' [= <- <-]. done. Qed.

Lemma quiet_for_each {A} (l : list A) (body : A → M unit) :
  (∀ x, quiet (body x)) → quiet (for_each l body).
Proof.
  intros Hb. induction l as [|x l IH]; simpl; [apply quiet_ret|].
  apply quiet_bind; auto.
Qed.

Lemma quiet_append s vs : quiet (append s vs).
Proof.
  unfold append. case_decide.
  - destruct (data s); [|apply quiet_ret].
    apply quiet_bind; [apply quiet_load_array|]. intros cells.
    apply quiet_bind; [apply quiet_store|]. intros _. apply quiet_ret.
  - apply quiet_bind; [apply quiet_read_slice|]. intros old.
    apply quiet_bind; [apply quiet_alloc|]. intros l. apply quiet_ret.
Qed.

Lemma quiet_slice_of vs : quiet (slice_of vs).
Proof.
  unfold slice_of. apply quiet_bind; [apply quiet_alloc|]. intros l. apply quiet_ret.
Qed.

Lemma quiet_values_store r k s : quiet (values_store r k s).
Proof.
  unfold values_store. apply quiet_bind; [apply quiet_load_values|].
  intros m. apply quiet_store.
Qed.

Lemma quiet_values_index r k : quiet (values_index r k).
Proof.
  unfold values_index. apply quiet_bind; [apply quiet_load_values|].
  intros m. apply quiet_ret.
Qed.

Lemma quiet_strings_store r k v : quiet (strings_store r k v).
Proof.
  unfold strings_store. apply quiet_bind; [apply quiet_load_strings|].
  intros m. apply quiet_store.
Qed.

Lemma quiet_Values_Add r k v : quiet (Values_Add r k v).
Proof.
  unfold Values_Add. apply quiet_bind; [apply quiet_values_index|]. intros s.
  apply quiet_bind; [apply quiet_append|]. intros s'. apply quiet_values_store.
Qed.

Lemma quiet_Values_Set r k v : quiet (Values_Set r k v).
Proof.
  unfold Values_Set. apply quiet_bind; [apply quiet_slice_of|]. intros s.
  apply quiet_values_store.
Qed.

Lemma quiet_init_if_nil field make assign c :
  quiet make → quiet (init_if_nil field make assign c).
Proof.
  intros Hm. unfold init_if_nil. destruct field; [apply quiet_ret|].
  apply quiet_bind; [done|]. intros r. apply quiet_ret.
Qed.

End Quiet.

Section Views.
Context `{GoLib}.

Lemma heap_ok_of_wp {A} (comp : M A) st a st' :
  wp False (λ _, True) comp (λ _ _, True) st → comp st = Ok (a, st') →
  heap_ok (heap st') ∧ ext (heap st) (heap st').
Proof. unfold wp. intros Hwp Hrun. rewrite Hrun in Hwp. destruct Hwp as ([? _] & _ & ? & _). done. Qed.

Lemma returns_of_wp {A} R (comp : M A) (Q : A → state → Prop) st :
  wp False R comp Q st →
  ∃ a st', comp st = Ok (a, st') ∧ Inv R (heap st') ∧ frame R (heap st) (heap st') ∧
           ext (heap st) (heap st') ∧ Q a st'.
Proof. unfold wp. destruct (comp st) as [[a st']|]; [eauto|done]. Qed.

(** [append] in full: where the result lives and what it leaves alone. *)
Lemma append_spec s vs st :
  heap_ok (heap st) → slice_ok (heap st) s →
  ∃ s' st', append s vs st = Ok (s', st') ∧ events st' = events st ∧
    heap_ok (heap st') ∧ ext (heap st) (heap st') ∧ slice_ok (heap st') s' ∧
    slice_view (heap st') s' = slice_view (heap st) s ++ vs ∧
    (∀ l, data s' = Some l → data s = Some l ∨ length (heap st) ≤ l) ∧
    (∀ l, data s ≠ Some l → l < length (heap st) → heap st' !! l = heap st !! l).
Proof.
  intros Hh Hs.
  set (R := λ l : loc, data s = Some l ∨ length (heap st) ≤ l).
  assert (HI : Inv R (heap st)).
  { split_and!; [done|by right|].
    intros l o [Hl|Hl] Ho.
    - destruct (slice_ok_Array _ _ _ Hs Hl) as [cells Hc]. rewrite Hc in Ho.
      by injection Ho as <-.
    - apply lookup_lt_Some in Ho. lia. }
  destruct (returns_of_wp R (append s vs)
              (λ s' st', slice_ok (heap st') s' ∧ root_in R (RSlice s') ∧
                         slice_view (heap st') s' = slice_view (heap st) s ++ vs) st)
    as (s' & st' & Hrun & HI' & Hfr & He & Hs' & Hin & Hv).
  { apply wp_append; [done|done|by left|]. auto. }
  exists s', st'. split_and!; auto.
  - by eapply quiet_append.
  - apply HI'.
  - intros l Hne Hlt. apply Hfr. intros [?|?]; [done|lia].
Qed.

Lemma slice_view_stable h h' s :
  slice_ok h s → (∀ l, data s = Some l → h' !! l = h !! l) →
  slice_view h' s = slice_view h s.
Proof.
  intros Hs Hsame. unfold slice_view. destruct (data s) as [l|]; [|done].
  by rewrite Hsame.
Qed.

Lemma insert_fmap_agree {A B} (f g : A → B) (m : gmap string A) k x :
  (∀ k' a, k' ≠ k → m !! k' = Some a → f a = g a) →
  <[k := x]> (f <$> m) = <[k := x]> (g <$> m).
Proof.
  intros Hfg. apply map_eq. intros k'. destruct (decide (k' = k)) as [->|Hne].
  - by rewrite !lookup_insert_eq.
  - rewrite !lookup_insert_ne, !lookup_fmap by done.
    destruct (m !! k') as [a|] eqn:Ha; simpl; [|done]. f_equal. by eapply Hfg.
Qed.

Lemma values_store_run r k s st m :
  heap st !! r = Some (MapValues m) →
  values_store r k s st = Ok (tt, State (<[r := MapValues (<[k := s]> m)]> (heap st)) (events st)).
Proof. intros Hr. unfold values_store, bind, load_values. by rewrite Hr. Qed.

Lemma values_index_run r k st m :
  heap st !! r = Some (MapValues m) →
  values_index r k st = Ok (default nil_slice (m !! k), st).
Proof. intros Hr. unfold values_index, bind, load_values. by rewrite Hr. Qed.

Lemma lookup_default_slice_ok h r m k :
  heap_ok h → h !! r = Some (MapValues m) → slice_ok h (default nil_slice (m !! k)).
Proof.
  intros Hh Hr. destruct (m !! k) as [s|] eqn:Hk; simpl.
  - by eapply heap_ok_lookup.
  - apply slice_ok_nil.
Qed.

(** [Values.Add] on a map that owns its arrays. *)
Lemma Values_Add_spec F r k v st view :
  heap_ok (heap st) → (∀ l, F l → l < length (heap st)) → owned F (heap st) r →
  values_view (heap st) (Some r) = Some view →
  ∃ st', Values_Add r k v st = Ok (tt, st') ∧ events st' = events st ∧
    heap_ok (heap st') ∧ ext (heap st) (heap st') ∧ owned F (heap st') r ∧
    (∀ l, F l → heap st' !! l = heap st !! l) ∧
    values_view (heap st') (Some r) = Some (view_add view k v).
Proof.
  intros Hh HF (HFr & m & Hr & Hap & HFm) Hview.
  assert (view = slice_view (heap st) <$> m) as ->.
  { unfold values_view in Hview. rewrite Hr in Hview. by injection Hview. }
  set (s := default nil_slice (m !! k)).
  assert (Hs : slice_ok (heap st) s) by by eapply lookup_default_slice_ok.
  destruct (append_spec s [v] st Hh Hs)
    as (s' & st1 & Happ & Hev1 & Hh1 & He1 & Hs' & Hv1 & Hwhere & Hsame).
  assert (Hrs : ∀ l, data s = Some l → l ≠ r).
  { intros l Hl ->. destruct (slice_ok_Array _ _ _ Hs Hl) as [cells Hc]. congruence. }
  assert (Hrlt : r < length (heap st)) by by eapply lookup_lt_Some.
  assert (Hr1 : heap st1 !! r = Some (MapValues m)).
  { rewrite Hsame; [done| |done]. intros Hl. by eapply Hrs. }
  exists (State (<[r := MapValues (<[k := s']> m)]> (heap st1)) (events st1)).
  assert (Hrun : Values_Add r k v st =
            Ok (tt, State (<[r := MapValues (<[k := s']> m)]> (heap st1)) (events st1))).
  { unfold Values_Add. unfold bind at 1. rewrite (values_index_run _ _ _ _ Hr).
    fold s. unfold bind at 1. rewrite Happ. by apply values_store_run. }
  assert (Hwp : heap_ok (<[r := MapValues (<[k := s']> m)]> (heap st1)) ∧
                ext (heap st) (<[r := MapValues (<[k := s']> m)]> (heap st1))).
  { refine (heap_ok_of_wp (Values_Add r k v) st tt (State _ _) _ Hrun).
    apply wp_Values_Add; [by apply Inv_everywhere|done| |done].
    apply values_ok_Some. eauto. }
  destruct Hwp as [Hh' He'].
  assert (Hlen1 : length (heap st) ≤ length (heap st1)) by by apply ext_length.
  assert (Hs'r : ∀ l, data s' = Some l → l ≠ r).
  { intros l Hl ->. destruct (Hwhere _ Hl) as [Hd|Hd]; [by eapply Hrs|lia]. }
  (* an entry under another key keeps its array *)
  assert (Hother : ∀ k2 s2 l, k2 ≠ k → m !! k2 = Some s2 → data s2 = Some l →
            data s ≠ Some l ∧ l < length (heap st) ∧ l ≠ r).
  { intros k2 s2 l Hne Hk2 Hl.
    pose proof (heap_ok_lookup _ _ _ _ _ Hh Hr Hk2) as Hs2.
    destruct (slice_ok_Array _ _ _ Hs2 Hl) as [cells Hc].
    split_and!.
    - intros Hsl. unfold s in Hsl. destruct (m !! k) as [s0|] eqn:Hk; simpl in Hsl; [|done].
      apply Hne. by eapply (Hap k2 k s2 s0 l).
    - by eapply lookup_lt_Some.
    - intros ->. congruence. }
  split_and!; simpl; auto.
  - (* owned *)
    split; [done|]. exists (<[k := s']> m). split_and!.
    + apply list_lookup_insert_eq. lia.
    + intros k1 k2 s1 s2 l H1 H2 Hl1 Hl2.
      destruct (decide (k1 = k2)) as [|Hne]; [done|exfalso].
      destruct (decide (k1 = k)) as [->|Hk1]; destruct (decide (k2 = k)) as [->|Hk2];
        [done| | |].
      * rewrite lookup_insert_eq in H1. rewrite lookup_insert_ne in H2 by done.
        injection H1 as <-. destruct (Hother _ _ _ Hk2 H2 Hl2) as (Hd & Hlt & _).
        destruct (Hwhere _ Hl1) as [?|?]; [done|lia].
      * rewrite lookup_insert_eq in H2. rewrite lookup_insert_ne in H1 by done.
        injection H2 as <-. destruct (Hother _ _ _ Hk1 H1 Hl1) as (Hd & Hlt & _).
        destruct (Hwhere _ Hl2) as [?|?]; [done|lia].
      * rewrite lookup_insert_ne in H1, H2 by done. apply Hne. by eapply Hap.
    + intros k1 s1 l H1 Hl1 HFl. destruct (decide (k1 = k)) as [->|Hk1].
      * rewrite lookup_insert_eq in H1. injection H1 as <-.
        destruct (Hwhere _ Hl1) as [Hd|Hd].
        -- unfold s in Hd. destruct (m !! k) as [s0|] eqn:Hk; simpl in Hd; [|done].
           by eapply HFm.
        -- apply HF in HFl. lia.
      * rewrite lookup_insert_ne in H1 by done. by eapply HFm.
  - (* frame *)
    intros l HFl. rewrite list_lookup_insert_ne by (intros ->; done).
    apply Hsame; [|by apply HF]. intros Hd.
    unfold s in Hd. destruct (m !! k) as [s0|] eqn:Hk; simpl in Hd; [|done].
    by eapply HFm.
  - (* view *)
    unfold values_view. rewrite list_lookup_insert_eq by lia.
    f_equal. rewrite fmap_insert. unfold view_add.
    rewrite lookup_fmap.
    assert (default [] (slice_view (heap st) <$> m !! k) = slice_view (heap st) s) as ->.
    { unfold s. destruct (m !! k); simpl; [done|]. done. }
    assert (slice_view (<[r := MapValues (<[k := s']> m)]> (heap st1)) s' =
            slice_view (heap st) s ++ [v]) as ->.
    { rewrite <- Hv1. apply slice_view_stable; [done|].
      intros l Hl. apply list_lookup_insert_ne. intros ->. by eapply Hs'r. }
    apply insert_fmap_agree. intros k2 s2 Hne Hk2.
    pose proof (heap_ok_lookup _ _ _ _ _ Hh Hr Hk2) as Hs2.
    apply slice_view_stable; [done|]. intros l Hl.
    destruct (Hother _ _ _ Hne Hk2 Hl) as (Hd & Hlt & Hlr).
    rewrite list_lookup_insert_ne by done. by apply Hsame.
Qed.

End Views.

Section PureViews.
Context {A : Type}.
Implicit Types (view : gmap string (list A)).

Lemma view_add_loop_lookup view k vs K :
  foldl (λ m v, view_add m k v) view vs !! K =
    if decide (K = k) then
      match vs with [] => view !! k | _ => Some (default [] (view !! k) ++ vs) end
    else view !! K.
Proof.
  revert view. induction vs as [|v vs IH]; intros view; simpl.
  - case_decide; by subst.
  - rewrite IH. unfold view_add. case_decide as HK.
    + subst K. rewrite lookup_insert_eq. simpl. destruct vs; simpl; [done|].
      by rewrite <- app_assoc.
    + by rewrite lookup_insert_ne.
Qed.

Lemma view_add_all_cons f view k vs entries :
  view_add_all f view ((k, vs) :: entries) =
    view_add_all f (foldl (λ m v, view_add m (f k) v) view vs) entries.
Proof. done. Qed.

Lemma view_add_all_lookup_other f view entries K :
  (∀ k vs, (k, vs) ∈ entries → vs ≠ [] → f k ≠ K) →
  view_add_all f view entries !! K = view !! K.
Proof.
  revert view. induction entries as [|[k vs] entries IH]; intros view Hno; [done|].
  rewrite view_add_all_cons, IH.
  - rewrite view_add_loop_lookup. case_decide as HK; [|done]. subst K.
    destruct vs as [|v vs]; [done|]. exfalso. eapply (Hno k (v :: vs)); [left|done|done].
  - intros k' vs' Hin. apply Hno. by right.
Qed.

Lemma view_add_all_lookup_key f view entries k vs :
  NoDup (f <$> entries.*1) → (k, vs) ∈ entries → vs ≠ [] →
  view_add_all f view entries !! f k = Some (default [] (view !! f k) ++ vs).
Proof.
  revert view. induction entries as [|[k0 vs0] entries IH]; intros view Hnd Hin Hvs.
  { by apply elem_of_nil in Hin. }
  simpl in Hnd. apply NoDup_cons in Hnd as [Hk0 Hnd].
  rewrite view_add_all_cons. apply elem_of_cons in Hin as [[= -> ->]|Hin].
  - rewrite view_add_all_lookup_other.
    + rewrite view_add_loop_lookup, decide_True by done. by destruct vs0.
    + intros k' vs' Hin' _ Heq. apply Hk0. rewrite <- Heq.
      apply list_elem_of_fmap. exists k'. split; [done|].
      apply list_elem_of_fmap. by exists (k', vs').
  - rewrite IH by done. rewrite view_add_loop_lookup, decide_False; [done|].
    intros Heq. apply Hk0. rewrite <- Heq.
    apply list_elem_of_fmap. exists k. split; [done|].
    apply list_elem_of_fmap. by exists (k, vs).
Qed.

(** Adding the entries of a map to an empty map gives the entries that have
    values. *)
Lemma view_add_all_empty f (src : gmap string (list A)) entries :
  entries ≡ₚ map_to_list src → (∀ k, is_Some (src !! k) → f k = k) →
  view_add_all f ∅ entries = with_values src.
Proof.
  intros Hperm Hf.
  assert (Hin : ∀ k vs, (k, vs) ∈ entries ↔ src !! k = Some vs).
  { intros k vs. rewrite Hperm. apply elem_of_map_to_list. }
  assert (Hfk : f <$> entries.*1 = entries.*1).
  { rewrite <- (list_fmap_id (entries.*1)) at 2. apply list_fmap_ext.
    intros i k Hk. apply list_elem_of_lookup_2 in Hk.
    apply list_elem_of_fmap in Hk as ([k' vs] & -> & Hk). simpl.
    apply Hf. apply Hin in Hk. eauto. }
  assert (Hnd : NoDup (f <$> entries.*1)).
  { rewrite Hfk, Hperm. apply NoDup_fst_map_to_list. }
  apply map_eq. intros K. unfold with_values.
  destruct (src !! K) as [vs|] eqn:HK.
  - destruct vs as [|v vs].
    + rewrite view_add_all_lookup_other.
      * rewrite lookup_empty. symmetry. apply map_lookup_filter_None. right.
        intros x Hx. simpl. rewrite HK in Hx. injection Hx as <-. auto.
      * intros k vs Hk Hvs Heq. apply Hin in Hk as Hk'.
        rewrite Hf in Heq by eauto. subst k. congruence.
    + rewrite <- (Hf K) at 1 by eauto.
      rewrite (view_add_all_lookup_key f ∅ entries K (v :: vs)); [|done|by apply Hin|done].
      rewrite lookup_empty. simpl. symmetry. by apply map_lookup_filter_Some.
  - rewrite view_add_all_lookup_other.
    + rewrite lookup_empty. symmetry. apply map_lookup_filter_None. by left.
    + intros k vs Hk Hvs Heq. apply Hin in Hk as Hk'.
      rewrite Hf in Heq by eauto. subst k. congruence.
Qed.

End PureViews.

Section PureStores.
Context {A : Type}.

Lemma store_all_union (view : gmap string A) entries :
  store_all view entries = list_to_map (reverse entries) ∪ view.
Proof.
  revert view. induction entries as [|[k v] entries IH]; intros view; simpl.
  - by rewrite (left_id_L ∅ (∪)).
  - unfold store_all in *. simpl. rewrite IH, reverse_cons, list_to_map_app. simpl.
    rewrite insert_empty, <- (assoc_L (∪)). f_equal.
    by rewrite insert_union_singleton_l.
Qed.

(** Storing pairs with distinct keys gives the same map in any order. *)
Lemma store_all_NoDup (view : gmap string A) entries :
  NoDup entries.*1 → store_all view entries = list_to_map entries ∪ view.
Proof.
  intros Hnd. rewrite store_all_union. f_equal.
  apply list_to_map_proper; [|apply reverse_Permutation].
  rewrite fmap_reverse. by rewrite reverse_Permutation.
Qed.

Lemma store_all_map_to_list (src : gmap string A) :
  store_all ∅ (map_to_list src) = src.
Proof.
  rewrite store_all_NoDup by apply NoDup_fst_map_to_list.
  by rewrite (right_id_L ∅ (∪)), list_to_map_to_list.
Qed.

End PureStores.

Section Loops.
Context `{GoLib}.

Lemma kept_refl F r st : heap_ok (heap st) → owned F (heap st) r → kept F r st st.
Proof. intros Hh Ho. split_and!; auto using ext_refl. Qed.

Lemma kept_trans F r st1 st2 st3 : kept F r st1 st2 → kept F r st2 st3 → kept F r st1 st3.
Proof.
  intros (Hev1 & Hh1 & He1 & Ho1 & Hf1) (Hev2 & Hh2 & He2 & Ho2 & Hf2).
  split_and!; [congruence|done|by eapply ext_trans|done|].
  intros l Hl. rewrite Hf2, Hf1; done.
Qed.

Lemma Values_Add_kept F r k v st view :
  heap_ok (heap st) → (∀ l, F l → l < length (heap st)) → owned F (heap st) r →
  values_view (heap st) (Some r) = Some view →
  ∃ st', Values_Add r k v st = Ok (tt, st') ∧ kept F r st st' ∧
         values_view (heap st') (Some r) = Some (view_add view k v).
Proof.
  intros Hh HF Ho Hv.
  destruct (Values_Add_spec F r k v st view Hh HF Ho Hv)
    as (st' & Hrun & Hev & Hh' & He & Ho' & Hf & Hv').
  exists st'. by split_and!.
Qed.

Lemma bounded_kept F r st st' :
  (∀ l, F l → l < length (heap st)) → kept F r st st' →
  ∀ l, F l → l < length (heap st').
Proof.
  intros HF (_ & _ & He & _) l Hl. apply ext_length in He. specialize (HF l Hl). lia.
Qed.

(** [for _, x := range xs { m.Add(k, g(x)) }] *)
Lemma add_loop_spec {X} F r k (g : X → val) xs st view :
  heap_ok (heap st) → (∀ l, F l → l < length (heap st)) → owned F (heap st) r →
  values_view (heap st) (Some r) = Some view →
  ∃ st', for_each xs (λ x, Values_Add r k (g x)) st = Ok (tt, st') ∧ kept F r st st' ∧
         values_view (heap st') (Some r) =
           Some (foldl (λ m v, view_add m k v) view (g <$> xs)).
Proof.
  revert st view. induction xs as [|x xs IH]; intros st view Hh HF Ho Hv; simpl.
  - exists st. split_and!; [done|by apply kept_refl|done].
  - destruct (Values_Add_kept F r k (g x) st view Hh HF Ho Hv) as (st1 & Hrun & Hk1 & Hv1).
    destruct (IH st1 (view_add view k (g x))) as (st2 & Hrun2 & Hk2 & Hv2);
      [apply Hk1|by eapply bounded_kept|apply Hk1|done|].
    exists st2. unfold bind. rewrite Hrun. split_and!; [done|by eapply kept_trans|done].
Qed.


(** The loops of [cloneHeaders] and [cloneUrlValues]: the source slices lie
    in [F] and read as in the store [h0] the clone started from. *)
Lemma clone_loop_spec F r (f : string → string) (entries : list (string * slice)) h0 st view :
  heap_ok (heap st) → (∀ l, F l → l < length (heap st)) → owned F (heap st) r →
  values_view (heap st) (Some r) = Some view →
  (∀ k s, (k, s) ∈ entries → slice_ok h0 s ∧ ∀ l, data s = Some l → F l) →
  (∀ l, F l → heap st !! l = h0 !! l) →
  ∃ st', for_each entries (λ '(k, vs),
           let* vals := read_slice vs in
           for_each vals (λ v, Values_Add r (f k) v)) st = Ok (tt, st') ∧
         kept F r st st' ∧
         values_view (heap st') (Some r) =
           Some (view_add_all f view (prod_map id (slice_view h0) <$> entries)).
Proof.
  revert st view.
  induction entries as [|[k s] entries IH]; intros st view Hh HF Ho Hv Hsrc Hh0; simpl.
  - exists st. split_and!; [done|by apply kept_refl|done].
  - destruct (Hsrc k s) as [Hs HFs]; [left|].
    assert (Hread : slice_view (heap st) s = slice_view h0 s).
    { apply slice_view_stable; [done|]. intros l Hl. apply Hh0. by apply HFs. }
    destruct (add_loop_spec F r (f k) id (slice_view h0 s) st view Hh HF Ho Hv)
      as (st1 & Hrun & Hk1 & Hv1).
    rewrite list_fmap_id in Hv1.
    destruct (IH st1 (foldl (λ m v, view_add m (f k) v) view (slice_view h0 s)))
      as (st2 & Hrun2 & Hk2 & Hv2);
      [apply Hk1|by eapply bounded_kept|apply Hk1|done| | |].
    { intros k' s' Hin. apply (Hsrc k' s'). by right. }
    { intros l Hl. destruct Hk1 as (_ & _ & _ & _ & Hf1). rewrite Hf1 by done. by apply Hh0. }
    exists st2. unfold bind at 1. unfold bind at 1. unfold read_slice at 1.
    rewrite Hread. simpl in Hrun. rewrite Hrun.
    split_and!; [done|by eapply kept_trans|done].
Qed.

Lemma heap_ok_alloc h o : heap_ok h → object_ok h o → heap_ok (h ++ [o]).
Proof.
  intros Hh Ho. unfold heap_ok. apply Forall_app. split.
  - eapply Forall_impl; [exact Hh|]. intros o' Ho'.
    eapply object_ok_ext; [apply ext_alloc|done].
  - apply Forall_singleton. eapply object_ok_ext; [apply ext_alloc|done].
Qed.

Lemma below_length_ext h h' : (∀ l, l < length h → h' !! l = h !! l) → ext h h'.
Proof.
  intros Hsame l o Hl. exists o. split; [|apply same_kind_refl].
  rewrite Hsame; [done|]. by eapply lookup_lt_Some.
Qed.

(** A fresh, empty map: what [make] returns. *)
Lemma make_values_owned st :
  heap_ok (heap st) →
  let st1 := State (heap st ++ [MapValues ∅]) (events st) in
  make_values st = Ok (length (heap st), st1) ∧ heap_ok (heap st1) ∧
  owned (λ l, l < length (heap st)) (heap st1) (length (heap st)) ∧
  values_view (heap st1) (Some (length (heap st))) = Some ∅ ∧
  (∀ l, l < length (heap st) → l < length (heap st1)) ∧
  (∀ l, l < length (heap st) → heap st1 !! l = heap st !! l).
Proof.
  intros Hh. simpl.
  assert (Hl : (heap st ++ [MapValues ∅]) !! length (heap st) = Some (MapValues ∅)).
  { rewrite lookup_app_r by lia. by rewrite Nat.sub_diag. }
  split_and!.
  - done.
  - apply heap_ok_alloc; [done|]. simpl. apply map_Forall_empty.
  - split; [lia|]. exists ∅. split_and!; [done| |].
    + intros k1 k2 s1 s2 l Hk1. by rewrite lookup_empty in Hk1.
    + intros k s l Hk. by rewrite lookup_empty in Hk.
  - unfold values_view. rewrite Hl. by rewrite fmap_empty.
  - intros l Hlt. rewrite length_app. simpl. lia.
  - intros l Hlt. by rewrite lookup_app_l.
Qed.

Lemma untouched_refl st : heap_ok (heap st) → untouched st st.
Proof. intros Hh. by split_and!. Qed.

Lemma untouched_length st st' : untouched st st' → length (heap st) ≤ length (heap st').
Proof. intros (_ & _ & Hsame). apply ext_length. by apply below_length_ext. Qed.

Lemma untouched_trans st1 st2 st3 : untouched st1 st2 → untouched st2 st3 → untouched st1 st3.
Proof.
  intros Hu1 Hu2. pose proof (untouched_length _ _ Hu1) as Hlen.
  destruct Hu1 as (Hev1 & Hh1 & Hs1). destruct Hu2 as (Hev2 & Hh2 & Hs2).
  split_and!; [congruence|done|]. intros l Hl. rewrite Hs2 by lia. by apply Hs1.
Qed.

Lemma clone_values_spec (f : string → string) r m st :
  heap_ok (heap st) → heap st !! r = Some (MapValues m) →
  ∃ vv st',
    (let* m := load_values r in
     let* h := make_values in
     let* _ := for_each (map_to_list m) (λ '(k, vs),
                 let* vals := read_slice vs in
                 for_each vals (λ v, Values_Add h (f k) v)) in
     ret (Some h)) st = Ok (Some vv, st') ∧
    untouched st st' ∧ made_fresh st st' (RValues (Some vv)) ∧
    values_view (heap st') (Some vv) =
      Some (view_add_all f ∅ (map_to_list (slice_view (heap st) <$> m))).
Proof.
  intros Hh Hr.
  destruct (make_values_owned st Hh) as (Hmake & Hh1 & Ho1 & Hv1 & Hlen1 & Hsame1).
  set (st1 := State (heap st ++ [MapValues ∅]) (events st)) in *.
  destruct (clone_loop_spec (λ l, l < length (heap st)) (length (heap st)) f
              (map_to_list m) (heap st) st1 ∅ Hh1 Hlen1 Ho1 Hv1)
    as (st2 & Hloop & (Hev2 & Hh2 & He2 & Ho2 & Hf2) & Hv2).
  { intros k s Hin. apply elem_of_map_to_list in Hin.
    pose proof (heap_ok_lookup _ _ _ _ _ Hh Hr Hin) as Hs. split; [done|].
    intros l Hl. destruct (slice_ok_Array _ _ _ Hs Hl) as [cells Hc].
    by eapply lookup_lt_Some. }
  { exact Hsame1. }
  exists (length (heap st)), st2. split_and!.
  - unfold bind at 1. unfold load_values. rewrite Hr.
    unfold bind at 1. rewrite Hmake. unfold bind at 1. fold st1. by rewrite Hloop.
  - split_and!; [by rewrite Hev2|done|]. intros l Hl. rewrite Hf2 by done. by apply Hsame1.
  - destruct Ho2 as (_ & m2 & Hm2 & _ & HF2). split.
    + simpl. unfold values_ok. by rewrite Hm2.
    + intros l Hl. simpl in Hl.
      destruct Hl as [[= <-]|(l0 & m0 & k & s & [= <-] & Hm0 & Hk & Hd)]; [done|].
      rewrite Hm2 in Hm0. injection Hm0 as <-. specialize (HF2 _ _ _ Hk Hd). lia.
  - rewrite Hv2. by rewrite map_to_list_fmap.
Qed.

End Loops.

(** ** What [Clone] copies *)

Section CloneContents.
Context `{GoLib}.

Lemma untouched_ext st st' : untouched st st' → ext (heap st) (heap st').
Proof. intros (_ & _ & Hsame). by apply below_length_ext. Qed.

Lemma untouched_same_view st st' rt :
  heap_ok (heap st) → root_ok (heap st) rt → untouched st st' →
  same_view (heap st) (heap st') rt ∧ root_ok (heap st') rt.
Proof.
  intros Hh Hrt Hu. split.
  - apply unchanged_root; [done|done|]. intros l Hl.
    destruct Hu as (_ & _ & Hsame). apply Hsame. by eapply reach_root_bound.
  - eapply root_ok_ext; [by apply untouched_ext|done].
Qed.

Lemma values_view_ok h v view : values_view h v = Some view → values_ok h v.
Proof.
  destruct v as [r|]; [|done]. unfold values_view, values_ok.
  by destruct (h !! r) as [[cells|m|m]|].
Qed.

Lemma clone_slice_spec s st :
  heap_ok (heap st) → slice_ok (heap st) s →
  ∃ s' st',
    (if decide (len s = 0) then ret nil_slice
     else let* vs := read_slice s in slice_of vs) st = Ok (s', st') ∧
    untouched st st' ∧ made_fresh st st' (RSlice s') ∧
    slice_view (heap st') s' = slice_view (heap st) s.
Proof.
  intros Hh Hs. pose proof (slice_view_length _ _ Hs) as Hlen. case_decide as Hz.
  - exists nil_slice, st. split_and!; [done|by apply untouched_refl| |].
    { split; [apply slice_ok_nil|]. intros l Hl. done. }
    rewrite Hz in Hlen. apply nil_length_inv in Hlen. by rewrite Hlen.
  - set (vs := slice_view (heap st) s).
    assert (Hl : (heap st ++ [Array vs]) !! length (heap st) = Some (Array vs)).
    { rewrite lookup_app_r by lia. by rewrite Nat.sub_diag. }
    exists (Slice (Some (length (heap st))) (length vs) (length vs)),
           (State (heap st ++ [Array vs]) (events st)).
    split_and!.
    + done.
    + split_and!; [done|by apply heap_ok_alloc|]. intros l Hlt. by apply lookup_app_l.
    + split; [eapply slice_ok_Some; [exact Hl|done|done]|].
      intros l [= <-]. done.
    + unfold slice_view at 1. simpl. rewrite Hl. apply firstn_all.
Qed.

Lemma cloneUrlValues_spec v st :
  heap_ok (heap st) → values_ok (heap st) v →
  ∃ v' st', cloneUrlValues v st = Ok (v', st') ∧ untouched st st' ∧
    made_fresh st st' (RValues v') ∧
    values_view (heap st') v' = with_values <$> values_view (heap st) v.
Proof.
  intros Hh Hv. destruct v as [r|].
  - apply values_ok_Some in Hv as [m Hr].
    destruct (clone_values_spec id r m st Hh Hr) as (vv & st' & Hrun & Hu & Hnew & Hview).
    exists (Some vv), st'. split_and!; [exact Hrun|done|done|].
    rewrite Hview. unfold values_view. rewrite Hr. simpl. f_equal.
    by apply view_add_all_empty.
  - exists None, st. split_and!; [done|by apply untouched_refl| |done].
    split; [done|]. intros l [Hl|(l0 & ? & ? & ? & Hl & _)]; done.
Qed.

Lemma cloneHeaders_spec hdrs st :
  heap_ok (heap st) → values_ok (heap st) hdrs →
  ∃ v' st', cloneHeaders hdrs st = Ok (v', st') ∧ untouched st st' ∧
    made_fresh st st' (RValues v') ∧
    (canonical_keys (heap st) hdrs →
     values_view (heap st') v' = with_values <$> values_view (heap st) hdrs).
Proof.
  intros Hh Hv. destruct hdrs as [r|].
  - apply values_ok_Some in Hv as [m Hr].
    destruct (clone_values_spec CanonicalMIMEHeaderKey r m st Hh Hr)
      as (vv & st' & Hrun & Hu & Hnew & Hview).
    exists (Some vv), st'. split_and!; [exact Hrun|done|done|].
    intros Hcanon. rewrite Hview. unfold values_view. rewrite Hr. simpl. f_equal.
    apply view_add_all_empty; [done|]. intros k Hk.
    eapply Hcanon; [|exact Hk]. unfold values_view. by rewrite Hr.
  - exists None, st. split_and!; [done|by apply untouched_refl| |done].
    split; [done|]. intros l [Hl|(l0 & ? & ? & ? & Hl & _)]; done.
Qed.

Lemma strings_store_loop r entries st m :
  heap st !! r = Some (MapString m) →
  for_each entries (λ '(k, v), strings_store r k v) st =
    Ok (tt, State (<[r := MapString (store_all m entries)]> (heap st)) (events st)).
Proof.
  revert st m. induction entries as [|[k v] entries IH]; intros st m Hr; simpl.
  - unfold ret. rewrite list_insert_id by done. by destruct st.
  - unfold bind, strings_store at 1, bind, load_strings, store. rewrite Hr. simpl.
    rewrite (IH _ (<[k := v]> m)).
    + simpl. by rewrite list_insert_insert_eq.
    + simpl. apply list_lookup_insert_eq. by eapply lookup_lt_Some.
Qed.

Lemma cloneMap_spec hm st :
  heap_ok (heap st) → strings_ok (heap st) hm →
  ∃ r' st', cloneMap hm st = Ok (r', st') ∧ untouched st st' ∧
    made_fresh st st' (RStrings r') ∧
    strings_view (heap st') r' = strings_view (heap st) hm.
Proof.
  intros Hh Hv. destruct hm as [r|].
  - apply strings_ok_Some in Hv as [src Hr].
    set (n := length (heap st)).
    assert (Hn : (heap st ++ [MapString ∅]) !! n = Some (MapString ∅)).
    { rewrite lookup_app_r by (unfold n; lia). by rewrite Nat.sub_diag. }
    assert (Hrun : cloneMap (Some r) st =
              Ok (Some n, State (<[n := MapString src]> (heap st ++ [MapString ∅]))
                            (events st))).
    { unfold cloneMap. unfold bind at 1. unfold load_strings. rewrite Hr.
      unfold bind at 1. unfold make_strings, alloc. fold n.
      unfold bind at 1.
      rewrite (strings_store_loop n (map_to_list src)
                 (State (heap st ++ [MapString ∅]) (events st)) ∅ Hn).
      by rewrite store_all_map_to_list. }
    destruct (returns_of_wp (λ _, True) (cloneMap (Some r)) (λ _ _, True) st)
      as (a & st' & Hrun' & [Hh' _] & _).
    { apply wp_cloneMap; [by apply Inv_everywhere|apply strings_ok_Some; eauto|done]. }
    rewrite Hrun in Hrun'. injection Hrun' as <- <-.
    assert (Hn' : <[n := MapString src]> (heap st ++ [MapString ∅]) !! n =
                  Some (MapString src)).
    { apply list_lookup_insert_eq. by eapply lookup_lt_Some. }
    eexists _, _. split; [exact Hrun|]. split_and!.
    + split_and!; [done|done|]. simpl. intros l Hl.
      rewrite list_lookup_insert_ne by (unfold n; lia). by apply lookup_app_l.
    + split; [simpl; unfold strings_ok; by rewrite Hn'|].
      simpl. intros l [= <-]. done.
    + simpl. unfold strings_view. by rewrite Hn', Hr.
  - exists None, st. split_and!; [done|by apply untouched_refl| |done].
    split; [done|]. intros l Hl. done.
Qed.

End CloneContents.

Section CloneTheorems.
Context `{GoLib}.

(** A root made at some point of a run and left alone afterwards reads the
    same at the end. *)
Lemma untouched_values st st' v :
  heap_ok (heap st) → values_ok (heap st) v → untouched st st' →
  values_view (heap st') v = values_view (heap st) v ∧ values_ok (heap st') v.
Proof. intros Hh Hv Hu. exact (untouched_same_view st st' (RValues v) Hh Hv Hu). Qed.

Lemma untouched_slice st st' s :
  heap_ok (heap st) → slice_ok (heap st) s → untouched st st' →
  slice_view (heap st') s = slice_view (heap st) s ∧ slice_ok (heap st') s.
Proof. intros Hh Hv Hu. exact (untouched_same_view st st' (RSlice s) Hh Hv Hu). Qed.

Lemma untouched_strings st st' r :
  heap_ok (heap st) → strings_ok (heap st) r → untouched st st' →
  strings_view (heap st') r = strings_view (heap st) r ∧ strings_ok (heap st') r.
Proof. intros Hh Hv Hu. exact (untouched_same_view st st' (RStrings r) Hh Hv Hu). Qed.

(** Where a root made between [st] and [st'] lies at a later point. *)
Lemma made_fresh_bounds st st' st'' rt l :
  heap_ok (heap st') → made_fresh st st' rt → untouched st' st'' →
  reach_root (heap st'') rt l → length (heap st) ≤ l < length (heap st').
Proof.
  intros Hh [Hok Hlow] Hu Hl.
  assert (Hsame : ∀ l, reach_root (heap st') rt l → heap st'' !! l = heap st' !! l).
  { intros l' Hl'. destruct Hu as (_ & _ & Hs). apply Hs. by eapply reach_root_bound. }
  destruct (unchanged_root _ _ rt Hh Hok Hsame) as [_ Hreach].
  apply Hreach in Hl. split; [by apply Hlow|by eapply reach_root_bound].
Qed.

Ltac chain_untouched :=
  repeat match goal with
  | H1 : untouched ?a ?b, H2 : untouched ?b ?c |- _ =>
      lazymatch goal with
      | _ : untouched a c |- _ => fail
      | _ => pose proof (untouched_trans _ _ _ H1 H2)
      end
  end.

(** [Clone], field by field. *)
Lemma Clone_spec c st :
  client_ok (heap st) c →
  ∃ cc st', Clone c st = Ok (cc, st') ∧ untouched st st' ∧
    client_ok (heap st') cc ∧ isolated (heap st') cc ∧
    (∀ l, reach (heap st') cc l → length (heap st) ≤ l) ∧
    plain_settings cc = plain_settings c ∧
    (canonical_keys (heap st) (Headers c) →
     values_view (heap st') (Headers cc) = with_values <$> values_view (heap st) (Headers c)) ∧
    slice_view (heap st') (Cookies cc) = slice_view (heap st) (Cookies c) ∧
    strings_view (heap st') (PathParams cc) = strings_view (heap st) (PathParams c) ∧
    values_view (heap st') (QueryParams cc) =
      with_values <$> values_view (heap st) (QueryParams c) ∧
    values_view (heap st') (FormData cc) =
      with_values <$> values_view (heap st) (FormData c) ∧
    slice_view (heap st') (beforeRequest cc) = slice_view (heap st) (beforeRequest c) ∧
    slice_view (heap st') (udBeforeRequest cc) = slice_view (heap st) (udBeforeRequest c) ∧
    slice_view (heap st') (afterResponse cc) = slice_view (heap st) (afterResponse c) ∧
    collections (heap st') c = collections (heap st) c.
Proof.
  intros [Hh Hc].
  apply roots_ok_fields in Hc as (Hhd & Hck & Hpp & Hqp & Hfd & Hb & Hu & Ha).
  destruct (cloneHeaders_spec _ st Hh Hhd) as (headers & st1 & R1 & U1 & N1 & V1).
  pose proof (proj1 (proj2 U1)) as Hh1.
  destruct (untouched_slice st st1 _ Hh Hck U1) as [Eck Hck1].
  destruct (clone_slice_spec _ st1 Hh1 Hck1) as (cookies & st2 & R2 & U2 & N2 & V2).
  pose proof (proj1 (proj2 U2)) as Hh2. chain_untouched.
  destruct (untouched_strings st st2 _ Hh Hpp ltac:(done)) as [Epp Hpp2].
  destruct (cloneMap_spec _ st2 Hh2 Hpp2) as (pathParams & st3 & R3 & U3 & N3 & V3).
  pose proof (proj1 (proj2 U3)) as Hh3. chain_untouched.
  destruct (untouched_values st st3 _ Hh Hqp ltac:(done)) as [Eqp Hqp3].
  destruct (cloneUrlValues_spec _ st3 Hh3 Hqp3) as (queryParams & st4 & R4 & U4 & N4 & V4).
  pose proof (proj1 (proj2 U4)) as Hh4. chain_untouched.
  destruct (untouched_values st st4 _ Hh Hfd ltac:(done)) as [Efd Hfd4].
  destruct (cloneUrlValues_spec _ st4 Hh4 Hfd4) as (formData & st5 & R5 & U5 & N5 & V5).
  pose proof (proj1 (proj2 U5)) as Hh5. chain_untouched.
  destruct (untouched_slice st st5 _ Hh Hb ltac:(done)) as [Eb Hb5].
  destruct (clone_slice_spec _ st5 Hh5 Hb5) as (before & st6 & R6 & U6 & N6 & V6).
  pose proof (proj1 (proj2 U6)) as Hh6. chain_untouched.
  destruct (untouched_slice st st6 _ Hh Hu ltac:(done)) as [Eu Hu6].
  destruct (clone_slice_spec _ st6 Hh6 Hu6) as (udBefore & st7 & R7 & U7 & N7 & V7).
  pose proof (proj1 (proj2 U7)) as Hh7. chain_untouched.
  destruct (untouched_slice st st7 _ Hh Ha ltac:(done)) as [Ea Ha7].
  destruct (clone_slice_spec _ st7 Hh7 Ha7) as (after & st8 & R8 & U8 & N8 & V8).
  pose proof (proj1 (proj2 U8)) as Hh8. chain_untouched.
  destruct (untouched_values st1 st8 _ Hh1 (proj1 N1) ltac:(done)) as [F1 P1].
  destruct (untouched_slice st2 st8 _ Hh2 (proj1 N2) ltac:(done)) as [F2 P2].
  destruct (untouched_strings st3 st8 _ Hh3 (proj1 N3) ltac:(done)) as [F3 P3].
  destruct (untouched_values st4 st8 _ Hh4 (proj1 N4) ltac:(done)) as [F4 P4].
  destruct (untouched_values st5 st8 _ Hh5 (proj1 N5) ltac:(done)) as [F5 P5].
  destruct (untouched_slice st6 st8 _ Hh6 (proj1 N6) ltac:(done)) as [F6 P6].
  destruct (untouched_slice st7 st8 _ Hh7 (proj1 N7) ltac:(done)) as [F7 P7].
  assert (U08 : untouched st st8) by done.
  assert (U88 : untouched st8 st8) by by apply untouched_refl.
  set (n := λ k : nat,
            match k with
            | 0 => length (heap st) | 1 => length (heap st1) | 2 => length (heap st2)
            | 3 => length (heap st3) | 4 => length (heap st4) | 5 => length (heap st5)
            | 6 => length (heap st6) | 7 => length (heap st7) | _ => length (heap st8)
            end).
  assert (Hstep : ∀ k, n k ≤ n (S k)).
  { intros k. unfold n.
    pose proof (untouched_length _ _ U1). pose proof (untouched_length _ _ U2).
    pose proof (untouched_length _ _ U3). pose proof (untouched_length _ _ U4).
    pose proof (untouched_length _ _ U5). pose proof (untouched_length _ _ U6).
    pose proof (untouched_length _ _ U7). pose proof (untouched_length _ _ U8).
    destruct k as [|[|[|[|[|[|[|[|k]]]]]]]]; lia. }
  assert (Hmono : ∀ i j, i ≤ j → n i ≤ n j).
  { intros i j Hij. induction Hij as [|j Hij IH]; [done|]. specialize (Hstep j). lia. }
  assert (Hwhere : ∀ i rt l,
            [RValues headers; RSlice cookies; RStrings pathParams; RValues queryParams;
             RValues formData; RSlice before; RSlice udBefore; RSlice after] !! i = Some rt →
            reach_root (heap st8) rt l → n i ≤ l < n (S i)).
  { intros i rt l Hi Hl.
    destruct i as [|[|[|[|[|[|[|[|i]]]]]]]]; simpl in Hi; try discriminate Hi;
      injection Hi as <-; unfold n.
    - by eapply (made_fresh_bounds st st1 st8).
    - by eapply (made_fresh_bounds st1 st2 st8).
    - by eapply (made_fresh_bounds st2 st3 st8).
    - by eapply (made_fresh_bounds st3 st4 st8).
    - by eapply (made_fresh_bounds st4 st5 st8).
    - by eapply (made_fresh_bounds st5 st6 st8).
    - by eapply (made_fresh_bounds st6 st7 st8).
    - by eapply (made_fresh_bounds st7 st8 st8). }
  eexists _, st8. split_and!.
  - unfold Clone. unfold bind at 1. rewrite R1.
    unfold bind at 1. unfold cloneCookies. rewrite R2.
    unfold bind at 1. rewrite R3.
    unfold bind at 1. rewrite R4.
    unfold bind at 1. rewrite R5.
    unfold bind at 1. unfold cloneRequestMiddleware at 1. rewrite R6.
    unfold bind at 1. unfold cloneRequestMiddleware at 1. rewrite R7.
    unfold bind at 1. unfold cloneResponseMiddleware at 1. rewrite R8.
    reflexivity.
  - exact U08.
  - split; [done|]. apply roots_ok_fields. simpl. split_and!; [done..|apply N8].
  - intros i j a b l Hij Hi Hj Hra Hrb.
    pose proof (Hwhere i a l Hi Hra) as Bi. pose proof (Hwhere j b l Hj Hrb) as Bj.
    destruct (decide (i < j)) as [Hlt|Hge].
    + pose proof (Hmono (S i) j ltac:(lia)). lia.
    + pose proof (Hmono (S j) i ltac:(lia)). lia.
  - intros l (rt & Hrt & Hl). apply list_elem_of_lookup in Hrt as [i Hi].
    pose proof (Hwhere i rt l Hi Hl) as Bi.
    pose proof (Hmono 0 i ltac:(lia)) as Hlow. unfold n at 1 in Hlow. lia.
  - done.
  - intros Hcanon. simpl. by rewrite F1, V1.
  - simpl. by rewrite F2, V2, Eck.
  - simpl. by rewrite F3, V3, Epp.
  - simpl. by rewrite F4, V4, Eqp.
  - simpl. by rewrite F5, V5, Efd.
  - simpl. by rewrite F6, V6, Eb.
  - simpl. by rewrite F7, V7, Eu.
  - simpl. by rewrite V8, Ea.
  - apply collections_same. intros rt Hrt.
    assert (Hok : root_ok (heap st) rt).
    { assert (Forall (root_ok (heap st)) (roots c)) as Hall.
      { apply roots_ok_fields. by split_and!. }
      rewrite Forall_forall in Hall. by apply Hall. }
    by apply (untouched_same_view st st8 rt Hh Hok U08).
Qed.

(** X2. [Clone] copies contents: the copy has the flags, codecs, logger and
    HTTP client settings of the original, and its collections read as those
    of the original, except that a key without values in the headers, query
    parameters or form data is not carried over; nothing is logged and the
    original reads as before. *)
Theorem Clone_contents c st :
  client_ok (heap st) c → canonical_keys (heap st) (Headers c) →
  ∃ cc st', Clone c st = Ok (cc, st') ∧ events st' = events st ∧
    client_ok (heap st') cc ∧ plain_settings cc = plain_settings c ∧
    collections (heap st') cc = with_values_collections (collections (heap st) c) ∧
    collections (heap st') c = collections (heap st) c.
Proof.
  intros Hok Hcanon.
  destruct (Clone_spec c st Hok)
    as (cc & st' & Hrun & Hu & Hok' & _ & _ & Hset & V1 & V2 & V3 & V4 & V5 & V6 & V7 & V8 & Hc).
  exists cc, st'. split_and!; [done|apply Hu|done|done| |done].
  unfold collections, with_values_collections. simpl.
  by rewrite (V1 Hcanon), V2, V3, V4, V5, V6, V7, V8.
Qed.

(** X3. The second revision of [Clone] copies less: headers, path
    parameters and query parameters are copied as in the first revision, but
    the copy has no cookies, no form data and no response middleware, its
    debug, payload and trace flags, output directory and codecs are zero,
    and its two request middleware lists are the slices of the original. *)
Theorem Rev2_Clone_contents c st :
  client_ok (heap st) c → canonical_keys (heap st) (Headers c) →
  ∃ cc st', Rev2.Clone c st = Ok (cc, st') ∧ events st' = events st ∧
    client_ok (heap st') cc ∧
    collections (heap st') cc =
      {| view_Headers := with_values <$> view_Headers (collections (heap st) c);
         view_Cookies := [];
         view_PathParams := view_PathParams (collections (heap st) c);
         view_QueryParams := with_values <$> view_QueryParams (collections (heap st) c);
         view_FormData := None;
         view_beforeRequest := view_beforeRequest (collections (heap st) c);
         view_udBeforeRequest := view_udBeforeRequest (collections (heap st) c);
         view_afterResponse := [] |} ∧
    beforeRequest cc = beforeRequest c ∧ udBeforeRequest cc = udBeforeRequest c ∧
    (DebugLog cc, AllowGetMethodPayload cc, trace cc, outputDirectory cc) =
      (false, false, false, "") ∧
    (jsonMarshal cc, jsonUnmarshal cc, xmlMarshal cc, xmlUnmarshal cc) =
      (None, None, None, None) ∧
    collections (heap st') c = collections (heap st) c.
Proof.
  intros [Hh Hc] Hcanon.
  apply roots_ok_fields in Hc as (Hhd & Hck & Hpp & Hqp & Hfd & Hb & Hu & Ha).
  destruct (cloneHeaders_spec _ st Hh Hhd) as (headers & st1 & R1 & U1 & [O1 _] & V1).
  specialize (V1 Hcanon).
  pose proof (proj1 (proj2 U1)) as Hh1.
  destruct (untouched_strings st st1 _ Hh Hpp U1) as [Epp Hpp1].
  destruct (cloneMap_spec _ st1 Hh1 Hpp1) as (pathParams & st2 & R2 & U2 & [O2 _] & V2).
  pose proof (proj1 (proj2 U2)) as Hh2. chain_untouched.
  destruct (untouched_values st st2 _ Hh Hqp ltac:(done)) as [Eqp Hqp2].
  destruct (cloneUrlValues_spec _ st2 Hh2 Hqp2)
    as (queryParams & st3 & R3 & U3 & [O3 _] & V3).
  pose proof (proj1 (proj2 U3)) as Hh3. chain_untouched.
  destruct (untouched_values st1 st3 _ Hh1 O1 ltac:(done)) as [F1 P1].
  destruct (untouched_strings st2 st3 _ Hh2 O2 ltac:(done)) as [F2 P2].
  assert (U03 : untouched st st3) by done.
  destruct (untouched_slice st st3 _ Hh Hb U03) as [Eb Hb3].
  destruct (untouched_slice st st3 _ Hh Hu U03) as [Eu Hu3].
  eexists _, st3. split_and!.
  - unfold Rev2.Clone. unfold bind at 1. rewrite R1.
    unfold bind at 1. rewrite R2. unfold bind at 1. rewrite R3. reflexivity.
  - apply U03.
  - split; [done|]. apply roots_ok_fields. simpl.
    split_and!; auto using slice_ok_nil.
  - unfold collections. simpl. rewrite F1, V1, F2, V2, Epp, V3, Eqp, Eb, Eu. done.
  - done.
  - done.
  - done.
  - done.
  - apply collections_same. intros rt Hrt.
    assert (Hok : root_ok (heap st) rt).
    { assert (Forall (root_ok (heap st)) (roots c)) as Hall.
      { apply roots_ok_fields. by split_and!. }
      rewrite Forall_forall in Hall. by apply Hall. }
    by apply (untouched_same_view st st3 rt Hh Hok U03).
Qed.

End CloneTheorems.

(** ** The setters *)

Section Total.
Context `{GoLib}.

Lemma wp_logf_Some pan R lg lv format args (Q : unit → state → Prop) st :
  Inv R (heap st) →
  (∀ st', heap st' = heap st → Q tt st') →
  wp pan R (logf (Some lg) lv format args) Q st.
Proof. intros HI HQ. by apply wp_emit. Qed.

Ltac finish_field r Hc :=
  split;
  [ exists (RValues (Some r)); split_and!;
    [ let Hf := fresh "Hf" in
      destruct Hc as [[Hf ->]|[Hf ->]]; [unfold roots; by rewrite Hf|done]
    | by eapply (values_ok_ext _ _ (Some r))
    | by intros ? [= <-] ]
  | by destruct Hc as [[_ ->]|[_ ->]] ].

(** A method call on a client with a logger does not panic. *)
Lemma wp_setter R m c st :
  is_setter m = true → is_Some (log c) →
  Inv R (heap st) →
  (∀ rt, roots c !! target m = Some rt → root_ok (heap st) rt ∧ root_in R rt) →
  wp False R (mutate m c) (mutated R m c) st.
Proof.
  intros Hm [lg Hlg] HI Hrt.
  destruct m as [key value|cookies|key value|query|data|data|f|f|key i value|key|i p
                |key value|key];
    try discriminate Hm;
    simpl in *; (edestruct Hrt as [Hok Hin]; [reflexivity|]); simpl in Hok, Hin.
  - unfold SetCommonHeader. apply wp_bind. apply wp_init_if_nil; [done|done|done|].
    intros c' r st1 HI1 He1 HR Hr Hc'. unfold Header_Set.
    apply wp_bind. apply wp_Values_Set; [done|done|done|].
    intros st2 HI2 He2. apply wp_ret; [done|].
    finish_field r Hc'.
  - unfold SetCommonCookies. apply wp_bind. apply wp_append; [done|done|done|].
    intros s' st1 HI1 He1 Hs' Hin' _. apply wp_ret; [done|].
    split; [by exists (RSlice s')|done].
  - unfold SetCommonQueryParam. apply wp_bind. apply wp_init_if_nil; [done|done|done|].
    intros c' r st1 HI1 He1 HR Hr Hc'.
    apply wp_bind. apply wp_Values_Set; [done|done|done|].
    intros st2 HI2 He2. apply wp_ret; [done|].
    finish_field r Hc'.
  - unfold SetCommonQueryString.
    destruct (url_ParseQuery (strings_TrimSpace query)) as [params [e|]].
    + rewrite Hlg. apply wp_bind. apply wp_logf_Some; [done|]. intros st1 Hh.
      apply wp_ret; [by rewrite Hh|].
      eapply mutated_same; [reflexivity|exact Hok|exact Hin|].
      rewrite Hh. apply ext_refl.
    + apply wp_bind. apply wp_init_if_nil; [done|done|done|].
      intros c' r st1 HI1 He1 HR Hr Hc'.
      apply wp_bind.
      apply (wp_values_loop False R r Values_Add (map_to_list params)); [|done|done|].
      { intros k v st2 Q2 HI2 Hr2 HQ2. by apply wp_Values_Add. }
      intros st2 HI2 He2. apply wp_ret; [done|].
      finish_field r Hc'.
  - unfold SetCommonFormData. apply wp_bind. apply wp_init_if_nil; [done|done|done|].
    intros c' r st1 HI1 He1 HR Hr Hc'.
    apply wp_bind. apply wp_for_each; [done| |].
    { intros [k v] st2 Q2 HI2 He2 HQ2. apply wp_Values_Set; [done|done| |done].
      by eapply values_ok_ext. }
    intros st2 HI2 He2. apply wp_ret; [done|].
    finish_field r Hc'.
  - unfold SetCommonFormDataFromValues.
    apply wp_bind. apply wp_init_if_nil; [done|done|done|].
    intros c' r st1 HI1 He1 HR Hr Hc'.
    apply wp_bind. apply (wp_values_loop False R r Values_Add data); [|done|done|].
    { intros k v st2 Q2 HI2 Hr2 HQ2. by apply wp_Values_Add. }
    intros st2 HI2 He2. apply wp_ret; [done|].
    finish_field r Hc'.
  - unfold OnBeforeRequest. apply wp_bind. apply wp_append; [done|done|done|].
    intros s' st1 HI1 He1 Hs' Hin' _. apply wp_ret; [done|].
    split; [by exists (RSlice s')|done].
  - unfold OnAfterResponse. apply wp_bind. apply wp_append; [done|done|done|].
    intros s' st1 HI1 He1 Hs' Hin' _. apply wp_ret; [done|].
    split; [by exists (RSlice s')|done].
Qed.

Lemma setter_returns m c st :
  is_setter m = true → is_Some (log c) → client_ok (heap st) c →
  ∃ c' st', mutate m c st = Ok (c', st').
Proof.
  intros Hm Hlg [Hh Hc].
  destruct (returns_of_wp (λ _, True) (mutate m c) (mutated (λ _, True) m c) st)
    as (c' & st' & Hrun & _); [|eauto].
  apply wp_setter; [done|done|by apply Inv_everywhere|].
  intros rt Hrt. split; [|by destruct rt].
  rewrite Forall_forall in Hc. apply Hc. by eapply list_elem_of_lookup_2.
Qed.

(** X4. Configuration does not panic. A client made by [C] and configured by
    any sequence of method calls comes back, belongs to the store, still has
    the default logger, and its three stage lists hold the built-in
    middleware and the registered ones in registration order. *)
Theorem configure_returns st0 ops :
  heap_ok (heap st0) → Forall (λ m, is_setter m = true) ops →
  ∃ c st, (let* c := C in configure ops c) st0 = Ok (c, st) ∧
    client_ok (heap st) c ∧ log c = Some defaultLogger ∧
    view_beforeRequest (collections (heap st) c) = VRequestMiddleware <$> builtin_request ∧
    view_udBeforeRequest (collections (heap st) c) =
      VRequestMiddleware <$> registered_request ops ∧
    view_afterResponse (collections (heap st) c) =
      VResponseMiddleware <$> (builtin_response ++ registered_response ops).
Proof.
  intros Hh Hops.
  destruct (C_spec st0 Hh) as (c0 & st1 & HC & _ & Hok & Hiso & Hb & Hu & Ha & Hlog & _).
  assert (Hloop : ∀ ops c st, Forall (λ m, is_setter m = true) ops →
            client_ok (heap st) c → isolated (heap st) c → is_Some (log c) →
            ∃ c' st', configure ops c st = Ok (c', st')).
  { clear. intros ops. induction ops as [|m ops IH]; intros c st Hops Hok Hiso Hlg; simpl.
    - eauto.
    - apply Forall_cons in Hops as [Hm Hops].
      destruct (setter_returns m c st Hm Hlg Hok) as (c1 & st1 & Hrun).
      destruct (isolated_mutate m c st c1 st1 Hok Hiso Hrun) as (Hok1 & Hiso1 & Hlog1 & _).
      destruct (IH c1 st1 Hops Hok1 Hiso1) as (c2 & st2 & Hrun2); [by rewrite Hlog1|].
      exists c2, st2. unfold bind. by rewrite Hrun. }
  destruct (Hloop ops c0 st1 Hops Hok Hiso) as (c & st & Hcfg); [by rewrite Hlog|].
  destruct (configure_stage_lists ops c0 st1 c st Hok Hiso Hcfg)
    as (Hok' & _ & Hlog' & Hb' & Hu' & Ha').
  exists c, st. split_and!.
  - unfold bind. by rewrite HC.
  - done.
  - by rewrite Hlog'.
  - simpl. by rewrite Hb', Hb.
  - simpl. by rewrite Hu', Hu.
  - simpl. by rewrite Ha', Ha.
Qed.

End Total.

Section Setters.
Context `{GoLib}.

Lemma values_view_Some h r view :
  values_view h (Some r) = Some view →
  ∃ m, h !! r = Some (MapValues m) ∧ view = slice_view h <$> m.
Proof.
  unfold values_view. destruct (h !! r) as [[cells|m|m]|]; try done.
  intros [= <-]. eauto.
Qed.

Lemma fst_prod_map {A B} (f : string → string) (g : A → B) (l : list (string * A)) :
  (prod_map f g <$> l).*1 = f <$> l.*1.
Proof. rewrite <- !list_fmap_compose. apply list_fmap_ext. by intros ? [] ?. Qed.

(** [Values.Set] *)
Lemma Values_Set_spec r k v st view :
  heap_ok (heap st) → values_view (heap st) (Some r) = Some view →
  ∃ st', Values_Set r k v st = Ok (tt, st') ∧ events st' = events st ∧
    heap_ok (heap st') ∧ ext (heap st) (heap st') ∧
    values_view (heap st') (Some r) = Some (<[k := [v]]> view).
Proof.
  intros Hh Hview. apply values_view_Some in Hview as (m & Hr & ->).
  set (n := length (heap st)).
  assert (Hrlt : r < n) by by eapply lookup_lt_Some.
  assert (Hn : (heap st ++ [Array [v]]) !! n = Some (Array [v])).
  { rewrite lookup_app_r by (unfold n; lia). by rewrite Nat.sub_diag. }
  set (s := Slice (Some n) 1 1).
  assert (Hrun : Values_Set r k v st =
            Ok (tt, State (<[r := MapValues (<[k := s]> m)]> (heap st ++ [Array [v]]))
                      (events st))).
  { unfold Values_Set. unfold bind at 1. unfold slice_of, bind, alloc, ret. simpl.
    unfold values_store, bind, load_values. simpl.
    rewrite lookup_app_l by done. by rewrite Hr. }
  assert (Hwp : wp False (λ _, True) (Values_Set r k v) (λ _ _, True) st).
  { apply wp_Values_Set; [by apply Inv_everywhere|done| |done].
    apply values_ok_Some. eauto. }
  destruct (heap_ok_of_wp _ st tt _ Hwp Hrun) as [Hh' He'].
  simpl in Hh', He'.
  eexists. split; [exact Hrun|]. split_and!; simpl; [done|done|done|].
  unfold values_view. rewrite list_lookup_insert_eq by (rewrite length_app; simpl; lia).
  f_equal. rewrite fmap_insert.
  assert (slice_view (<[r := MapValues (<[k := s]> m)]> (heap st ++ [Array [v]])) s = [v])
    as ->.
  { unfold slice_view. simpl. rewrite list_lookup_insert_ne by lia. by rewrite Hn. }
  apply insert_fmap_agree. intros k2 s2 Hne Hk2.
  pose proof (heap_ok_lookup _ _ _ _ _ Hh Hr Hk2) as Hs2.
  apply slice_view_stable; [done|]. intros l Hl.
  destruct (slice_ok_Array _ _ _ Hs2 Hl) as [cells Hc].
  assert (l < n) by by eapply lookup_lt_Some.
  rewrite list_lookup_insert_ne by (intros ->; congruence). by apply lookup_app_l.
Qed.

(** [for k, v := range data { m.Set(k, v) }] *)
Lemma set_loop_spec r (data : list (string * string)) st view :
  heap_ok (heap st) → values_view (heap st) (Some r) = Some view →
  ∃ st', for_each data (λ '(k, v), Values_Set r k (VString v)) st = Ok (tt, st') ∧
    events st' = events st ∧ heap_ok (heap st') ∧ ext (heap st) (heap st') ∧
    values_view (heap st') (Some r) =
      Some (store_all view (prod_map id (λ v, [VString v]) <$> data)).
Proof.
  revert st view. induction data as [|[k v] data IH]; intros st view Hh Hview; simpl.
  - exists st. split_and!; auto using ext_refl.
  - destruct (Values_Set_spec r k (VString v) st view Hh Hview)
      as (st1 & Hrun & Hev1 & Hh1 & He1 & Hv1).
    destruct (IH st1 _ Hh1 Hv1) as (st2 & Hrun2 & Hev2 & Hh2 & He2 & Hv2).
    exists st2. unfold bind. rewrite Hrun.
    split_and!; [done|congruence|done|by eapply ext_trans|done].
Qed.

Lemma init_if_nil_spec field assign c st :
  heap_ok (heap st) → values_ok (heap st) field →
  ∃ c1 r st1, init_if_nil field make_values assign c st = Ok ((c1, r), st1) ∧
    events st1 = events st ∧ heap_ok (heap st1) ∧ ext (heap st) (heap st1) ∧
    values_view (heap st1) (Some r) = Some (default ∅ (values_view (heap st) field)) ∧
    ((field = Some r ∧ c1 = c) ∨ (field = None ∧ c1 = assign (Some r) c)) ∧
    (apart_at (heap st) field → owned (λ _, False) (heap st1) r).
Proof.
  intros Hh Hf. destruct field as [r|]; simpl.
  - apply values_ok_Some in Hf as [m Hr].
    exists c, r, st. split_and!; auto using ext_refl.
    unfold values_view. by rewrite Hr.
  - destruct (make_values_owned st Hh) as (Hmake & Hh1 & Ho1 & Hv1 & Hlen1 & Hsame1).
    eexists _, _, _. unfold bind. rewrite Hmake. split; [reflexivity|].
    split_and!; simpl; [done|done|by apply below_length_ext|done|by right|].
    intros _. destruct Ho1 as (_ & m & Hm & Hap & _). split; [tauto|].
    exists m. split_and!; [done|done|tauto].
Qed.

Lemma client_ok_field h h' c c1 r (field : Client → option loc)
    (assign : option loc → Client → Client) i :
  (∀ v c, roots (assign v c) = <[i := RValues v]> (roots c)) →
  (∀ c, roots c !! i = Some (RValues (field c))) →
  client_ok h c → heap_ok h' → ext h h' → values_ok h' (Some r) →
  (field c = Some r ∧ c1 = c) ∨ (field c = None ∧ c1 = assign (Some r) c) →
  client_ok h' c1 ∧ roots c1 = <[i := RValues (Some r)]> (roots c).
Proof.
  intros Hassign Hfield [Hh Hc] Hh' He Hr Hc1.
  assert (Hc' : Forall (root_ok h') (roots c)).
  { eapply Forall_impl; [exact Hc|]. intros rt. by apply root_ok_ext. }
  destruct Hc1 as [[Hf ->]|[Hf ->]].
  - split; [by split|]. symmetry. apply list_insert_id. by rewrite Hfield, Hf.
  - split; [|apply Hassign]. split; [done|]. rewrite Hassign.
    by apply Forall_insert.
Qed.

Lemma settings_field c c1 r (field : Client → option loc)
    (assign : option loc → Client → Client) :
  (∀ v c, settings (assign v c) = settings c) →
  (field c = Some r ∧ c1 = c) ∨ (field c = None ∧ c1 = assign (Some r) c) →
  settings c1 = settings c.
Proof. intros Hassign [[_ ->]|[_ ->]]; [done|apply Hassign]. Qed.

Lemma field_after c c1 r (field : Client → option loc)
    (assign : option loc → Client → Client) :
  (∀ v c, field (assign v c) = v) →
  (field c = Some r ∧ c1 = c) ∨ (field c = None ∧ c1 = assign (Some r) c) →
  field c1 = Some r.
Proof. intros Hassign [[? ->]|[_ ->]]; [done|apply Hassign]. Qed.

(** One call that stores a single value under a key of a map field. *)
Lemma set_field_spec (field : Client → option loc) assign i c k v st :
  (∀ v c, roots (assign v c) = <[i := RValues v]> (roots c)) →
  (∀ c, roots c !! i = Some (RValues (field c))) →
  (∀ v c, settings (assign v c) = settings c) →
  (∀ v c, field (assign v c) = v) →
  client_ok (heap st) c →
  ∃ c' st',
    (let* (c, q) := init_if_nil (field c) make_values assign c in
     let* _ := Values_Set q k v in
     ret c) st = Ok (c', st') ∧
    events st' = events st ∧ client_ok (heap st') c' ∧ settings c' = settings c ∧
    values_view (heap st') (field c') =
      Some (<[k := [v]]> (default ∅ (values_view (heap st) (field c)))).
Proof.
  intros Hroots Hfield Hset Hget Hok.
  assert (Hf : values_ok (heap st) (field c)).
  { destruct Hok as [_ Hc]. rewrite Forall_forall in Hc.
    apply (Hc (RValues (field c))). eapply list_elem_of_lookup_2. apply Hfield. }
  destruct (init_if_nil_spec (field c) assign c st (proj1 Hok) Hf)
    as (c1 & r & st1 & Hinit & Hev1 & Hh1 & He1 & Hv1 & Hc1 & _).
  destruct (Values_Set_spec r k v st1 _ Hh1 Hv1) as (st2 & Hrun & Hev2 & Hh2 & He2 & Hv2).
  exists c1, st2. split_and!.
  - unfold bind at 1. rewrite Hinit. unfold bind. by rewrite Hrun.
  - congruence.
  - eapply (client_ok_field _ _ c c1 r field assign i); eauto using ext_trans.
    by eapply values_view_ok.
  - by eapply settings_field.
  - by rewrite (field_after c c1 r field assign Hget Hc1).
Qed.

Lemma roots_set_Headers v c : roots (set_Headers v c) = <[0 := RValues v]> (roots c).
Proof. done. Qed.
Lemma roots_set_QueryParams v c : roots (set_QueryParams v c) = <[3 := RValues v]> (roots c).
Proof. done. Qed.

Lemma SetCommonHeader_spec c key value st :
  client_ok (heap st) c →
  ∃ c' st', SetCommonHeader c key value st = Ok (c', st') ∧
    events st' = events st ∧ client_ok (heap st') c' ∧ settings c' = settings c ∧
    values_view (heap st') (Headers c') =
      Some (<[CanonicalMIMEHeaderKey key := [VString value]]>
              (default ∅ (values_view (heap st) (Headers c)))).
Proof.
  intros Hok.
  exact (set_field_spec Headers set_Headers 0 c (CanonicalMIMEHeaderKey key)
           (VString value) st roots_set_Headers (λ _, eq_refl) (λ _ _, eq_refl)
           (λ _ _, eq_refl) Hok).
Qed.


(** Calls of a single-value setter, one after the other. *)
Lemma set_fields_spec (field : Client → option loc)
    (one : Client → string → string → M Client)
    (all : Client → list (string * string) → M Client) (f : string → string) :
  (∀ c, all c [] = ret c) →
  (∀ c k v rest, all c ((k, v) :: rest) = let* c := one c k v in all c rest) →
  (∀ c k v st, client_ok (heap st) c →
     ∃ c' st', one c k v st = Ok (c', st') ∧
       events st' = events st ∧ client_ok (heap st') c' ∧ settings c' = settings c ∧
       values_view (heap st') (field c') =
         Some (<[f k := [VString v]]> (default ∅ (values_view (heap st) (field c))))) →
  ∀ entries c st, client_ok (heap st) c →
    ∃ c' st', all c entries st = Ok (c', st') ∧
      events st' = events st ∧ client_ok (heap st') c' ∧ settings c' = settings c ∧
      values_view (heap st') (field c') =
        match entries with
        | [] => values_view (heap st) (field c)
        | _ => Some (store_all (default ∅ (values_view (heap st) (field c)))
                       (prod_map f (λ v, [VString v]) <$> entries))
        end.
Proof.
  intros Hnil Hcons Hone entries.
  induction entries as [|[k v] entries IH]; intros c st Hok.
  - exists c, st. rewrite Hnil. by split_and!.
  - destruct (Hone c k v st Hok) as (c1 & st1 & Hrun & Hev1 & Hok1 & Hset1 & Hv1).
    destruct (IH c1 st1 Hok1) as (c2 & st2 & Hrun2 & Hev2 & Hok2 & Hset2 & Hv2).
    exists c2, st2. rewrite Hcons. unfold bind. rewrite Hrun.
    split_and!; [done|congruence|done|congruence|].
    rewrite Hv2, Hv1. simpl. by destruct entries.
Qed.

(** The pairs of a Go map have distinct keys, and [range] visits them in no
    particular order. With canonical forms that are distinct too, the result
    of [SetCommonHeaders] does not depend on that order. *)

(** X7. [SetCommonHeaders] sets every header of the map: each canonical key
    then holds the one value given for it, the other headers are as before,
    and with an empty map nothing changes, not even a nil header map. *)
Theorem SetCommonHeaders_view c hdrs st :
  client_ok (heap st) c → NoDup (CanonicalMIMEHeaderKey <$> hdrs.*1) →
  ∃ c' st', SetCommonHeaders c hdrs st = Ok (c', st') ∧
    events st' = events st ∧ client_ok (heap st') c' ∧ settings c' = settings c ∧
    view_Headers (collections (heap st') c') =
      match hdrs with
      | [] => view_Headers (collections (heap st) c)
      | _ => Some (list_to_map (prod_map CanonicalMIMEHeaderKey (λ v, [VString v]) <$> hdrs) ∪
                   default ∅ (view_Headers (collections (heap st) c)))
      end.
Proof.
  intros Hok Hnd.
  destruct (set_fields_spec Headers SetCommonHeader SetCommonHeaders CanonicalMIMEHeaderKey
              (λ _, eq_refl) (λ _ _ _ _, eq_refl)
              SetCommonHeader_spec hdrs c st Hok)
    as (c' & st' & Hrun & Hev & Hok' & Hset & Hv).
  exists c', st'. split_and!; [done..|].
  simpl. rewrite Hv. destruct hdrs as [|kv hdrs]; [done|].
  f_equal. apply store_all_NoDup. by rewrite fst_prod_map.
Qed.

(** X8. [SetCommonQueryParam] replaces the values of the key by the one
    value, without changing the key, and [SetCommonQueryParams] does so for
    every pair of the map. *)
Theorem SetCommonQueryParams_view c st :
  client_ok (heap st) c →
  (∀ key value,
     ∃ c' st', SetCommonQueryParam c key value st = Ok (c', st') ∧
       events st' = events st ∧ client_ok (heap st') c' ∧ settings c' = settings c ∧
       view_QueryParams (collections (heap st') c') =
         Some (<[key := [VString value]]>
                 (default ∅ (view_QueryParams (collections (heap st) c))))) ∧
  (∀ params, NoDup params.*1 →
     ∃ c' st', SetCommonQueryParams c params st = Ok (c', st') ∧
       events st' = events st ∧ client_ok (heap st') c' ∧ settings c' = settings c ∧
       view_QueryParams (collections (heap st') c') =
         match params with
         | [] => view_QueryParams (collections (heap st) c)
         | _ => Some (list_to_map (prod_map id (λ v, [VString v]) <$> params) ∪
                      default ∅ (view_QueryParams (collections (heap st) c)))
         end).
Proof.
  intros Hok.
  assert (Hone : ∀ c key value st, client_ok (heap st) c →
     ∃ c' st', SetCommonQueryParam c key value st = Ok (c', st') ∧
       events st' = events st ∧ client_ok (heap st') c' ∧ settings c' = settings c ∧
       values_view (heap st') (QueryParams c') =
         Some (<[key := [VString value]]> (default ∅ (values_view (heap st) (QueryParams c))))).
  { intros c0 key value st0 Hok0.
    exact (set_field_spec QueryParams set_QueryParams 3 c0 key (VString value) st0
             roots_set_QueryParams (λ _, eq_refl) (λ _ _, eq_refl) (λ _ _, eq_refl) Hok0). }
  split.
  - intros key value. by apply Hone.
  - intros params Hnd.
    destruct (set_fields_spec QueryParams SetCommonQueryParam SetCommonQueryParams id
                (λ _, eq_refl) (λ _ _ _ _, eq_refl) Hone params c st Hok)
      as (c' & st' & Hrun & Hev & Hok' & Hset & Hv).
    exists c', st'. split_and!; [done..|].
    simpl. rewrite Hv. destruct params as [|kv params]; [done|].
    f_equal. apply store_all_NoDup. by rewrite fst_prod_map, list_fmap_id.
Qed.

(** X9. [SetCommonFormData] creates the form data when the client has none,
    also for an empty map, and sets every field of the map to its one
    value. *)
Theorem SetCommonFormData_view c data st :
  client_ok (heap st) c → NoDup data.*1 →
  ∃ c' st', SetCommonFormData c data st = Ok (c', st') ∧
    events st' = events st ∧ client_ok (heap st') c' ∧ settings c' = settings c ∧
    view_FormData (collections (heap st') c') =
      Some (list_to_map (prod_map id (λ v, [VString v]) <$> data) ∪
            default ∅ (view_FormData (collections (heap st) c))).
Proof.
  intros Hok Hnd.
  assert (Hf : values_ok (heap st) (FormData c)).
  { destruct Hok as [_ Hc]. apply roots_ok_fields in Hc. tauto. }
  destruct (init_if_nil_spec (FormData c) set_FormData c st (proj1 Hok) Hf)
    as (c1 & r & st1 & Hinit & Hev1 & Hh1 & He1 & Hv1 & Hc1 & _).
  destruct (set_loop_spec r data st1 _ Hh1 Hv1) as (st2 & Hrun & Hev2 & Hh2 & He2 & Hv2).
  exists c1, st2. split_and!.
  - unfold SetCommonFormData. unfold bind at 1. rewrite Hinit. unfold bind. by rewrite Hrun.
  - congruence.
  - eapply (client_ok_field _ _ c c1 r FormData set_FormData 4); eauto using ext_trans.
    by eapply values_view_ok.
  - exact (settings_field c c1 r FormData set_FormData (λ _ _, eq_refl) Hc1).
  - simpl. rewrite (field_after c c1 r FormData set_FormData (λ _ _, eq_refl) Hc1), Hv2.
    f_equal. apply store_all_NoDup. by rewrite fst_prod_map, list_fmap_id.
Qed.





End Setters.

Section RequestHeaders.
Context `{GoLib} `{Collaborators}.



End RequestHeaders.

(** * The order of the stages *)

Section Pool.
Context `{GoLib}.

Lemma client_stable h h' c :
  client_ok h c → heap_ok h' → ext h h' → (∀ l, reach h c l → h' !! l = h !! l) →
  client_ok h' c ∧
  ∀ rt, rt ∈ roots c → same_view h h' rt ∧ ∀ l, reach_root h' rt l ↔ reach_root h rt l.
Proof.
  intros [Hh Hc] Hh' He Hsame. rewrite Forall_forall in Hc. split.
  - split; [done|]. rewrite Forall_forall. intros rt Hrt. eapply root_ok_ext; eauto.
  - intros rt Hrt. apply unchanged_root; [done|by apply Hc|].
    intros l Hl. apply Hsame. by exists rt.
Qed.

(** A client whose objects are left alone stays as it is. *)
Lemma client_kept h h' c p :
  client_ok h c → heap_ok h' → ext h h' → (∀ l, reach h c l → h' !! l = h !! l) →
  client_ok h' c ∧ (isolated h c → isolated h' c) ∧ (∀ l, reach h' c l ↔ reach h c l) ∧
  (holds_stages h c p → holds_stages h' c p).
Proof.
  intros Hok Hh' He Hsame.
  destruct (client_stable h h' c Hok Hh' He Hsame) as [Hok' Hst].
  split_and!; [done| | |].
  - intros Hiso i j a b l Hij Ha Hb Hla Hlb.
    apply (Hiso i j a b l Hij Ha Hb).
    + apply (Hst a); [by eapply list_elem_of_lookup_2|done].
    + apply (Hst b); [by eapply list_elem_of_lookup_2|done].
  - intros l. split; intros (rt & Hrt & Hl); exists rt; (split; [done|]); by apply (Hst rt).
  - intros (Hu & Hb & Ha).
    destruct (Hst (RSlice (udBeforeRequest c))) as [Hu' _]; [unfold roots; by repeat constructor|].
    destruct (Hst (RSlice (beforeRequest c))) as [Hb' _]; [unfold roots; by repeat constructor|].
    destruct (Hst (RSlice (afterResponse c))) as [Ha' _]; [unfold roots; by repeat constructor|].
    simpl in *. unfold holds_stages. by rewrite Hu', Hb', Ha'.
Qed.

(** What a mutation writes: objects of the client it works on, and new
    ones. *)
Lemma mutate_footprint m c st c' st' :
  client_ok (heap st) c → mutate m c st = Ok (c', st') →
  heap_ok (heap st') ∧ ext (heap st) (heap st') ∧
  (∀ l, l < length (heap st) → ¬ reach (heap st) c l → heap st' !! l = heap st !! l) ∧
  (∀ l, reach (heap st') c' l → reach (heap st) c l ∨ length (heap st) ≤ l).
Proof.
  intros [Hh Hc] Hrun.
  destruct (mutate_frame m c st c' st' (roots c)) as (HI & Hf & He & Hmut);
    [done|done| |done|].
  { intros rt Hrt. by eapply list_elem_of_lookup_2. }
  destruct HI as (Hh' & Hfr' & Hcl').
  destruct Hmut as [(rt' & Hroots & Hok' & Hin') _].
  split_and!; [done|done| |].
  - intros l Hl Hno. apply Hf. intros [Hr|Hge]; [by apply Hno|lia].
  - intros l (rt & Hrt & Hl).
    assert (Hin : root_in (region (heap st) (roots c)) rt).
    { rewrite Hroots in Hrt. apply list_elem_of_lookup in Hrt as [i Hi].
      destruct (decide (target m = i)) as [<-|Hne].
      - rewrite list_lookup_insert_eq in Hi.
        + by injection Hi as <-.
        + destruct (target_root c m) as [rt0 Hrt0]. by eapply lookup_lt_Some.
      - rewrite list_lookup_insert_ne in Hi by done.
        apply root_in_region. by eapply list_elem_of_lookup_2. }
    exact (reach_root_in _ _ _ _ Hcl' Hin Hl).
Qed.

(** [C] makes its client out of new objects. *)
Lemma C_made st :
  heap_ok (heap st) →
  ∃ c st', C st = Ok (c, st') ∧ untouched st st' ∧
           ∀ l, reach (heap st') c l → length (heap st) ≤ l.
Proof.
  intros Hh. destruct (C_spec st Hh) as (c & st' & HC & Hev & [Hh' _] & _).
  exists c, st'. split; [done|].
  unfold C, slice_of, alloc, bind, ret in HC. simpl in HC. injection HC as <- <-.
  simpl in *. split.
  - split_and!; [done|done|]. intros l Hl. simpl.
    by rewrite <- app_assoc, lookup_app_l.
  - intros l (rt & Hrt & Hl). unfold roots in Hrt. simpl in Hrt.
    apply list_elem_of_lookup in Hrt as [i Hi].
    destruct i as [|[|[|[|[|[|[|[|i]]]]]]]]; simpl in Hi; simplify_eq; simpl in Hl;
      unfold reach_values in *;
      repeat match goal with
             | H : _ ∨ _ |- _ => destruct H
             | H : ∃ _, _ |- _ => destruct H
             | H : _ ∧ _ |- _ => destruct H
             end; simplify_eq; rewrite ?length_app; lia.
Qed.

(** A setting is not a collection. *)
Lemma apply_setting_roots s c st c' st' :
  apply_setting s c st = Ok (c', st') → roots c' = roots c ∧ heap st' = heap st.
Proof.
  destruct s; simpl; try (intros [= <- <-]; done).
  - unfold SetCertFromFile. destruct (tls_LoadX509KeyPair _ _) as [cert|e].
    + unfold tlsConfig. destruct (TLSClientConfig (t c)); intros [= <- <-]; done.
    + unfold logf. destruct (log c); [|done]. intros [= <- <-]. done.
  - unfold SetCerts, tlsConfig. destruct (TLSClientConfig (t c)); intros [= <- <-]; done.
  - unfold SetRedirectPolicy. case_decide; intros [= <- <-]; done.
  - unfold SetLogger. destruct lg; intros [= <- <-]; done.
  - unfold SetProxyURL. destruct (url_Parse _) as [u|e].
    + intros [= <- <-]. done.
    + unfold logf. destruct (log c); [|done]. intros [= <- <-]. done.
Qed.

(** What the pool says of a client, it says of one with the same
    collections. *)
Lemma same_roots h c c' :
  roots c' = roots c →
  (client_ok h c → client_ok h c') ∧ (isolated h c → isolated h c') ∧
  (∀ l, reach h c' l ↔ reach h c l) ∧ (∀ p, holds_stages h c p → holds_stages h c' p).
Proof.
  intros Hr. unfold client_ok, isolated, reach. rewrite Hr. split_and!; [done..|].
  unfold roots in Hr. injection Hr as _ _ _ _ _ Hb Hu Ha.
  unfold holds_stages. by rewrite Hb, Hu, Ha.
Qed.

Lemma pool_ok_nil h : heap_ok h → pool_ok h [] [].
Proof. intros Hh. split_and!; [done|done|..]; intros *; by rewrite ?lookup_nil. Qed.

(** A client made of new objects joins the pool. *)
Lemma pool_ok_extend st st' cs regs c p :
  pool_ok (heap st) cs regs → untouched st st' →
  client_ok (heap st') c → isolated (heap st') c →
  (∀ l, reach (heap st') c l → length (heap st) ≤ l) →
  holds_stages (heap st') c p →
  pool_ok (heap st') (cs ++ [c]) (regs ++ [p]).
Proof.
  intros (Hh & Hlen & Hcl & Hsep & Hst) Hu Hok Hiso Hnew Hp.
  assert (Hkept : ∀ i d q, cs !! i = Some d →
            client_ok (heap st') d ∧ (isolated (heap st) d → isolated (heap st') d) ∧
            (∀ l, reach (heap st') d l ↔ reach (heap st) d l) ∧
            (holds_stages (heap st) d q → holds_stages (heap st') d q)).
  { intros i d q Hd. destruct (Hcl i d Hd) as [Hdok _].
    apply client_kept; [done|apply Hu|by apply untouched_ext|].
    intros l Hl. destruct Hu as (_ & _ & Hs). apply Hs. by eapply reach_bound. }
  assert (Hlast : ∀ i d, (cs ++ [c]) !! i = Some d →
            cs !! i = Some d ∨ (i = length cs ∧ d = c)).
  { intros i d Hd. apply lookup_app_Some in Hd as [Hd|[Hge Hd]]; [by left|right].
    apply list_lookup_singleton_Some in Hd as [Hi ->]. split; [lia|done]. }
  split_and!.
  - apply Hu.
  - rewrite !length_app. simpl. lia.
  - intros i d Hd. destruct (Hlast i d Hd) as [Hd'|[-> ->]]; [|done].
    destruct (Hkept i d ([], []) Hd') as (? & Hi & _). split; [done|].
    apply Hi. by apply (Hcl i d).
  - intros i j d e l Hij Hd He Hld Hle.
    destruct (Hlast i d Hd) as [Hd'|[-> ->]]; destruct (Hlast j e He) as [He'|[-> ->]].
    + apply (Hkept i d ([], []) Hd') in Hld. apply (Hkept j e ([], []) He') in Hle.
      exact (Hsep i j d e l Hij Hd' He' Hld Hle).
    + apply (Hkept i d ([], []) Hd') in Hld. destruct (Hcl i d Hd') as [Hdok _].
      pose proof (reach_bound _ _ _ Hdok Hld). specialize (Hnew l Hle). lia.
    + apply (Hkept j e ([], []) He') in Hle. destruct (Hcl j e He') as [Heok _].
      pose proof (reach_bound _ _ _ Heok Hle). specialize (Hnew l Hld). lia.
    + done.
  - intros i d q Hd Hq. destruct (Hlast i d Hd) as [Hd'|[-> ->]].
    + rewrite lookup_app_l in Hq by (rewrite Hlen; by eapply lookup_lt_Some).
      apply (Hkept i d q Hd'). by apply (Hst i d q).
    + rewrite <- Hlen, lookup_app_r, Nat.sub_diag in Hq by done. by injection Hq as <-.
Qed.

Lemma perform_ok a cs st cs' st' regs :
  pool_ok (heap st) cs regs → perform a cs st = Ok (cs', st') →
  pool_ok (heap st') cs' (registered_after a regs).
Proof.
  intros Hpool Hrun. pose proof Hpool as (Hh & Hlen & Hcl & Hsep & Hst).
  destruct a as [|i|i m|i s]; simpl in *.
  4: { destruct (cs !! i) as [c|] eqn:Hc; [|by injection Hrun as <- <-].
       apply bind_Ok in Hrun as (c' & st1 & Hs & Hret). injection Hret as <- <-.
       destruct (apply_setting_roots s c st c' st1 Hs) as [Hr ->].
       destruct (same_roots (heap st) c c' Hr) as (Hok' & Hiso' & Hreach' & Hst').
       assert (Hwhich : ∀ j d, <[i := c']> cs !! j = Some d →
                 (j = i ∧ d = c') ∨ (j ≠ i ∧ cs !! j = Some d)).
       { intros j d Hd. destruct (decide (i = j)) as [<-|Hne].
         - rewrite list_lookup_insert_eq in Hd by (by eapply lookup_lt_Some).
           injection Hd as <-. by left.
         - rewrite list_lookup_insert_ne in Hd by done. right. split; [congruence|done]. }
       split_and!.
       - done.
       - by rewrite length_insert.
       - intros j d Hd. destruct (Hwhich j d Hd) as [[-> ->]|[Hj Hd']]; [|by apply (Hcl j d)].
         destruct (Hcl i c Hc). auto.
       - intros j k d d2 l Hjk Hd Hd2 Hld Hle.
         destruct (Hwhich j d Hd) as [[-> ->]|[Hj Hd']];
           destruct (Hwhich k d2 Hd2) as [[-> ->]|[Hk Hd2']].
         + done.
         + apply Hreach' in Hld. exact (Hsep i k c d2 l Hjk Hc Hd2' Hld Hle).
         + apply Hreach' in Hle. exact (Hsep j i d c l Hjk Hd' Hc Hld Hle).
         + exact (Hsep j k d d2 l Hjk Hd' Hd2' Hld Hle).
       - intros j d q Hd Hq. destruct (Hwhich j d Hd) as [[-> ->]|[Hj Hd']].
         + apply Hst'. by apply (Hst i c q).
         + by apply (Hst j d q). }
  - apply bind_Ok in Hrun as (c & st1 & HC & Hret). injection Hret as <- <-.
    destruct (C_spec st Hh) as (c1 & st1' & HC1 & _ & Hok & Hiso & Hb & Hu & Ha & _).
    destruct (C_made st Hh) as (c2 & st2' & HC2 & Hunt & Hnew).
    rewrite HC in HC1, HC2. injection HC1 as <- <-. injection HC2 as <- <-.
    apply (pool_ok_extend st st1); try done.
    all: unfold holds_stages; simpl; by rewrite Hu, Hb, Ha, ?app_nil_r.
  - destruct (cs !! i) as [c|] eqn:Hc.
    + apply bind_Ok in Hrun as (cc & st1 & HCl & Hret). injection Hret as <- <-.
      destruct (lookup_lt_is_Some_2 regs i) as [p Hp].
      { rewrite Hlen. by eapply lookup_lt_Some. }
      rewrite Hp. destruct (Hcl i c Hc) as [Hok Hiso].
      destruct (Clone_spec c st Hok)
        as (cc' & st1' & HCl' & Hunt & Hok' & Hiso' & Hnew & _ & _ & _ & _ & _ & _
            & Vb & Vu & Va & _).
      rewrite HCl in HCl'. injection HCl' as <- <-.
      apply (pool_ok_extend st st1); try done.
      destruct (Hst i c p Hc Hp) as (Hu & Hb & Ha).
      unfold holds_stages. by rewrite Vu, Vb, Va.
    + injection Hrun as <- <-.
      rewrite (proj2 (lookup_ge_None regs i)); [done|].
      rewrite Hlen. by apply lookup_ge_None.
  - destruct (cs !! i) as [c|] eqn:Hc.
    2: { injection Hrun as <- <-.
         rewrite (proj2 (lookup_ge_None regs i)); [done|].
         rewrite Hlen. by apply lookup_ge_None. }
    apply bind_Ok in Hrun as (c' & st1 & Hm & Hret). injection Hret as <- <-.
    destruct (lookup_lt_is_Some_2 regs i) as [p Hp].
    { rewrite Hlen. by eapply lookup_lt_Some. }
    rewrite Hp. destruct (Hcl i c Hc) as [Hok Hiso].
    destruct (mutate_stage_lists m c st c' st1 Hok Hiso Hm)
      as (Hok' & Hiso' & _ & Vb & Vu & Va).
    destruct (mutate_footprint m c st c' st1 Hok Hm) as (Hh1 & He & Hframe & Hfoot).
    assert (Hi : i < length cs) by (by eapply lookup_lt_Some).
    assert (Hkept : ∀ j d q, j ≠ i → cs !! j = Some d →
              client_ok (heap st1) d ∧ (isolated (heap st) d → isolated (heap st1) d) ∧
              (∀ l, reach (heap st1) d l ↔ reach (heap st) d l) ∧
              (holds_stages (heap st) d q → holds_stages (heap st1) d q)).
    { intros j d q Hj Hd. destruct (Hcl j d Hd) as [Hdok _].
      apply client_kept; [done|done|done|].
      intros l Hl. apply Hframe; [by eapply reach_bound|].
      intros Hlc. exact (Hsep j i d c l Hj Hd Hc Hl Hlc). }
    assert (Hwhich : ∀ j d, <[i := c']> cs !! j = Some d →
              (j = i ∧ d = c') ∨ (j ≠ i ∧ cs !! j = Some d)).
    { intros j d Hd. destruct (decide (i = j)) as [<-|Hne].
      - rewrite list_lookup_insert_eq in Hd by done. injection Hd as <-. by left.
      - rewrite list_lookup_insert_ne in Hd by done. right. split; [congruence|done]. }
    assert (Hapart : ∀ j d l, j ≠ i → cs !! j = Some d →
              reach (heap st1) c' l → reach (heap st1) d l → False).
    { intros j d l Hj Hd Hlc Hld. apply (Hkept j d ([], []) Hj Hd) in Hld.
      destruct (Hfoot l Hlc) as [Hlc'|Hge].
      - exact (Hsep j i d c l Hj Hd Hc Hld Hlc').
      - destruct (Hcl j d Hd) as [Hdok _].
        pose proof (reach_bound _ _ _ Hdok Hld). lia. }
    split_and!.
    + done.
    + by rewrite !length_insert.
    + intros j d Hd. destruct (Hwhich j d Hd) as [[-> ->]|[Hj Hd']]; [done|].
      destruct (Hkept j d ([], []) Hj Hd') as (? & Hi' & _). split; [done|].
      apply Hi'. by apply (Hcl j d).
    + intros j k d d2 l Hjk Hd Hd2 Hld Hle.
      destruct (Hwhich j d Hd) as [[-> ->]|[Hj Hd']];
        destruct (Hwhich k d2 Hd2) as [[-> ->]|[Hk Hd2']].
      * done.
      * exact (Hapart k d2 l Hk Hd2' Hld Hle).
      * exact (Hapart j d l Hj Hd' Hle Hld).
      * apply (Hkept j d ([], []) Hj Hd') in Hld. apply (Hkept k d2 ([], []) Hk Hd2') in Hle.
        exact (Hsep j k d d2 l Hjk Hd' Hd2' Hld Hle).
    + intros j d q Hd Hq. destruct (Hwhich j d Hd) as [[-> ->]|[Hj Hd']].
      * rewrite list_lookup_insert_eq in Hq by (rewrite Hlen; done). injection Hq as <-.
        destruct (Hst i c p Hc Hp) as (Hu & Hb & Ha).
        unfold holds_stages. simpl. rewrite Vu, Vb, Va, Hu, Hb, Ha.
        by rewrite !fmap_app, <- !app_assoc.
      * rewrite list_lookup_insert_ne in Hq by done.
        apply (Hkept j d q Hj Hd'). by apply (Hst j d q).
Qed.

Lemma perform_all_ok program cs st cs' st' regs :
  pool_ok (heap st) cs regs → perform_all program cs st = Ok (cs', st') →
  pool_ok (heap st') cs' (registered_from program regs).
Proof.
  revert cs st regs. induction program as [|a program IH]; intros cs st regs Hpool Hrun;
    simpl in *.
  - by injection Hrun as <- <-.
  - apply bind_Ok in Hrun as (cs1 & st1 & Ha & Hrest).
    eapply IH; [|exact Hrest]. by eapply perform_ok.
Qed.

End Pool.

Section Schedule.
Context `{GoLib} `{Collaborators}.

Lemma run_RequestMiddleware_passed uds bfs r r1 r2 :
  run_RequestMiddleware uds r = (r1, None, uds) →
  run_RequestMiddleware bfs r1 = (r2, None, bfs) →
  (run_RequestMiddleware (uds ++ bfs) r).1.1 = r2.
Proof. intros H1 H2. by rewrite run_RequestMiddleware_app, H1, H2. Qed.

(** The events of [do]: a prefix of the schedule, and the whole schedule
    when no error is returned; [do] panics only on a debug line that cannot
    be written. *)
Lemma do_outcome_schedule c r st uds bfs afs :
  match do_outcome c r st uds bfs afs with
  | Ok (r', resp, e, st') =>
      ∃ evs, st' = State (heap st) (events st ++ evs) ∧
             evs `prefix_of` schedule c r uds bfs afs ∧
             (e = None → evs = schedule c r uds bfs afs)
  | Panic => ¬ can_debug c (RawRequest (dispatched (run_RequestMiddleware (uds ++ bfs) r).1.1))
  end.
Proof.
  unfold do_outcome, schedule.
  pose proof (run_RequestMiddleware_called uds r) as [Hp1 Hall1].
  destruct (run_RequestMiddleware uds r) as [[r1 e1] called1] eqn:H1. simpl in Hp1, Hall1.
  destruct e1 as [e1|].
  { cbv beta iota zeta. eexists. split; [done|]. split; [|done]. destruct Hp1 as [k ->].
    rewrite fmap_app, <- app_assoc. by apply prefix_app_r. }
  specialize (Hall1 eq_refl) as ->.
  pose proof (run_RequestMiddleware_called bfs r1) as [Hp2 Hall2].
  destruct (run_RequestMiddleware bfs r1) as [[r2 e2] called2] eqn:H2. simpl in Hp2, Hall2.
  destruct e2 as [e2|].
  { cbv beta iota zeta. eexists. split; [done|]. split; [|done]. apply prefix_app.
    destruct Hp2 as [k ->]. rewrite fmap_app, <- app_assoc. by apply prefix_app_r. }
  specialize (Hall2 eq_refl) as ->.
  rewrite (run_RequestMiddleware_passed uds bfs r r1 r2 H1 H2).
  cbv beta iota zeta.
  case_bool_decide as Hdbg.
  { intros Hcan. destruct Hdbg as [Hon Hmiss]. destruct (Hcan Hon) as [[lg Hlg] [u Hu]].
    destruct Hmiss; congruence. }
  unfold exchange_events.
  destruct (httpClient_Do _ _) as [hr|e].
  2: { eexists. split; [done|]. split; [|done]. rewrite <- !app_assoc.
       do 3 apply prefix_app. by apply prefix_app_r. }
  destruct (negb (disableAutoReadResponse c) && negb (isSaveResponse (dispatched r2))).
  - destruct (Response_ToBytes _) as [resp1 [e4|]].
    + eexists. split; [done|]. split; [|done]. rewrite <- !app_assoc.
      do 4 apply prefix_app. by apply prefix_app_r.
    + pose proof (run_ResponseMiddleware_called (client (dispatched r2)) afs resp1) as Hp3.
      pose proof (run_ResponseMiddleware_all (client (dispatched r2)) afs resp1) as Hall3.
      destruct (run_ResponseMiddleware _ afs resp1) as [[resp2 e5] called5].
      simpl in Hp3, Hall3.
      eexists. split; [done|]. rewrite <- !app_assoc. split.
      * do 5 apply prefix_app. destruct Hp3 as [k ->]. rewrite fmap_app. by apply prefix_app_r.
      * intros ->. by rewrite (Hall3 eq_refl).
  - pose proof (run_ResponseMiddleware_called (client (dispatched r2)) afs
                  {| ResponseRequest := Some (dispatched r2); RawResponse := Some hr |}) as Hp3.
    pose proof (run_ResponseMiddleware_all (client (dispatched r2)) afs
                  {| ResponseRequest := Some (dispatched r2); RawResponse := Some hr |}) as Hall3.
    destruct (run_ResponseMiddleware _ afs _) as [[resp2 e5] called5].
    simpl in Hp3, Hall3.
    eexists. split; [done|]. rewrite app_nil_r, <- !app_assoc. simpl. split.
    * do 3 apply prefix_app. apply prefix_cons. destruct Hp3 as [k ->]. rewrite fmap_app. by apply prefix_app_r.
    * intros ->. by rewrite (Hall3 eq_refl).
Qed.

(** C2. A program makes clients with [C] and [Clone] and changes their
    collections and settings, in any order; [do] then handles a request of
    one of these clients, on which the request middleware [uds] and the
    response middleware [ufs] have been registered, in this order. [do] is
    then the pipeline over [uds], then the built-in request middleware, then
    the exchange, then the built-in response middleware, then [ufs]: it
    returns unless a debug line cannot be written, the events of the call are
    the beginning of that schedule, and they are the whole schedule when [do]
    returns no error. So every registered before-request middleware runs
    before every built-in one, and every built-in after-response middleware
    before every registered one. *)
Theorem do_stage_order st0 program cs st k c0 r :
  heap_ok (heap st0) →
  perform_all program [] st0 = Ok (cs, st) →
  cs !! k = Some (client r) →
  ∃ uds ufs,
    registered program !! k = Some (uds, ufs) ∧
    do c0 r st =
      match do_outcome c0 r st uds builtin_request (builtin_response ++ ufs) with
      | Ok (r', resp, e, st') => Ok ((r', resp, e), st')
      | Panic => Panic
      end ∧
    (can_debug c0
       (RawRequest (dispatched (run_RequestMiddleware (uds ++ builtin_request) r).1.1)) →
     ∃ res st', do c0 r st = Ok (res, st')) ∧
    ∀ r' resp e st', do c0 r st = Ok ((r', resp, e), st') →
      ∃ evs, st' = State (heap st) (events st ++ evs) ∧
        evs `prefix_of` schedule c0 r uds builtin_request (builtin_response ++ ufs) ∧
        (e = None → evs = schedule c0 r uds builtin_request (builtin_response ++ ufs)).
Proof.
  intros Hh Hrun Hk.
  pose proof (perform_all_ok program [] st0 cs st [] (pool_ok_nil _ Hh) Hrun)
    as (_ & Hlen & _ & _ & Hst).
  destruct (lookup_lt_is_Some_2 (registered program) k) as [[uds ufs] Hp].
  { unfold registered. rewrite Hlen. by eapply lookup_lt_Some. }
  exists uds, ufs. split; [done|].
  destruct (Hst k (client r) (uds, ufs) Hk Hp) as (Hu & Hb & Ha). simpl in *.
  pose proof (do_unfold c0 r st uds builtin_request (builtin_response ++ ufs) Hu Hb Ha)
    as Hdo.
  pose proof (do_outcome_schedule c0 r st uds builtin_request (builtin_response ++ ufs))
    as Hsched.
  split; [done|]. rewrite Hdo.
  destruct (do_outcome c0 r st uds builtin_request (builtin_response ++ ufs))
    as [[[[r1 resp1] e1] st1]|].
  - split; [eauto|]. intros r' resp e st' [= <- <- <- <-]. done.
  - split; [done|]. intros r' resp e st' [=].
Qed.

End Schedule.

(** ** Worked examples *)

#[local] Existing Instance example_lib.
#[local] Existing Instance example_collaborators.

(** Closes [m = v] for a closed [m] by evaluating it. *)
Ltac by_computation :=
  lazymatch goal with
  | |- ?m = _ =>
      let v := eval vm_compute in m in
      let H := fresh in
      assert (H : m = v) by (vm_compute; reflexivity); exact H
  end.

(** C1. The second revision of [Clone] (lines 2060-2081) on a client with
    three registered request middleware: the copy registers a fourth, then the
    original registers another one, and the middleware list of the copy now
    ends in the middleware registered on the original. *)
Theorem Rev2_Clone_shares_udBeforeRequest :
  ∃ c cc st c' st',
    (let* c := C in
     let* c := OnBeforeRequest c (UserRequestMiddleware 1) in
     let* c := OnBeforeRequest c (UserRequestMiddleware 2) in
     let* c := OnBeforeRequest c (UserRequestMiddleware 3) in
     let* cc := Rev2.Clone c in
     let* cc := OnBeforeRequest cc (UserRequestMiddleware 4) in
     ret (c, cc)) (State [] []) = Ok ((c, cc), st) ∧
    view_udBeforeRequest (collections (heap st) cc) =
      VRequestMiddleware <$> [UserRequestMiddleware 1; UserRequestMiddleware 2;
                              UserRequestMiddleware 3; UserRequestMiddleware 4] ∧
    OnBeforeRequest c (UserRequestMiddleware 5) st = Ok (c', st') ∧
    view_udBeforeRequest (collections (heap st') cc) =
      VRequestMiddleware <$> [UserRequestMiddleware 1; UserRequestMiddleware 2;
                              UserRequestMiddleware 3; UserRequestMiddleware 5].
Proof.
  eexists _, _, _, _, _. split; [by_computation|]. split; [by_computation|].
  split; by_computation.
Qed.

Lemma Clone_no_aliasing_witness :
  ∃ c st, (let* c := C in configure example_ops c) (State [] [])
            = Ok (c, st) ∧
  ∃ cc st1, Clone c st = Ok (cc, st1) ∧
    ∀ ops c2 cc2 st2, mutate_all ops (c, cc) st1 = Ok ((c2, cc2), st2) →
    ∀ m,
      (∀ cc3 st3, mutate m cc2 st2 = Ok (cc3, st3) →
                  collections (heap st3) c2 = collections (heap st2) c2) ∧
      (∀ c3 st3, mutate m c2 st2 = Ok (c3, st3) →
                 collections (heap st3) cc2 = collections (heap st2) cc2).
Proof.
  eexists _, _. split; [by_computation|].
  apply Clone_no_aliasing.
  apply (bool_decide_unpack _). vm_compute. exact I.
Defined.

(** Evaluates the scrutinee of the match at the head of [H]. *)
Ltac eval_head H :=
  repeat lazymatch type of H with
         | match ?a with _ => _ end =>
             let v := eval vm_compute in a in
             change a with v in H; cbv beta iota zeta in H
         end.

Lemma do_fail_fast_witness :
  ∃ c st r' evs,
    (let* c := C in configure example_rejecting_ops c) (State [] []) = Ok (c, st) ∧
    do c (R c) st = Ok ((r', zero_Response, Some (errors_New "rejected")),
                       State (heap st) (events st ++ evs)) ∧
    evs = [EvUdBeforeRequest (UserRequestMiddleware 1);
           EvUdBeforeRequest (UserRequestMiddleware 13)].
Proof.
  let v := eval vm_compute in
    ((let* c := C in configure example_rejecting_ops c) (State [] [])) in
  lazymatch v with
  | Ok (?c, ?st) =>
      destruct (do_fail_fast c (R c) st
                  [UserRequestMiddleware 1; UserRequestMiddleware 13; UserRequestMiddleware 2]
                  builtin_request [UserRequestMiddleware 1] (UserRequestMiddleware 13)
                  (UserRequestMiddleware 2 :: builtin_request) (R c) (R c)
                  (errors_New "rejected"))
        as (evs & Hdo & Hevs & _);
        [by_computation|by_computation|reflexivity|reflexivity|reflexivity|];
      exists c, st, (R c), evs
  end.
  split; [by_computation|]. split; [exact Hdo|]. rewrite Hevs. reflexivity.
Defined.

Lemma do_auto_read_witness :
  ∃ c st res st',
    (let* c := C in configure example_ops c) (State [] []) = Ok (c, st) ∧
    do c (R c) st = Ok (res, st') ∧
    events st' =
      events st ++
      [EvUdBeforeRequest (UserRequestMiddleware 1);
       EvUdBeforeRequest (UserRequestMiddleware 2);
       EvBeforeRequest parseRequestURL; EvBeforeRequest parseRequestHeader;
       EvBeforeRequest parseRequestCookie; EvBeforeRequest parseRequestBody;
       EvRoundTrip; EvToBytes;
       EvAfterResponse parseResponseBody; EvAfterResponse handleDownload;
       EvAfterResponse (UserResponseMiddleware 7)].
Proof.
  let v := eval vm_compute in ((let* c := C in configure example_ops c) (State [] [])) in
  lazymatch v with
  | Ok (?c, ?st) =>
      let uds := constr:([UserRequestMiddleware 1; UserRequestMiddleware 2]) in
      let w := eval vm_compute in
        (run_RequestMiddleware (uds ++ builtin_request) (R c)) in
      lazymatch w with
      | (?r1, _, ?called) =>
          destruct (do_auto_read c (R c) st uds builtin_request
                      (builtin_response ++ [UserResponseMiddleware 7]) r1 called
                      {| http.StatusCode := 200; http.Body := "ok" |})
            as [Hon _];
            [by_computation|by_computation|by_computation|by_computation
            |intros Hdbg; discriminate Hdbg|reflexivity|];
          specialize (Hon (conj eq_refl eq_refl)); eval_head Hon;
          exists c, st
      end
  end.
  eexists _, _. split; [by_computation|]. split; [exact Hon|].
  vm_compute. reflexivity.
Defined.

Lemma defaultCheckRedirect_limit_witness :
  ∃ c st,
    C (State [] []) = Ok (c, st) ∧
    call_CheckRedirect c zero_http_Request (replicate 9 zero_http_Request) st =
      Ok (None, State (heap st) (events st ++ [])) ∧
    call_CheckRedirect c zero_http_Request (replicate 10 zero_http_Request) st =
      Ok (Some (errors_New "stopped after 10 redirects"), st).
Proof.
  let v := eval vm_compute in (C (State [] [])) in
  lazymatch v with
  | Ok (?c, ?st) =>
      exists c, st; split; [by_computation|];
      split;
      [ apply (defaultCheckRedirect_limit c zero_http_Request
                 (replicate 9 zero_http_Request) st);
          [reflexivity|intros Hdbg; discriminate Hdbg|vm_compute; lia]
      | apply (defaultCheckRedirect_limit c zero_http_Request
                 (replicate 10 zero_http_Request) st);
          [reflexivity|intros Hdbg; discriminate Hdbg|vm_compute; lia] ]
  end.
Defined.

Lemma SetRedirectPolicy_order_witness :
  ∃ c st,
    C (State [] []) = Ok (c, st) ∧
    call_CheckRedirect (SetRedirectPolicy c example_policies) zero_http_Request [] st =
      Ok (Some (errors_New "redirect is not allowed"),
          State (heap st) (events st ++ [EvRedirectPolicy 1; EvRedirectPolicy 2])).
Proof.
  let v := eval vm_compute in (C (State [] [])) in
  lazymatch v with
  | Ok (?c, ?st) =>
      exists c, st; split; [by_computation|];
      destruct (SetRedirectPolicy_order c example_policies zero_http_Request [] st)
        as [Hdeny _]; [discriminate|];
      apply (Hdeny 2 (λ _ _, Some (errors_New "redirect is not allowed")));
        [reflexivity|reflexivity|]
  end.
  intros j g Hj Hg. destruct j as [|[|j]]; [discriminate Hg| |lia].
  injection Hg as <-. reflexivity.
Defined.

Lemma setRequestURL_empty_port_witness :
  ∃ r', setRequestURL zero_http_Request "http://example.com:/a" = (r', None) ∧
        http.Host r' = "example.com" ∧ urlpkg.Host <$> http.URL r' = Some "example.com".
Proof.
  apply (setRequestURL_empty_port zero_http_Request "http://example.com:/a"
           example_url "example.com"); reflexivity.
Defined.

Lemma setters_absorb_errors_witness :
  ∃ c st,
    C (State [] []) = Ok (c, st) ∧
    SetProxyURL c "://bad" st =
      Ok (c, State (heap st)
               (events st ++ [EvLog defaultLogger ErrorLevel
                                "failed to parse proxy url %s: %v" ["://bad"; "error"]])) ∧
    SetCommonQueryString c "a=1&b=%zz" st =
      Ok (c, State (heap st)
               (events st ++ [EvLog defaultLogger WarnLevel
                                "failed to parse query string (%s): %v"
                                ["a=1&b=%zz"; "error"]])) ∧
    SetCertFromFile c "missing.pem" "missing.key" st =
      Ok (c, State (heap st)
               (events st ++ [EvLog defaultLogger ErrorLevel
                                "failed to load client cert: %v" ["error"]])).
Proof.
  let v := eval vm_compute in (C (State [] [])) in
  lazymatch v with
  | Ok (?c, ?st) =>
      exists c, st; split; [by_computation|];
      destruct (setters_absorb_errors c defaultLogger st eq_refl) as (Hp & Hq & Hc);
      split; [exact (Hp "://bad" (ForeignError 1) eq_refl)|];
      split; [exact (Hq "a=1&b=%zz" _ (ForeignError 2) eq_refl)
             |exact (Hc "missing.pem" "missing.key" (ForeignError 3) eq_refl)]
  end.
Defined.

Lemma SetDefaultClient_never_nil_witness :
  ∃ d st',
    (let* d0 := req.defaultClient_init in
     req.exec_all [req.GSetDefaultClient None; req.GSetCommonHeader "X-A" "1";
                   req.GOnBeforeRequest (UserRequestMiddleware 1);
                   req.GSetDefaultClient None; req.GR] d0) (State [] []) = Ok (d, st') ∧
    is_Some (req.DefaultClient d).
Proof.
  let v := eval vm_compute in
    ((let* d0 := req.defaultClient_init in
      req.exec_all [req.GSetDefaultClient None; req.GSetCommonHeader "X-A" "1";
                    req.GOnBeforeRequest (UserRequestMiddleware 1);
                    req.GSetDefaultClient None; req.GR] d0) (State [] [])) in
  lazymatch v with
  | Ok (?d, ?st') =>
      exists d, st'; split; [by_computation|];
      apply (proj1 (proj2 (proj2 SetDefaultClient_never_nil))
               [req.GSetDefaultClient None; req.GSetCommonHeader "X-A" "1";
                req.GOnBeforeRequest (UserRequestMiddleware 1);
                req.GSetDefaultClient None; req.GR] (State [] []) d st');
      by_computation
  end.
Defined.

(** Runs the closed program [prog] and hands the client and the state it
    returns to [k]. *)
Ltac with_client prog k :=
  let v := eval vm_compute in (prog (State [] [])) in
  lazymatch v with
  | Ok (?c, ?st) => k c st
  end.

Ltac client_is_ok := apply (bool_decide_unpack _); vm_compute; exact I.

Lemma Clone_contents_witness :
  ∃ c st, (let* c := C in configure example_ops c) (State [] []) = Ok (c, st) ∧
    ∃ cc st', Clone c st = Ok (cc, st') ∧ events st' = events st ∧
      client_ok (heap st') cc ∧ plain_settings cc = plain_settings c ∧
      collections (heap st') cc = with_values_collections (collections (heap st) c) ∧
      collections (heap st') c = collections (heap st) c.
Proof.
  with_client (let* c := C in configure example_ops c) ltac:(fun c st =>
    exists c, st; split; [by_computation|];
    apply (Clone_contents c st); [client_is_ok|intros view k _ _; reflexivity]).
Defined.

Lemma Rev2_Clone_contents_witness :
  ∃ c st, (let* c := C in configure example_ops c) (State [] []) = Ok (c, st) ∧
    ∃ cc st', Rev2.Clone c st = Ok (cc, st') ∧
      view_afterResponse (collections (heap st') cc) = [] ∧
      view_Cookies (collections (heap st') cc) = [] ∧
      view_udBeforeRequest (collections (heap st') cc) =
        view_udBeforeRequest (collections (heap st) c).
Proof.
  with_client (let* c := C in configure example_ops c) ltac:(fun c st =>
    exists c, st; split; [by_computation|];
    destruct (Rev2_Clone_contents c st) as (cc & st' & Hrun & _ & _ & Hv & _);
      [client_is_ok|intros view k _ _; reflexivity|];
    exists cc, st'; split; [exact Hrun|]; split; [exact (f_equal view_afterResponse Hv)|];
    split; [exact (f_equal view_Cookies Hv)|exact (f_equal view_udBeforeRequest Hv)]).
Defined.

Lemma configure_returns_witness :
  ∃ c st, (let* c := C in configure example_ops c) (State [] []) = Ok (c, st) ∧
    client_ok (heap st) c ∧ log c = Some defaultLogger ∧
    view_beforeRequest (collections (heap st) c) = VRequestMiddleware <$> builtin_request ∧
    view_udBeforeRequest (collections (heap st) c) =
      VRequestMiddleware <$> registered_request example_ops ∧
    view_afterResponse (collections (heap st) c) =
      VResponseMiddleware <$> (builtin_response ++ registered_response example_ops).
Proof.
  apply (configure_returns (State [] []) example_ops).
  - apply Forall_nil_2.
  - apply (bool_decide_unpack _). vm_compute. exact I.
Defined.

Lemma configured_client_has_logger_witness :
  ∃ c st, (let* c := C in configure example_ops c) (State [] []) = Ok (c, st) ∧
    is_Some (log (SetLogger c None)) ∧ is_Some (log c).
Proof.
  with_client (let* c := C in configure example_ops c) ltac:(fun c st =>
    exists c, st; split; [by_computation|];
    apply (configured_client_has_logger (State [] []) example_ops c st None);
      [apply Forall_nil_2|by_computation]).
Defined.


Lemma SetCommonHeaders_view_witness :
  ∃ c st, (let* c := C in configure example_ops c) (State [] []) = Ok (c, st) ∧
    ∃ c' st', SetCommonHeaders c [("X-B", "3"); ("X-A", "2")] st = Ok (c', st') ∧
      view_Headers (collections (heap st') c') =
        Some (list_to_map [("X-B", [VString "3"]); ("X-A", [VString "2"])] ∪
              default ∅ (view_Headers (collections (heap st) c))).
Proof.
  with_client (let* c := C in configure example_ops c) ltac:(fun c st =>
    exists c, st; split; [by_computation|];
    destruct (SetCommonHeaders_view c [("X-B", "3"); ("X-A", "2")] st)
      as (c' & st' & Hrun & _ & _ & _ & Hv);
      [client_is_ok|apply (bool_decide_unpack _); vm_compute; exact I|];
    exists c', st'; split; [exact Hrun|exact Hv]).
Defined.

Lemma SetCommonQueryParams_view_witness :
  ∃ c st, C (State [] []) = Ok (c, st) ∧
    ∃ c' st', SetCommonQueryParams c [("page", "1"); ("size", "20")] st = Ok (c', st') ∧
      view_QueryParams (collections (heap st') c') =
        Some (list_to_map [("page", [VString "1"]); ("size", [VString "20"])] ∪ ∅).
Proof.
  with_client C ltac:(fun c st =>
    exists c, st; split; [by_computation|];
    destruct (SetCommonQueryParams_view c st) as [_ Hall]; [client_is_ok|];
    destruct (Hall [("page", "1"); ("size", "20")]) as (c' & st' & Hrun & _ & _ & _ & Hv);
      [apply (bool_decide_unpack _); vm_compute; exact I|];
    exists c', st'; split; [exact Hrun|exact Hv]).
Defined.

Lemma SetCommonFormData_view_witness :
  ∃ c st, C (State [] []) = Ok (c, st) ∧
    ∃ c' st', SetCommonFormData c [] st = Ok (c', st') ∧
      view_FormData (collections (heap st') c') = Some (∅ ∪ ∅) ∧
      view_FormData (collections (heap st) c) = None.
Proof.
  with_client C ltac:(fun c st =>
    exists c, st; split; [by_computation|];
    destruct (SetCommonFormData_view c [] st) as (c' & st' & Hrun & _ & _ & _ & Hv);
      [client_is_ok|apply NoDup_nil_2|];
    exists c', st'; split; [exact Hrun|split; [exact Hv|reflexivity]]).
Defined.




Lemma do_nil_error_complete_witness :
  ∃ c st r' resp st',
    (let* c := C in configure example_ops c) (State [] []) = Ok (c, st) ∧
    do c (R c) st = Ok ((r', resp, None), st') ∧
    events st' =
      events st ++
      [EvUdBeforeRequest (UserRequestMiddleware 1);
       EvUdBeforeRequest (UserRequestMiddleware 2);
       EvBeforeRequest parseRequestURL; EvBeforeRequest parseRequestHeader;
       EvBeforeRequest parseRequestCookie; EvBeforeRequest parseRequestBody;
       EvRoundTrip; EvToBytes;
       EvAfterResponse parseResponseBody; EvAfterResponse handleDownload;
       EvAfterResponse (UserResponseMiddleware 7)].
Proof.
  with_client (let* c := C in configure example_ops c) ltac:(fun c st =>
    let v := eval vm_compute in (do c (R c) st) in
    lazymatch v with
    | Ok ((?r', ?resp, None), ?st') =>
        assert (Hdo : do c (R c) st = Ok ((r', resp, None), st')) by by_computation;
        destruct (do_nil_error_complete c (R c) st
                    [UserRequestMiddleware 1; UserRequestMiddleware 2] builtin_request
                    (builtin_response ++ [UserResponseMiddleware 7]) r' resp st')
          as [_ Hev]; [by_computation|by_computation|by_computation|exact Hdo|];
        exists c, st, r', resp, st'; split; [by_computation|]; split; [exact Hdo|];
        rewrite Hev; reflexivity
    end).
Defined.

Lemma setupRequest_unparsable_URL_witness :
  ∃ c st, C (State [] []) = Ok (c, st) ∧
    setRequestURL (RawRequest (R c)) "" = (RawRequest (R c), Some (ForeignError 1)) ∧
    http.URL (RawRequest (setupRequest (R c))) = None.
Proof.
  with_client C ltac:(fun c st =>
    exists c, st; split; [by_computation|];
    destruct (setupRequest_unparsable_URL (R c) (ForeignError 1)) as (Hset & Hurl & _);
      [reflexivity|];
    split; [exact Hset|exact Hurl]).
Defined.


Section OfflineExample.
#[local] Existing Instance example_offline.

Lemma do_transport_error_witness :
  ∃ c st r',
    (let* c := C in configure example_ops c) (State [] []) = Ok (c, st) ∧
    do c (R c) st =
      Ok ((r', zero_Response, Some (errors_New "connection refused")),
          State (heap st)
            (events st ++
             [EvUdBeforeRequest (UserRequestMiddleware 1);
              EvUdBeforeRequest (UserRequestMiddleware 2);
              EvBeforeRequest parseRequestURL; EvBeforeRequest parseRequestHeader;
              EvBeforeRequest parseRequestCookie; EvBeforeRequest parseRequestBody;
              EvRoundTrip])).
Proof.
  with_client (let* c := C in configure example_ops c) ltac:(fun c st =>
    let uds := constr:([UserRequestMiddleware 1; UserRequestMiddleware 2]) in
    let w := eval vm_compute in (run_RequestMiddleware (uds ++ builtin_request) (R c)) in
    lazymatch w with
    | (?r1, _, ?called) =>
        exists c, st, (dispatched r1); split; [by_computation|];
        apply (do_transport_error c (R c) st uds builtin_request
                 (builtin_response ++ [UserResponseMiddleware 7]) r1 called
                 (errors_New "connection refused"));
          [by_computation|by_computation|by_computation|by_computation
          |intros Hdbg; discriminate Hdbg|reflexivity]
    end).
Defined.

End OfflineExample.

Section StrictExample.
#[local] Existing Instance example_strict.

Lemma do_after_response_fail_fast_witness :
  ∃ c st r' resp',
    (let* c := C in configure example_strict_ops c) (State [] []) = Ok (c, st) ∧
    do c (R c) st =
      Ok ((r', resp', Some (errors_New "rejected")),
          State (heap st)
            (events st ++
             [EvBeforeRequest parseRequestURL; EvBeforeRequest parseRequestHeader;
              EvBeforeRequest parseRequestCookie; EvBeforeRequest parseRequestBody;
              EvRoundTrip; EvToBytes;
              EvAfterResponse parseResponseBody; EvAfterResponse handleDownload;
              EvAfterResponse (UserResponseMiddleware 7);
              EvAfterResponse (UserResponseMiddleware 13)])).
Proof.
  with_client (let* c := C in configure example_strict_ops c) ltac:(fun c st =>
    let w := eval vm_compute in (run_RequestMiddleware ([] ++ builtin_request) (R c)) in
    lazymatch w with
    | (?r1, _, ?called) =>
        let hr := constr:({| http.StatusCode := 200; http.Body := "ok" |}) in
        let resp := constr:({| ResponseRequest := Some (dispatched r1);
                               RawResponse := Some hr |}) in
        exists c, st, (dispatched r1), resp; split; [by_computation|];
        apply (do_after_response_fail_fast c (R c) st [] builtin_request
                 (builtin_response ++ [UserResponseMiddleware 7; UserResponseMiddleware 13;
                                       UserResponseMiddleware 8])
                 r1 called hr
                 (builtin_response ++ [UserResponseMiddleware 7])
                 (UserResponseMiddleware 13) [UserResponseMiddleware 8]
                 resp resp resp (errors_New "rejected"));
          [by_computation|by_computation|by_computation|by_computation
          |intros Hdbg; discriminate Hdbg|reflexivity|reflexivity|reflexivity
          |reflexivity|reflexivity]
    end).
Defined.

End StrictExample.

Lemma do_stage_order_witness :
  ∃ cs st c,
    perform_all example_program [] (State [] []) = Ok (cs, st) ∧
    cs !! 1 = Some c ∧
    ∃ uds ufs,
      registered example_program !! 1 = Some (uds, ufs) ∧
      do c (R c) st =
        match do_outcome c (R c) st uds builtin_request (builtin_response ++ ufs) with
        | Ok (r', resp, e, st') => Ok ((r', resp, e), st')
        | Panic => Panic
        end ∧
      (can_debug c
         (RawRequest (dispatched (run_RequestMiddleware (uds ++ builtin_request) (R c)).1.1)) →
       ∃ res st', do c (R c) st = Ok (res, st')) ∧
      ∀ r' resp e st', do c (R c) st = Ok ((r', resp, e), st') →
        ∃ evs, st' = State (heap st) (events st ++ evs) ∧
          evs `prefix_of` schedule c (R c) uds builtin_request (builtin_response ++ ufs) ∧
          (e = None → evs = schedule c (R c) uds builtin_request (builtin_response ++ ufs)).
Proof.
  eexists _, _, _. split; [by_computation|]. split; [reflexivity|].
  lazymatch goal with
  | |- ∃ uds ufs, _ ∧ do ?c ?r ?st = _ ∧ _ =>
      refine (do_stage_order (State [] []) example_program _ st 1 c r _ _ _);
        [apply Forall_nil_2|by_computation|reflexivity]
  end.
Defined.
